(** * vpinleaders-client: the screen streamers

    A shallow embedding of the three streamer scripts
    ([streamer_linux.py], [streamer_windows.py], [streamer_mac.py]) and the
    properties their specification states about them.

    Layout:
    - [Py]       the Python values the D-Bus helpers handle, and [unwrap];
    - [Url]      [build_ws_url], once per script;
    - [Binary64] Python's floats: rationals rounded to binary64;
    - [Resize]   [resize_to_max] / [resize_if_needed];
    - [Bridge]   the bounded frame queue of [GstPipeWireCallbackGrabber];
    - [Portal]   [RawPortalScreencast] and [stream_wayland], in a small
                 state-and-exception monad over a scripted environment;
    - [Transport] the connect/send loops of the macOS and Windows scripts,
                 as step functions over the answers of the environment. *)

From Stdlib Require Import ZArith QArith Qminmax Qround Qabs Qpower String Ascii Lia Lqa.
From Stdlib Require Import DecimalString Floats Uint63.
From stdpp Require Import base option list strings.

#[local] Set Warnings "-register-all".
#[local] Open Scope string_scope.
#[local] Open Scope list_scope.
#[local] Open Scope Z_scope.

(* ====================================================================== *)
(** * Python values *)
(* ====================================================================== *)

Module Py.

(** The values that reach [unwrap]: what [dbus_next] puts in a message body.
    [PObj n] stands for any other object (compared by identity). *)
Inductive pyval : Type :=
| PNone
| PBool (b : bool)
| PInt (z : Z)
| PStr (s : string)
| PObj (n : N)
| PVariant (signature : string) (value : pyval)
| PDict (items : list (pyval * pyval))
| PList (xs : list pyval)
| PTuple (xs : list pyval).

(** Induction over the nesting of containers. *)
Section pyval_induction.
Variable P : pyval → Prop.
Hypothesis HNone : P PNone.
Hypothesis HBool : ∀ b, P (PBool b).
Hypothesis HInt : ∀ z, P (PInt z).
Hypothesis HStr : ∀ s, P (PStr s).
Hypothesis HObj : ∀ n, P (PObj n).
Hypothesis HVariant : ∀ sg v, P v → P (PVariant sg v).
Hypothesis HDict :
    ∀ items, Forall (λ kv, P kv.1 ∧ P kv.2) items → P (PDict items).
Hypothesis HList : ∀ xs, Forall P xs → P (PList xs).
Hypothesis HTuple : ∀ xs, Forall P xs → P (PTuple xs).

Fixpoint pyval_nested_ind (v : pyval) : P v :=
    match v with
    | PNone => HNone
    | PBool b => HBool b
    | PInt z => HInt z
    | PStr s => HStr s
    | PObj n => HObj n
    | PVariant sg x => HVariant sg x (pyval_nested_ind x)
    | PDict items =>
        HDict items
          ((fix go (l : list (pyval * pyval)) :
              Forall (λ kv, P kv.1 ∧ P kv.2) l :=
              match l with
              | [] => List.Forall_nil _
              | (k, x) :: r =>
                  List.Forall_cons _ (k, x) r
                    (conj (pyval_nested_ind k) (pyval_nested_ind x)) (go r)
              end) items)
    | PList xs =>
        HList xs
          ((fix go (l : list pyval) : Forall P l :=
              match l with
              | [] => List.Forall_nil _
              | x :: r => List.Forall_cons _ x r (pyval_nested_ind x) (go r)
              end) xs)
    | PTuple xs =>
        HTuple xs
          ((fix go (l : list pyval) : Forall P l :=
              match l with
              | [] => List.Forall_nil _
              | x :: r => List.Forall_cons _ x r (pyval_nested_ind x) (go r)
              end) xs)
    end.
End pyval_induction.

(** [hash(v)] succeeds: lists and dicts are unhashable, a tuple is hashable
    when its elements are, and [dbus_next.Variant] defines [__eq__] without
    [__hash__]. *)
Fixpoint hashable (v : pyval) : bool :=
  match v with
  | PNone | PBool _ | PInt _ | PStr _ | PObj _ => true
  | PVariant _ _ | PDict _ | PList _ => false
  | PTuple xs =>
      (fix all (l : list pyval) : bool :=
         match l with
         | [] => true
         | x :: r => hashable x && all r
         end) xs
  end.

(** Python's [==] between dictionary keys: [True == 1] and [False == 0].
    Only atoms are ever compared, since an unwrapped key is never a tuple. *)
Definition key_eqb (a b : pyval) : bool :=
  match a, b with
  | PNone, PNone => true
  | PBool x, PBool y => Bool.eqb x y
  | PInt x, PInt y => Z.eqb x y
  | PBool x, PInt y | PInt y, PBool x => Z.eqb y (if x then 1 else 0)
  | PStr x, PStr y => String.eqb x y
  | PObj x, PObj y => N.eqb x y
  | _, _ => false
  end.

(** [d[k] = v] on a dictionary kept in insertion order: an equal key keeps
    its place (and its first spelling) and takes the new value. *)
Fixpoint dict_set (d : list (pyval * pyval)) (k v : pyval)
  : list (pyval * pyval) :=
  match d with
  | [] => [(k, v)]
  | (k0, v0) :: r =>
      if key_eqb k0 k then (k0, v) :: r else (k0, v0) :: dict_set r k v
  end.

(** [d.get(k)] *)
Fixpoint dict_get (d : list (pyval * pyval)) (k : pyval) : option pyval :=
  match d with
  | [] => None
  | (k0, v0) :: r => if key_eqb k0 k then Some v0 else dict_get r k
  end.

(** [unwrap]; [None] is the [TypeError: unhashable type] that the dictionary
    comprehension raises when an unwrapped key is a list or a dict. *)
Fixpoint unwrap (v : pyval) : option pyval :=
  match v with
  | PVariant _ x => unwrap x
  | PDict items =>
      PDict <$>
        (fix comprehension (its acc : list (pyval * pyval)) {struct its}
           : option (list (pyval * pyval)) :=
           match its with
           | [] => Some acc
           | (k, x) :: r =>
               match unwrap k, unwrap x with
               | Some k', Some x' =>
                   if hashable k' then comprehension r (dict_set acc k' x')
                   else None
               | _, _ => None
               end
           end) items []
  | PList xs | PTuple xs =>
      PList <$>
        (fix each (l : list pyval) : option (list pyval) :=
           match l with
           | [] => Some []
           | x :: r =>
               match unwrap x, each r with
               | Some x', Some r' => Some (x' :: r')
               | _, _ => None
               end
           end) xs
  | _ => Some v
  end.

(** A [Variant] occurs somewhere in [v], at any depth, in a key or a value. *)
Fixpoint has_variant (v : pyval) : bool :=
  match v with
  | PVariant _ _ => true
  | PDict items =>
      (fix any (l : list (pyval * pyval)) : bool :=
         match l with
         | [] => false
         | (k, x) :: r => has_variant k || has_variant x || any r
         end) items
  | PList xs | PTuple xs =>
      (fix any (l : list pyval) : bool :=
         match l with
         | [] => false
         | x :: r => has_variant x || any r
         end) xs
  | _ => false
  end.

(** The two list traversals of [unwrap], named. *)
Fixpoint unwrap_each (l : list pyval) : option (list pyval) :=
  match l with
  | [] => Some []
  | x :: r =>
      match unwrap x, unwrap_each r with
      | Some x', Some r' => Some (x' :: r')
      | _, _ => None
      end
  end.

Fixpoint unwrap_items (its acc : list (pyval * pyval))
  : option (list (pyval * pyval)) :=
  match its with
  | [] => Some acc
  | (k, x) :: r =>
      match unwrap k, unwrap x with
      | Some k', Some x' =>
          if hashable k' then unwrap_items r (dict_set acc k' x') else None
      | _, _ => None
      end
  end.

(** No key of [d] is equal to a key inserted before it. *)
Fixpoint keys_fresh (d : list (pyval * pyval)) : Prop :=
  match d with
  | [] => True
  | (k0, _) :: r => Forall (λ kv, key_eqb k0 kv.1 = false) r ∧ keys_fresh r
  end.

(** What [unwrap] returns: atoms, lists and dictionaries only, the keys of
    a dictionary hashable and pairwise different. *)
Inductive normal : pyval → Prop :=
| normal_none : normal PNone
| normal_bool b : normal (PBool b)
| normal_int z : normal (PInt z)
| normal_str s : normal (PStr s)
| normal_obj n : normal (PObj n)
| normal_list xs : Forall normal xs → normal (PList xs)
| normal_dict d :
    Forall (λ kv, normal kv.1 ∧ normal kv.2 ∧ hashable kv.1 = true) d →
    keys_fresh d → normal (PDict d).

Lemma unwrap_list xs : unwrap (PList xs) = PList <$> unwrap_each xs.
Proof. reflexivity. Qed.

Lemma unwrap_tuple xs : unwrap (PTuple xs) = PList <$> unwrap_each xs.
Proof. reflexivity. Qed.

Lemma unwrap_dict items : unwrap (PDict items) = PDict <$> unwrap_items items [].
Proof. reflexivity. Qed.

(** ** Dictionary insertion keeps keys fresh *)

Lemma dict_set_fresh d k v :
  Forall (λ kv, key_eqb kv.1 k = false) d → dict_set d k v = d ++ [(k, v)].
Proof.
  induction 1 as [|[k0 v0] r Hk _ IH]; simpl in *; [done|].
  by rewrite Hk, IH.
Qed.

Lemma dict_set_Forall (E : pyval * pyval → Prop) d k v :
  Forall E d → E (k, v) → (∀ k0 v0, E (k0, v0) → E (k0, v)) →
  Forall E (dict_set d k v).
Proof.
  intros Hd Hkv Hrepl.
  induction Hd as [|[k0 v0] r H0 Hr IH]; simpl.
  - by constructor.
  - destruct (key_eqb k0 k); constructor; eauto.
Qed.

Lemma dict_set_keys_fresh d k v : keys_fresh d → keys_fresh (dict_set d k v).
Proof.
  induction d as [|[k0 v0] r IH]; simpl; [done|].
  intros [Hhd Hr]. destruct (key_eqb k0 k) eqn:Hk; simpl; [done|].
  split; [|by apply IH].
  apply dict_set_Forall; [done|done|done].
Qed.

Lemma keys_fresh_app_inv acc k v r :
  keys_fresh (acc ++ (k, v) :: r) → Forall (λ kv, key_eqb kv.1 k = false) acc.
Proof.
  induction acc as [|[k0 v0] acc IH]; simpl; [done|].
  intros [Hhd Hr]. constructor; [|by apply IH].
  apply Forall_app in Hhd as [_ Hhd]. by inversion Hhd.
Qed.

(** ** [unwrap] returns a normal value, and fixes normal values *)

Definition entry_ok (kv : pyval * pyval) : Prop :=
  normal kv.1 ∧ normal kv.2 ∧ hashable kv.1 = true.

Lemma unwrap_each_normal xs ys :
  Forall (λ x, ∀ u, unwrap x = Some u → normal u) xs →
  unwrap_each xs = Some ys → Forall normal ys.
Proof.
  intros Hxs. revert ys.
  induction Hxs as [|x r Hx _ IH]; simpl; intros ys Hys.
  - by inversion Hys.
  - destruct (unwrap x) as [x'|] eqn:Ex; [|done].
    destruct (unwrap_each r) as [r'|]; [|done].
    inversion Hys; subst. constructor; eauto.
Qed.

Lemma unwrap_items_normal its acc d :
  Forall (λ kv, (∀ u, unwrap kv.1 = Some u → normal u) ∧
                (∀ u, unwrap kv.2 = Some u → normal u)) its →
  Forall entry_ok acc → keys_fresh acc →
  unwrap_items its acc = Some d → Forall entry_ok d ∧ keys_fresh d.
Proof.
  intros Hits. revert acc.
  induction Hits as [|[k x] r [Hk Hx] _ IH]; simpl in *; intros acc Hacc Hfr Hd.
  - by inversion Hd; subst.
  - destruct (unwrap k) as [k'|] eqn:Ek; [|done].
    destruct (unwrap x) as [x'|] eqn:Ex; [|done].
    destruct (hashable k') eqn:Hh; [|done].
    apply IH in Hd; [done| |by apply dict_set_keys_fresh].
    apply dict_set_Forall; [done| |].
    + repeat split; simpl; eauto.
    + intros k0 v0 (? & ? & ?). repeat split; simpl in *; eauto.
Qed.

Lemma unwrap_normal v : ∀ u, unwrap v = Some u → normal u.
Proof.
  induction v as [| | | | |sg v IH|items IH|xs IH|xs IH] using pyval_nested_ind;
    intros u Hu; try (inversion Hu; subst; constructor; fail).
  - simpl in Hu. eauto.
  - rewrite unwrap_dict in Hu.
    destruct (unwrap_items items []) as [d|] eqn:Ed; [|done].
    inversion Hu; subst.
    apply unwrap_items_normal in Ed as [? ?]; [by constructor|done|done|done].
  - rewrite unwrap_list in Hu.
    destruct (unwrap_each xs) as [ys|] eqn:Ey; [|done].
    inversion Hu; subst. constructor. by eapply unwrap_each_normal.
  - rewrite unwrap_tuple in Hu.
    destruct (unwrap_each xs) as [ys|] eqn:Ey; [|done].
    inversion Hu; subst. constructor. by eapply unwrap_each_normal.
Qed.

Lemma unwrap_each_id xs :
  Forall (λ x, normal x → unwrap x = Some x) xs → Forall normal xs →
  unwrap_each xs = Some xs.
Proof.
  induction 1 as [|x r Hx _ IH]; simpl; intros Hn; [done|].
  inversion Hn; subst. by rewrite Hx, IH.
Qed.

Lemma unwrap_items_id l : ∀ acc,
  Forall (λ kv, (normal kv.1 → unwrap kv.1 = Some kv.1) ∧
                (normal kv.2 → unwrap kv.2 = Some kv.2)) l →
  Forall entry_ok l → keys_fresh (acc ++ l) →
  unwrap_items l acc = Some (acc ++ l).
Proof.
  induction l as [|[k x] r IH]; simpl; intros acc Hid Hok Hfr.
  - by rewrite app_nil_r.
  - inversion Hid as [|? ? [Hk Hx] Hid']; subst.
    inversion Hok as [|? ? (Nk & Nx & Hh) Hok']; subst. simpl in *.
    rewrite Hk, Hx, Hh by done.
    rewrite dict_set_fresh by (by eapply keys_fresh_app_inv).
    rewrite IH; [by rewrite <- app_assoc|done|done|by rewrite <- app_assoc].
Qed.

Lemma normal_unwrap u : normal u → unwrap u = Some u.
Proof.
  induction u as [| | | | |sg v IH|items IH|xs IH|xs IH] using pyval_nested_ind;
    intros Hn; try done; try (by inversion Hn).
  - inversion Hn; subst. rewrite unwrap_dict.
    by rewrite (unwrap_items_id items []).
  - inversion Hn; subst. rewrite unwrap_list. by rewrite unwrap_each_id.
Qed.

Lemma normal_no_variant u : normal u → has_variant u = false.
Proof.
  induction u as [| | | | |sg v IH|items IH|xs IH|xs IH] using pyval_nested_ind;
    intros Hn; try done; try (by inversion Hn).
  - inversion Hn as [| | | | | |d Hok _]; subst. clear Hn. simpl.
    induction IH as [|[k x] r [Hk Hx] _ IHr]; [done|].
    inversion Hok as [|? ? (Nk & Nx & _) Hok']; subst. simpl in *.
    rewrite Hk, Hx by done. simpl. by apply IHr.
  - inversion Hn as [| | | | |ys Hys|]; subst. clear Hn. simpl.
    induction IH as [|x r Hx _ IHr]; [done|].
    inversion Hys; subst. rewrite Hx by done. simpl. by apply IHr.
Qed.

(** ** The comprehensions, declaratively *)

(** One entry of the dictionary comprehension: key and value unwrapped, the
    new key hashed. *)
Definition unwrap_entry (kv : pyval * pyval) : option (pyval * pyval) :=
  k' ← unwrap kv.1; x' ← unwrap kv.2;
  if hashable k' then Some (k', x') else None.

Definition dict_of (acc l : list (pyval * pyval)) : list (pyval * pyval) :=
  foldl (λ d kv, dict_set d kv.1 kv.2) acc l.

Lemma unwrap_each_mapM xs : unwrap_each xs = mapM unwrap xs.
Proof.
  induction xs as [|x r IH]; simpl; [done|]. rewrite IH.
  destruct (unwrap x); simpl; [|done]. by destruct (mapM unwrap r).
Qed.

Lemma unwrap_entry_eq k x :
  unwrap_entry (k, x) =
  match unwrap k, unwrap x with
  | Some k', Some x' => if hashable k' then Some (k', x') else None
  | _, _ => None
  end.
Proof.
  unfold unwrap_entry. simpl.
  destruct (unwrap k); simpl; [|done]. by destruct (unwrap x).
Qed.

Lemma unwrap_items_mapM its : ∀ acc,
  unwrap_items its acc = dict_of acc <$> mapM unwrap_entry its.
Proof.
  induction its as [|[k x] r IH]; intros acc; [done|].
  change (mapM unwrap_entry ((k, x) :: r))
    with (unwrap_entry (k, x) ≫= λ y, mapM unwrap_entry r ≫= λ l, mret (y :: l)).
  rewrite unwrap_entry_eq. simpl.
  destruct (unwrap k) as [k'|]; simpl; [|done].
  destruct (unwrap x) as [x'|]; simpl; [|done].
  destruct (hashable k'); simpl; [|done].
  rewrite IH. by destruct (mapM unwrap_entry r).
Qed.

(** ** Values as D-Bus delivers them: every dictionary key is a basic value *)

Definition atom (v : pyval) : bool :=
  match v with
  | PNone | PBool _ | PInt _ | PStr _ | PObj _ => true
  | _ => false
  end.

Fixpoint basic_keys (v : pyval) : bool :=
  match v with
  | PVariant _ x => basic_keys x
  | PDict items =>
      (fix all (l : list (pyval * pyval)) : bool :=
         match l with
         | [] => true
         | (k, x) :: r => atom k && basic_keys x && all r
         end) items
  | PList xs | PTuple xs =>
      (fix all (l : list pyval) : bool :=
         match l with
         | [] => true
         | x :: r => basic_keys x && all r
         end) xs
  | _ => true
  end.

Lemma unwrap_atom k : atom k = true → unwrap k = Some k ∧ hashable k = true.
Proof. by destruct k. Qed.

Lemma unwrap_total v : basic_keys v = true → is_Some (unwrap v).
Proof.
  induction v as [| | | | |sg v IH|items IH|xs IH|xs IH] using pyval_nested_ind;
    intros Hb; try (by eexists).
  - simpl. auto.
  - rewrite unwrap_dict. simpl in Hb.
    cut (∀ acc, is_Some (unwrap_items items acc)).
    { intros H. destruct (H []) as [d ->]. by eexists. }
    induction IH as [|[k x] r [_ Hx] _ IHr]; intros acc; simpl; [by eexists|].
    simpl in Hx.
    apply andb_prop in Hb as [Hb Hr]. apply andb_prop in Hb as [Hk Hbx].
    destruct (unwrap_atom k Hk) as [-> ->].
    destruct (Hx Hbx) as [x' ->]. by apply IHr.
  - rewrite unwrap_list. simpl in Hb.
    cut (is_Some (unwrap_each xs)).
    { intros [ys ->]. by eexists. }
    induction IH as [|x r Hx _ IHr]; simpl; [by eexists|].
    apply andb_prop in Hb as [Hbx Hr].
    destruct (Hx Hbx) as [x' ->]. destruct (IHr Hr) as [r' ->]. by eexists.
  - rewrite unwrap_tuple. simpl in Hb.
    cut (is_Some (unwrap_each xs)).
    { intros [ys ->]. by eexists. }
    induction IH as [|x r Hx _ IHr]; simpl; [by eexists|].
    apply andb_prop in Hb as [Hbx Hr].
    destruct (Hx Hbx) as [x' ->]. destruct (IHr Hr) as [r' ->]. by eexists.
Qed.

(** ** Runs of [unwrap] *)

Example unwrap_portal_results :
  unwrap (PDict [(PStr "streams",
                  PVariant "a(ua{sv})"
                    (PList [PTuple [PInt 42;
                                    PDict [(PStr "size",
                                            PVariant "(ii)"
                                              (PTuple [PInt 1920; PInt 1080]))]]]))])
  = Some (PDict [(PStr "streams",
                  PList [PList [PInt 42;
                                PDict [(PStr "size",
                                        PList [PInt 1920; PInt 1080])]]])]).
Proof. reflexivity. Qed.

(** C10, as stated, at a dictionary with a tuple as key. The tuple can be
    hashed, so the dictionary is a value of Python; [unwrap] turns the key
    into a list, which cannot be hashed, and the dictionary comprehension
    raises [TypeError]: [unwrap] has no result there, and neither has
    [unwrap(unwrap(v))]. *)
Lemma unwrap_tuple_key_raises :
  hashable (PTuple [PInt 1; PInt 2]) = true ∧
  unwrap (PTuple [PInt 1; PInt 2]) = Some (PList [PInt 1; PInt 2]) ∧
  hashable (PList [PInt 1; PInt 2]) = false ∧
  unwrap (PDict [(PTuple [PInt 1; PInt 2], PInt 3)]) = None.
Proof. repeat split; reflexivity. Qed.

Lemma unwrap_entry_Some kv e :
  unwrap_entry kv = Some e →
  unwrap kv.1 = Some e.1 ∧ unwrap kv.2 = Some e.2 ∧ hashable e.1 = true.
Proof.
  destruct kv as [k x]. rewrite unwrap_entry_eq. cbn [fst snd].
  destruct (unwrap k) as [k'|]; [|done]. destruct (unwrap x) as [x'|]; [|done].
  destruct (hashable k') eqn:Hh; [|done]. by intros [= <-].
Qed.

(** C10, amended: on the values whose dictionaries, at any depth, have
    basic values as keys. There [unwrap] returns; unwrapping its result
    again returns the same value, so [unwrap(unwrap(v))] equals
    [unwrap(v)]; the result holds no [Variant] at any depth, in keys or
    values. A basic value is returned as it is; a [Variant] gives what its
    value unwraps to; a dictionary is rebuilt, in order, from its unwrapped
    keys and unwrapped values; and a list and a tuple both give the list of
    their unwrapped elements. *)
Theorem unwrap_idempotent_on_basic_keys (v : pyval) :
  basic_keys v = true →
  ∃ u,
    unwrap v = Some u ∧
    unwrap v ≫= unwrap = unwrap v ∧
    unwrap u = Some u ∧
    has_variant u = false ∧
    (atom v = true → u = v) ∧
    (∀ sg x, v = PVariant sg x → unwrap x = Some u) ∧
    (∀ items, v = PDict items →
       ∃ entries,
         Forall2 (λ kv e, unwrap kv.1 = Some e.1 ∧ unwrap kv.2 = Some e.2)
                 items entries ∧
         u = PDict (dict_of [] entries)) ∧
    (∀ xs, v = PList xs ∨ v = PTuple xs →
       ∃ ys, Forall2 (λ x y, unwrap x = Some y) xs ys ∧ u = PList ys).
Proof.
  intros Hb. destruct (unwrap_total v Hb) as [u Hu]. exists u.
  pose proof (unwrap_normal v u Hu) as Hn.
  pose proof (normal_unwrap u Hn) as Hfix.
  split; [done|]. split; [by rewrite Hu|]. split; [done|].
  split; [by apply normal_no_variant|].
  split; [|split; [|split]].
  - intros Ha. destruct (unwrap_atom v Ha) as [E _]. congruence.
  - intros sg x ->. exact Hu.
  - intros items ->. rewrite unwrap_dict, unwrap_items_mapM in Hu.
    destruct (mapM unwrap_entry items) as [entries|] eqn:Em; [|done].
    injection Hu as <-. exists entries. split; [|done].
    apply mapM_Some in Em.
    eapply Forall2_impl; [exact Em|].
    intros kv e He. by destruct (unwrap_entry_Some kv e He) as (? & ? & _).
  - intros xs Hv.
    assert (Hx : PList <$> unwrap_each xs = Some u).
    { destruct Hv as [-> | ->]; [by rewrite <- unwrap_list|by rewrite <- unwrap_tuple]. }
    rewrite unwrap_each_mapM in Hx.
    destruct (mapM unwrap xs) as [ys|] eqn:Em; [|done].
    injection Hx as <-. exists ys. split; [|done]. by apply mapM_Some.
Qed.

Lemma unwrap_idempotent_on_basic_keys_witness :
  basic_keys (PDict [(PStr "streams",
                      PVariant "a(ua{sv})" (PList [PTuple [PInt 42; PDict []]]))])
  = true ∧
  ∃ u, unwrap (PDict [(PStr "streams",
                       PVariant "a(ua{sv})" (PList [PTuple [PInt 42; PDict []]]))])
       = Some u ∧ unwrap u = Some u ∧ has_variant u = false.
Proof.
  split; [reflexivity|].
  destruct (unwrap_idempotent_on_basic_keys
              (PDict [(PStr "streams",
                       PVariant "a(ua{sv})" (PList [PTuple [PInt 42; PDict []]]))])
              eq_refl) as (u & Hu & _ & Hfix & Hv & _).
  exists u. split; [exact Hu|]. split; [exact Hfix|exact Hv].
Defined.

(** X1. On the values D-Bus delivers (every dictionary key a basic
    value), [unwrap] does not raise, and what it returns holds no [Variant]
    and is a fixed point of [unwrap]. *)
Lemma unwrap_returns_fixed_point (v : pyval) :
  basic_keys v = true →
  ∃ u, unwrap v = Some u ∧ unwrap u = Some u ∧ has_variant u = false.
Proof.
  intros Hb. destruct (unwrap_total v Hb) as [u Hu]. exists u.
  pose proof (unwrap_normal v u Hu) as Hn.
  split; [done|]. split; [by apply normal_unwrap | by apply normal_no_variant].
Qed.

(** ** Further properties of [unwrap] *)

Lemma keys_fresh_same_keys (l l' : list (pyval * pyval)) :
  l.*1 = l'.*1 → keys_fresh l → keys_fresh l'.
Proof.
  revert l'. induction l as [|[k v] l IH]; intros [|[k' v'] l'] Hk; try done.
  simpl in Hk. inversion Hk; subst. simpl. intros [Hhd Htl].
  split; [|by apply IH].
  clear -Hhd H1. revert l' H1.
  induction Hhd as [|[k0 v0] l Hk0 _ IH]; intros [|[k1 v1] l'] Hl; try done.
  simpl in Hl. inversion Hl; subst. constructor; [done|by apply IH].
Qed.

Lemma unwrap_items_atom_keys items : ∀ acc,
  Forall (λ kv, atom kv.1 = true) items → keys_fresh (acc ++ items) →
  unwrap_items items acc = (λ vs, acc ++ zip (items.*1) vs) <$> mapM unwrap (items.*2).
Proof.
  induction items as [|[k x] r IH]; intros acc Hat Hfr.
  - simpl. by rewrite app_nil_r.
  - inversion Hat as [|? ? Hk Hr]; subst. simpl in Hk.
    destruct (unwrap_atom k Hk) as [Ek Eh].
    change (mapM unwrap (((k, x) :: r).*2))
      with (unwrap x ≫= λ y, mapM unwrap (r.*2) ≫= λ l, mret (y :: l)).
    simpl unwrap_items. rewrite Ek.
    destruct (unwrap x) as [x'|]; simpl; [|done].
    rewrite Eh, dict_set_fresh by (by eapply keys_fresh_app_inv).
    rewrite IH; [|done|].
    + destruct (mapM unwrap r.*2); simpl; [|done]. by rewrite <- app_assoc.
    + rewrite <- app_assoc. simpl.
      eapply keys_fresh_same_keys; [|exact Hfr].
      by rewrite !fmap_app.
Qed.

(** X2. An [a{sv}]-style dictionary, its keys basic values no two of which
    are equal, keeps its keys in their order; each value is unwrapped in
    place, and nothing is dropped or merged. It raises exactly when a value
    does. *)
Theorem unwrap_keeps_basic_keys (items : list (pyval * pyval)) :
  Forall (λ kv, atom kv.1 = true) items → keys_fresh items →
  unwrap (PDict items) = (λ vs, PDict (zip (items.*1) vs)) <$> mapM unwrap (items.*2).
Proof.
  intros Hat Hfr. rewrite unwrap_dict, (unwrap_items_atom_keys items []) by done.
  by destruct (mapM unwrap items.*2).
Qed.

Lemma unwrap_keeps_basic_keys_witness :
  unwrap (PDict [(PStr "types", PVariant "u" (PInt 1));
                 (PStr "multiple", PVariant "b" (PBool false))])
  = Some (PDict [(PStr "types", PInt 1); (PStr "multiple", PBool false)]).
Proof.
  rewrite unwrap_keeps_basic_keys; [reflexivity|by repeat constructor|].
  simpl. by repeat constructor.
Defined.

Lemma unwrap_returns_fixed_point_witness :
  basic_keys (PDict [(PStr "size", PVariant "(ii)" (PTuple [PInt 1920; PInt 1080]))])
  = true ∧
  ∃ u, unwrap (PDict [(PStr "size", PVariant "(ii)" (PTuple [PInt 1920; PInt 1080]))])
       = Some u ∧ unwrap u = Some u ∧ has_variant u = false.
Proof.
  split; [reflexivity|].
  apply (unwrap_returns_fixed_point
           (PDict [(PStr "size", PVariant "(ii)" (PTuple [PInt 1920; PInt 1080]))])).
  reflexivity.
Defined.

End Py.

(* ====================================================================== *)
(** * The ingest URL *)
(* ====================================================================== *)

Module Url.

(** [s.rstrip(c)] for a one-character set: every trailing [c] is dropped. *)
Fixpoint rstrip (c : ascii) (s : string) : string :=
  match s with
  | EmptyString => EmptyString
  | String a r =>
      match rstrip c r with
      | EmptyString => if Ascii.eqb a c then EmptyString else String a EmptyString
      | r' => String a r'
      end
  end.

(** [s.startswith(p)] *)
Definition startswith (s p : string) : bool := String.prefix p s.

(** [s[n:]] *)
Fixpoint slice_from (n : nat) (s : string) : string :=
  match n, s with
  | O, _ => s
  | S _, EmptyString => EmptyString
  | S m, String _ r => slice_from m r
  end.

(** [f"{ws_base}/ingest?room={room}&player={player}"] *)
Definition ingest (ws_base room player : string) : string :=
  ws_base +:+ "/ingest?room=" +:+ room +:+ "&player=" +:+ player.

Module Linux.
Definition build_ws_url (api_base room player : string) : string :=
  let api_base := rstrip "/" api_base in
  let ws_base :=
    if startswith api_base "https://" then
      "wss://" +:+ slice_from (String.length "https://") api_base
    else if startswith api_base "http://" then
      "ws://" +:+ slice_from (String.length "http://") api_base
    else if startswith api_base "ws://" || startswith api_base "wss://" then
      api_base
    else
      "ws://" +:+ api_base in
  ingest ws_base room player.
End Linux.

Module Windows.
Definition build_ws_url (api_base room player : string) : string :=
  let api_base := rstrip "/" api_base in
  let ws_base :=
    if startswith api_base "https://" then
      "wss://" +:+ slice_from (String.length "https://") api_base
    else if startswith api_base "http://" then
      "ws://" +:+ slice_from (String.length "http://") api_base
    else if startswith api_base "ws://" || startswith api_base "wss://" then
      api_base
    else
      "ws://" +:+ api_base in
  ingest ws_base room player.
End Windows.

Module Mac.
Definition build_ws_url (api_base room player : string) : string :=
  let api_base := rstrip "/" api_base in
  let ws_base :=
    if startswith api_base "https://" then
      "wss://" +:+ slice_from (String.length "https://") api_base
    else if startswith api_base "http://" then
      "ws://" +:+ slice_from (String.length "http://") api_base
    else if startswith api_base "ws://" || startswith api_base "wss://" then
      api_base
    else
      "ws://" +:+ api_base in
  ingest ws_base room player.
End Mac.

(** ** String facts *)

Lemma startswith_split s p :
  startswith s p = true → s = p +:+ slice_from (String.length p) s.
Proof.
  unfold startswith. revert s.
  induction p as [|a p IH]; intros s H; [done|].
  destruct s as [|b s]; simpl in *; [done|].
  destruct (ascii_dec a b) as [->|]; [|done].
  change (String b s = String b (p +:+ slice_from (String.length p) s)).
  f_equal. by apply IH.
Qed.

Lemma startswith_app p r : startswith (p +:+ r) p = true.
Proof.
  unfold startswith. induction p as [|a p IH].
  - by destruct r.
  - change (String.prefix (String a p) (String a (p +:+ r)) = true).
    simpl. destruct (ascii_dec a a); [done|congruence].
Qed.

Lemma rstrip_app c p r :
  rstrip c r ≠ "" → rstrip c (p +:+ r) = p +:+ rstrip c r.
Proof.
  intros Hr. induction p as [|a p IH]; [reflexivity|].
  change (rstrip c (String a (p +:+ r)) = String a (p +:+ rstrip c r)).
  simpl. rewrite IH. destruct (p +:+ rstrip c r) eqn:E; [|done].
  destruct p; [destruct (Hr E)|discriminate E].
Qed.

Lemma rstrip_idem c s : rstrip c (rstrip c s) = rstrip c s.
Proof.
  induction s as [|a s IH]; simpl; [done|].
  destruct (rstrip c s) as [|b r] eqn:E.
  - destruct (Ascii.eqb a c) eqn:Ea; simpl; [done|]. by rewrite Ea.
  - remember (String b r) as t eqn:Et. simpl. rewrite IH. by subst t.
Qed.

(** The four schemes exclude one another where the script tests them. *)
Lemma http_not_https base :
  startswith base "http://" = true → startswith base "https://" = false.
Proof. intros H. apply startswith_split in H. rewrite H. reflexivity. Qed.

Lemma ws_not_http base :
  startswith base "ws://" = true ∨ startswith base "wss://" = true →
  startswith base "https://" = false ∧ startswith base "http://" = false.
Proof.
  intros [H|H]; apply startswith_split in H; rewrite H; split; reflexivity.
Qed.

(** ** The three scripts agree *)

Lemma build_ws_url_windows api_base room player :
  Windows.build_ws_url api_base room player = Linux.build_ws_url api_base room player.
Proof. reflexivity. Qed.

Lemma build_ws_url_mac api_base room player :
  Mac.build_ws_url api_base room player = Linux.build_ws_url api_base room player.
Proof. reflexivity. Qed.

(** ** Runs *)

Example build_ws_url_https :
  Linux.build_ws_url "https://www.vpinleaders.com/" "ROOM" "p1"
  = "wss://www.vpinleaders.com/ingest?room=ROOM&player=p1".
Proof. reflexivity. Qed.

Example build_ws_url_http_port :
  Windows.build_ws_url "http://host:8000" "ROOM" "p2"
  = "ws://host:8000/ingest?room=ROOM&player=p2".
Proof. reflexivity. Qed.

Example build_ws_url_wss :
  Mac.build_ws_url "wss://host//" "ROOM" "p2" = "wss://host/ingest?room=ROOM&player=p2".
Proof. reflexivity. Qed.

Example build_ws_url_no_scheme :
  Linux.build_ws_url "localhost:8000" "ROOM" "p1"
  = "ws://localhost:8000/ingest?room=ROOM&player=p1".
Proof. reflexivity. Qed.

(** A base made of a scheme alone names no host. Stripping its trailing
    slashes leaves [https:], which starts with none of the four schemes, so
    [ws://] is put in front of it. *)
Example build_ws_url_bare_scheme :
  Linux.build_ws_url "https://" "ROOM" "p1" = "ws://https:/ingest?room=ROOM&player=p1" ∧
  Linux.build_ws_url "ws://" "ROOM" "p1" = "ws://ws:/ingest?room=ROOM&player=p1".
Proof. split; reflexivity. Qed.

(** The endpoint by the base as it is after its trailing slashes are
    stripped, in the three scripts alike. *)
Lemma build_ws_url_stripped (api_base room player : string) :
  let base := rstrip "/" api_base in
  let url := Linux.build_ws_url api_base room player in
  Windows.build_ws_url api_base room player = url ∧
  Mac.build_ws_url api_base room player = url ∧
  (∃ scheme host, (scheme = "ws" ∨ scheme = "wss") ∧
     url = ingest (scheme +:+ "://" +:+ host) room player) ∧
  (startswith base "https://" = true →
     url = ingest ("wss://" +:+ slice_from 8 base) room player) ∧
  (startswith base "http://" = true →
     url = ingest ("ws://" +:+ slice_from 7 base) room player) ∧
  (startswith base "ws://" = true ∨ startswith base "wss://" = true →
     url = ingest base room player).
Proof.
  intros base url. subst url. unfold Linux.build_ws_url. fold base.
  split; [reflexivity|]. split; [reflexivity|].
  split; [|split; [|split]].
  - destruct (startswith base "https://") eqn:E1; [by exists "wss", (slice_from 8 base); auto|].
    destruct (startswith base "http://") eqn:E2; [by exists "ws", (slice_from 7 base); auto|].
    destruct (startswith base "ws://") eqn:E3.
    { apply startswith_split in E3. exists "ws", (slice_from 5 base).
      split; [auto|]. simpl. by rewrite E3 at 1. }
    destruct (startswith base "wss://") eqn:E4.
    { apply startswith_split in E4. exists "wss", (slice_from 6 base).
      split; [auto|]. simpl. by rewrite E4 at 1. }
    exists "ws", base. simpl. auto.
  - by intros ->.
  - intros H. by rewrite (http_not_https _ H), H.
  - intros H. destruct (ws_not_http _ H) as [-> ->].
    by destruct H as [-> | ->]; [|rewrite orb_true_r].
Qed.

(** With anything but slashes after the scheme, stripping cannot reach
    the scheme. *)
Lemma build_ws_url_https_host rest room player :
  rstrip "/" rest ≠ "" →
  Linux.build_ws_url ("https://" +:+ rest) room player
  = ingest ("wss://" +:+ rstrip "/" rest) room player.
Proof.
  intros Hr. unfold Linux.build_ws_url.
  rewrite rstrip_app by done. by rewrite startswith_app.
Qed.

(** ** Further properties of [build_ws_url] *)

Lemma rstrip_snoc c s : rstrip c (s +:+ String c EmptyString) = rstrip c s.
Proof.
  induction s as [|a s IH].
  - simpl. by rewrite Ascii.eqb_refl.
  - change (rstrip c (String a (s +:+ String c EmptyString)) = rstrip c (String a s)).
    simpl. by rewrite IH.
Qed.

(** X3. A slash at the end of the base does not change the endpoint, in
    any of the three scripts. *)
Theorem build_ws_url_trailing_slash (api_base room player : string) :
  Linux.build_ws_url (api_base +:+ "/") room player
  = Linux.build_ws_url api_base room player ∧
  Windows.build_ws_url (api_base +:+ "/") room player
  = Windows.build_ws_url api_base room player ∧
  Mac.build_ws_url (api_base +:+ "/") room player
  = Mac.build_ws_url api_base room player.
Proof.
  unfold Linux.build_ws_url, Windows.build_ws_url, Mac.build_ws_url.
  by rewrite rstrip_snoc.
Qed.

Lemma build_ws_url_wss_host rest room player :
  rstrip "/" rest ≠ "" →
  Linux.build_ws_url ("wss://" +:+ rest) room player
  = ingest ("wss://" +:+ rstrip "/" rest) room player.
Proof.
  intros Hr. unfold Linux.build_ws_url. rewrite rstrip_app by done.
  change (startswith ("wss://" +:+ rstrip "/" rest) "https://") with false.
  change (startswith ("wss://" +:+ rstrip "/" rest) "http://") with false.
  change (startswith ("wss://" +:+ rstrip "/" rest) "ws://") with false.
  by rewrite startswith_app.
Qed.

Lemma build_ws_url_http_host rest room player :
  rstrip "/" rest ≠ "" →
  Linux.build_ws_url ("http://" +:+ rest) room player
  = ingest ("ws://" +:+ rstrip "/" rest) room player.
Proof.
  intros Hr. unfold Linux.build_ws_url. rewrite rstrip_app by done.
  change (startswith ("http://" +:+ rstrip "/" rest) "https://") with false.
  by rewrite startswith_app.
Qed.

Lemma build_ws_url_ws_host rest room player :
  rstrip "/" rest ≠ "" →
  Linux.build_ws_url ("ws://" +:+ rest) room player
  = ingest ("ws://" +:+ rstrip "/" rest) room player.
Proof.
  intros Hr. unfold Linux.build_ws_url. rewrite rstrip_app by done.
  change (startswith ("ws://" +:+ rstrip "/" rest) "https://") with false.
  change (startswith ("ws://" +:+ rstrip "/" rest) "http://") with false.
  by rewrite startswith_app.
Qed.

(** X4. For a host (anything that is more than slashes), the [https] and
    [wss] spellings of a base give the same endpoint, and so do the [http]
    and [ws] spellings; a host given with none of the four schemes gives
    the [ws] endpoint. *)
Theorem build_ws_url_same_endpoint (host room player : string) :
  rstrip "/" host ≠ "" →
  Linux.build_ws_url ("https://" +:+ host) room player
  = Linux.build_ws_url ("wss://" +:+ host) room player ∧
  Linux.build_ws_url ("http://" +:+ host) room player
  = Linux.build_ws_url ("ws://" +:+ host) room player ∧
  (startswith (rstrip "/" host) "https://" = false →
   startswith (rstrip "/" host) "http://" = false →
   startswith (rstrip "/" host) "ws://" = false →
   startswith (rstrip "/" host) "wss://" = false →
   Linux.build_ws_url host room player
   = Linux.build_ws_url ("ws://" +:+ host) room player).
Proof.
  intros Hr. split; [|split].
  - by rewrite build_ws_url_https_host, build_ws_url_wss_host.
  - by rewrite build_ws_url_http_host, build_ws_url_ws_host.
  - intros H1 H2 H3 H4. rewrite build_ws_url_ws_host by done.
    unfold Linux.build_ws_url. by rewrite H1, H2, H3, H4.
Qed.

Lemma build_ws_url_same_endpoint_witness :
  rstrip "/" "host:8000/" ≠ "" ∧
  Linux.build_ws_url "https://host:8000/" "ROOM" "p1"
  = Linux.build_ws_url "wss://host:8000/" "ROOM" "p1".
Proof.
  assert (H : rstrip "/" "host:8000/" ≠ "") by discriminate.
  split; [exact H|].
  exact (proj1 (build_ws_url_same_endpoint "host:8000/" "ROOM" "p1" H)).
Defined.

(** C9. For every base that names a host (after its scheme comes more than
    slashes), in the three scripts alike: a base starting with [https://]
    has that prefix replaced by [wss://], one starting with [http://] has
    it replaced by [ws://], and one starting with [ws://] or [wss://] is
    used as it is once its trailing slashes are stripped; and whatever the
    base, the endpoint has the form
    [{ws|wss}://{host}/ingest?room={room}&player={player}], the same in
    the Windows and macOS scripts as in the Linux one. *)
Theorem build_ws_url_scheme (host room player : string) :
  rstrip "/" host ≠ "" →
  Linux.build_ws_url ("https://" +:+ host) room player
  = "wss://" +:+ rstrip "/" host +:+ "/ingest?room=" +:+ room +:+ "&player=" +:+ player ∧
  Linux.build_ws_url ("http://" +:+ host) room player
  = "ws://" +:+ rstrip "/" host +:+ "/ingest?room=" +:+ room +:+ "&player=" +:+ player ∧
  Linux.build_ws_url ("ws://" +:+ host) room player
  = rstrip "/" ("ws://" +:+ host) +:+ "/ingest?room=" +:+ room +:+ "&player=" +:+ player ∧
  Linux.build_ws_url ("wss://" +:+ host) room player
  = rstrip "/" ("wss://" +:+ host) +:+ "/ingest?room=" +:+ room +:+ "&player=" +:+ player ∧
  rstrip "/" ("ws://" +:+ host) = "ws://" +:+ rstrip "/" host ∧
  rstrip "/" ("wss://" +:+ host) = "wss://" +:+ rstrip "/" host ∧
  (∀ api_base,
     Windows.build_ws_url api_base room player
     = Linux.build_ws_url api_base room player ∧
     Mac.build_ws_url api_base room player
     = Linux.build_ws_url api_base room player ∧
     ∃ scheme h, (scheme = "ws" ∨ scheme = "wss") ∧
       Linux.build_ws_url api_base room player
       = (scheme +:+ "://" +:+ h) +:+ "/ingest?room=" +:+ room +:+ "&player=" +:+ player).
Proof.
  intros Hr.
  rewrite build_ws_url_https_host, build_ws_url_http_host,
    build_ws_url_ws_host, build_ws_url_wss_host by done.
  rewrite !(rstrip_app "/" _ host) by done.
  do 6 (split; [reflexivity|]).
  intros api_base.
  destruct (build_ws_url_stripped api_base room player) as (HW & HM & Hform & _).
  split; [exact HW|]. split; [exact HM|exact Hform].
Qed.

Lemma build_ws_url_scheme_witness :
  rstrip "/" "www.vpinleaders.com/" ≠ "" ∧
  Linux.build_ws_url "https://www.vpinleaders.com/" "ROOM" "p1"
  = "wss://www.vpinleaders.com/ingest?room=ROOM&player=p1".
Proof.
  assert (H : rstrip "/" "www.vpinleaders.com/" ≠ "") by discriminate.
  split; [exact H|].
  exact (proj1 (build_ws_url_scheme "www.vpinleaders.com/" "ROOM" "p1" H)).
Defined.

End Url.

(* ====================================================================== *)
(** * Binary64 arithmetic *)
(* ====================================================================== *)

(** Python's [float] is IEEE 754 binary64. A finite float is the rational it
    denotes, and an operation is the exact operation followed by [round]:
    to the nearest number with a 53-bit mantissa and an exponent of at least
    -1074, ties to the even mantissa. The exponent is not bounded above:
    numbers from 2 ** 1024 on, where Python raises [OverflowError] or gives
    [inf], are outside what this development evaluates. *)

Module Binary64.
#[local] Open Scope Q_scope.

(** The integer nearest to [x]; halfway between two, the even one. *)
Definition rne (x : Q) : Z :=
  let f := Qfloor x in
  match Qcompare (x - inject_Z f) (1 # 2) with
  | Lt => f
  | Gt => (f + 1)%Z
  | Eq => if Z.even f then f else (f + 1)%Z
  end.

(** [2 ** e] *)
Definition bpow (e : Z) : Q := 2 ^ e.

(** For a positive [x], the [k] with [2 ** k <= x < 2 ** (k + 1)]. *)
Definition ilog2 (x : Q) : Z :=
  let r := Qred x in
  let k := (Z.log2 (Qnum r) - Z.log2 (Z.pos (Qden r)))%Z in
  if Qle_bool (bpow k) r then k else (k - 1)%Z.

(** The exponent of the last place of the float nearest to [x]: 52 below
    the binade of [x], and never below that of the subnormal numbers. *)
Definition fexp (x : Q) : Z := Z.max (ilog2 (Qabs x) - 52) (-1074).

(** [x] rounded to binary64. *)
Definition round (x : Q) : Q :=
  inject_Z (rne (x / bpow (fexp x))) * bpow (fexp x).

(** ** Rounding to the nearest integer, ties to even *)

#[local] Instance rne_comp : Proper (Qeq ==> eq) rne.
Proof.
  intros x y H. unfold rne. rewrite (Qfloor_comp _ _ H).
  assert (E : Qcompare (x - inject_Z (Qfloor y)) (1 # 2)
              = Qcompare (y - inject_Z (Qfloor y)) (1 # 2)).
  { apply Qcompare_comp; [by rewrite H|reflexivity]. }
  by rewrite E.
Qed.

Lemma Z2Q_lt a b : (a < b)%Z → inject_Z a < inject_Z b.
Proof. by rewrite <- Zlt_Qlt. Qed.

Lemma Z2Q_le a b : (a ≤ b)%Z → inject_Z a <= inject_Z b.
Proof. by rewrite <- Zle_Qle. Qed.

Lemma Q2Z_lt a b : inject_Z a < inject_Z b → (a < b)%Z.
Proof. by rewrite <- Zlt_Qlt. Qed.

Lemma Q2Z_le a b : inject_Z a <= inject_Z b → (a ≤ b)%Z.
Proof. by rewrite <- Zle_Qle. Qed.

Lemma rne_Z n : rne (inject_Z n) = n.
Proof.
  unfold rne. rewrite Qfloor_Z.
  destruct (Qcompare_spec (inject_Z n - inject_Z n) (1 # 2)) as [H|H|H]; [lra|done|lra].
Qed.

(** The result is within one half of the argument. *)
Lemma rne_near x : inject_Z (rne x) - (1 # 2) <= x ∧ x <= inject_Z (rne x) + (1 # 2).
Proof.
  pose proof (Qfloor_le x) as Hl. pose proof (Qlt_floor x) as Hu.
  rewrite inject_Z_plus in Hu. change (inject_Z 1) with 1 in Hu. unfold rne.
  destruct (Qcompare_spec (x - inject_Z (Qfloor x)) (1 # 2)) as [H|H|H].
  - destruct (Z.even (Qfloor x)); rewrite ?inject_Z_plus;
      change (inject_Z 1) with 1; split; lra.
  - split; lra.
  - rewrite inject_Z_plus. change (inject_Z 1) with 1. split; lra.
Qed.

Lemma rne_mono x y : x <= y → (rne x ≤ rne y)%Z.
Proof.
  intros Hxy. pose proof (Qfloor_resp_le _ _ Hxy) as Hf.
  pose proof (Qfloor_le x) as Hlx. pose proof (Qlt_floor x) as Hux.
  pose proof (Qfloor_le y) as Hly. pose proof (Qlt_floor y) as Huy.
  rewrite inject_Z_plus in Hux, Huy. change (inject_Z 1) with 1 in Hux, Huy.
  assert (Hrx : (Qfloor x ≤ rne x ≤ Qfloor x + 1)%Z).
  { unfold rne. destruct (Qcompare _ _); [destruct (Z.even _)| |]; lia. }
  assert (Hry : (Qfloor y ≤ rne y ≤ Qfloor y + 1)%Z).
  { unfold rne. destruct (Qcompare _ _); [destruct (Z.even _)| |]; lia. }
  destruct (Z_lt_le_dec (Qfloor x) (Qfloor y)) as [Hlt|Hge]; [lia|].
  assert (E : Qfloor x = Qfloor y) by lia.
  unfold rne. rewrite E.
  destruct (Qcompare_spec (x - inject_Z (Qfloor y)) (1 # 2)) as [H|H|H];
    destruct (Qcompare_spec (y - inject_Z (Qfloor y)) (1 # 2)) as [H'|H'|H'];
    try lia; try (exfalso; lra); destruct (Z.even (Qfloor y)); lia.
Qed.

Lemma rne_below x m : x < inject_Z m + (1 # 2) → (rne x ≤ m)%Z.
Proof.
  intros H. destruct (rne_near x) as [Hl _].
  assert (Hlt : inject_Z (rne x) < inject_Z (m + 1)).
  { rewrite inject_Z_plus. change (inject_Z 1) with 1. lra. }
  apply Q2Z_lt in Hlt. lia.
Qed.

Lemma rne_above x m : inject_Z m - (1 # 2) < x → (m ≤ rne x)%Z.
Proof.
  intros H. destruct (rne_near x) as [_ Hu].
  assert (Hlt : inject_Z (m - 1) < inject_Z (rne x)).
  { unfold Z.sub. rewrite inject_Z_plus, inject_Z_opp. change (inject_Z 1) with 1. lra. }
  apply Q2Z_lt in Hlt. lia.
Qed.

(** ** Powers of two *)

Lemma bpow_pos e : 0 < bpow e.
Proof. apply Qpower_0_lt. reflexivity. Qed.

Lemma bpow_add a b : bpow (a + b) == bpow a * bpow b.
Proof. apply Qpower_plus. discriminate. Qed.

Lemma bpow_opp a : bpow (- a) == / bpow a.
Proof. apply Qpower_opp. Qed.

Lemma bpow_sub a b : bpow (a - b) == bpow a / bpow b.
Proof. unfold Z.sub. by rewrite bpow_add, bpow_opp. Qed.

Lemma bpow_le a b : (a ≤ b)%Z → bpow a <= bpow b.
Proof. intros H. apply Qpower_le_compat_l; [done|discriminate]. Qed.

Lemma bpow_lt a b : (a < b)%Z → bpow a < bpow b.
Proof. intros H. apply Qpower_lt_compat_l; [done|reflexivity]. Qed.

Lemma bpow_lt_inv a b : bpow a < bpow b → (a < b)%Z.
Proof. intros H. eapply Qpower_lt_compat_l_inv; [exact H|reflexivity]. Qed.

Lemma bpow_Z e : (0 ≤ e)%Z → bpow e == inject_Z (2 ^ e).
Proof. intros H. symmetry. by apply Zpower_Qpower. Qed.

Lemma bpow_0 : bpow 0 == 1.
Proof. reflexivity. Qed.

(** ** The binade of a positive number *)

Lemma ilog2_spec x : 0 < x → bpow (ilog2 x) <= x ∧ x < bpow (ilog2 x + 1).
Proof.
  intros Hx. unfold ilog2.
  pose proof (Qred_correct x) as Hr.
  set (r := Qred x) in *. clearbody r.
  assert (Hr0 : 0 < r) by (by rewrite Hr).
  destruct r as [n d]. cbn [Qnum Qden] in *.
  assert (Hn : (0 < n)%Z) by (unfold Qlt in Hr0; simpl in Hr0; lia).
  set (a := Z.log2 n). set (b := Z.log2 (Z.pos d)).
  pose proof (Z.log2_spec n Hn) as [Ha1 Ha2]. fold a in Ha1, Ha2.
  pose proof (Z.log2_spec (Z.pos d) ltac:(lia)) as [Hb1 Hb2]. fold b in Hb1, Hb2.
  pose proof (Z.log2_nonneg n) as Ha0. fold a in Ha0.
  pose proof (Z.log2_nonneg (Z.pos d)) as Hb0. fold b in Hb0.
  assert (Hnd : n # d == inject_Z n / inject_Z (Z.pos d)) by apply Qmake_Qdiv.
  assert (Hd0 : 0 < inject_Z (Z.pos d)) by (apply (Z2Q_lt 0); lia).
  (* the two outer bounds *)
  assert (Hlo : bpow (a - b - 1) <= n # d).
  { rewrite Hnd. apply Qle_shift_div_l; [done|].
    replace (a - b - 1)%Z with (a - (b + 1))%Z by lia.
    rewrite bpow_sub, !bpow_Z by lia.
    assert (H2 : 0 < inject_Z (2 ^ (b + 1))) by (apply (Z2Q_lt 0); lia).
    apply Qle_trans with (inject_Z (2 ^ a) / inject_Z (2 ^ (b + 1)) * inject_Z (2 ^ (b + 1))).
    - apply Qmult_le_l.
      + apply Qlt_shift_div_l; [done|]. rewrite Qmult_0_l. apply (Z2Q_lt 0). lia.
      + apply Z2Q_le. lia.
    - rewrite Qmult_comm, Qmult_div_r by lra. apply Z2Q_le. lia. }
  assert (Hhi : n # d < bpow (a - b + 1)).
  { rewrite Hnd. apply Qlt_shift_div_r; [done|].
    replace (a - b + 1)%Z with (a + 1 - b)%Z by lia.
    rewrite bpow_sub, !bpow_Z by lia.
    assert (H2 : 0 < inject_Z (2 ^ b)) by (apply (Z2Q_lt 0); lia).
    apply Qlt_le_trans with (inject_Z (2 ^ (a + 1)) / inject_Z (2 ^ b) * inject_Z (2 ^ b)).
    - rewrite Qmult_comm, Qmult_div_r by lra. apply Z2Q_lt.
      replace (Z.succ a) with (a + 1)%Z in Ha2 by lia. lia.
    - apply Qmult_le_l.
      + apply Qlt_shift_div_l; [done|]. rewrite Qmult_0_l. apply (Z2Q_lt 0). lia.
      + apply Z2Q_le. lia. }
  destruct (Qle_bool (bpow (a - b)) (n # d)) eqn:Ht.
  - apply Qle_bool_iff in Ht. rewrite <- Hr. split; done.
  - assert (Hlt : n # d < bpow (a - b)).
    { apply Qnot_le_lt. intros H. apply Qle_bool_iff in H. congruence. }
    rewrite <- Hr. replace (a - b - 1 + 1)%Z with (a - b)%Z by lia. split; done.
Qed.

Lemma ilog2_unique x k : bpow k <= x → x < bpow (k + 1) → ilog2 x = k.
Proof.
  intros Hl Hu.
  assert (Hx : 0 < x) by (eapply Qlt_le_trans; [apply (bpow_pos k)|done]).
  destruct (ilog2_spec x Hx) as [Hl' Hu'].
  assert (H1 : (ilog2 x < k + 1)%Z).
  { apply bpow_lt_inv. eapply Qle_lt_trans; [exact Hl'|exact Hu]. }
  assert (H2 : (k < ilog2 x + 1)%Z).
  { apply bpow_lt_inv. eapply Qle_lt_trans; [exact Hl|exact Hu']. }
  lia.
Qed.

#[local] Instance ilog2_comp : Proper (Qeq ==> eq) ilog2.
Proof. intros x y H. unfold ilog2. by rewrite (Qred_complete _ _ H). Qed.

Lemma ilog2_mono x y : 0 < x → x <= y → (ilog2 x ≤ ilog2 y)%Z.
Proof.
  intros Hx Hxy.
  assert (Hy : 0 < y) by (eapply Qlt_le_trans; done).
  destruct (ilog2_spec x Hx) as [Hl _]. destruct (ilog2_spec y Hy) as [_ Hu].
  assert (H : (ilog2 x < ilog2 y + 1)%Z).
  { apply bpow_lt_inv. eapply Qle_lt_trans; [exact Hl|]. eapply Qle_lt_trans; done. }
  lia.
Qed.

#[local] Instance fexp_comp : Proper (Qeq ==> eq) fexp.
Proof. intros x y H. unfold fexp. by rewrite (ilog2_comp _ _ (Qabs_wd _ _ H)). Qed.

#[local] Instance round_comp : Proper (Qeq ==> Qeq) round.
Proof.
  intros x y H. unfold round. rewrite (fexp_comp _ _ H).
  assert (E : x / bpow (fexp y) == y / bpow (fexp y)) by (by rewrite H).
  by rewrite (rne_comp _ _ E).
Qed.


(** ** Rounding *)

Lemma round_0 : round 0 == 0.
Proof. vm_compute. reflexivity. Qed.

Lemma round_nonneg x : 0 <= x → 0 <= round x.
Proof.
  intros Hx. unfold round. apply Qmult_le_0_compat; [|apply Qlt_le_weak, bpow_pos].
  apply (Z2Q_le 0). apply Z.le_trans with (rne (inject_Z 0)); [by rewrite rne_Z|].
  apply rne_mono.
  apply Qle_shift_div_l; [apply bpow_pos|]. by rewrite Qmult_0_l.
Qed.

Lemma round_nonpos x : x <= 0 → round x <= 0.
Proof.
  intros Hx. unfold round.
  assert (H : (rne (x / bpow (fexp x)) ≤ 0)%Z).
  { apply Z.le_trans with (rne (inject_Z 0)); [|by rewrite rne_Z].
    apply rne_mono.
    apply Qle_shift_div_r; [apply bpow_pos|]. by rewrite Qmult_0_l. }
  apply Z2Q_le in H. pose proof (bpow_pos (fexp x)).
  apply Qle_trans with (inject_Z 0 * bpow (fexp x)).
  - apply Qmult_le_compat_r; [done|lra].
  - rewrite Qmult_0_l. apply Qle_refl.
Qed.

(** Scaling by a power of two, and back. *)
Lemma div_bpow x e f : x * bpow e / bpow f == x * bpow (e - f).
Proof. rewrite bpow_sub. pose proof (bpow_pos f). field. lra. Qed.

Lemma mul_div_bpow x f : x / bpow f * bpow f == x.
Proof. pose proof (bpow_pos f). field. lra. Qed.

(** An integer of less than 54 bits times a power of two, from the
    smallest exponent on, is a binary64 number: rounding leaves it. *)
Lemma round_exact m e :
  (Z.abs m < 2 ^ 53)%Z → (-1074 ≤ e)%Z →
  round (inject_Z m * bpow e) == inject_Z m * bpow e.
Proof.
  intros Hm He. destruct (Z.eq_dec m 0%Z) as [->|Hm0].
  { rewrite Qmult_0_l. apply round_0. }
  set (x := inject_Z m * bpow e).
  assert (Habs : Qabs x == inject_Z (Z.abs m) * bpow e).
  { unfold x. rewrite Qabs_Qmult. rewrite (Qabs_pos (bpow e)) by apply Qlt_le_weak, bpow_pos.
    apply Qmult_comp; [|reflexivity]. unfold Qabs, inject_Z. simpl. reflexivity. }
  assert (Hpos : 0 < Qabs x).
  { rewrite Habs. apply Qmult_lt_0_compat; [apply (Z2Q_lt 0); lia|apply bpow_pos]. }
  assert (Hlt : Qabs x < bpow (53 + e)).
  { rewrite Habs, bpow_add. apply Qmult_lt_compat_r; [apply bpow_pos|].
    rewrite bpow_Z by lia. apply Z2Q_lt. lia. }
  assert (Hk : (ilog2 (Qabs x) < 53 + e)%Z).
  { apply bpow_lt_inv. eapply Qle_lt_trans; [apply (ilog2_spec _ Hpos)|done]. }
  assert (Hf : (fexp x ≤ e)%Z) by (unfold fexp; lia).
  unfold round. set (f := fexp x) in *.
  assert (E : x / bpow f == inject_Z (m * 2 ^ (e - f))).
  { unfold x. rewrite div_bpow, inject_Z_mult, bpow_Z by lia. reflexivity. }
  rewrite (rne_comp _ _ E), rne_Z. rewrite <- E. apply mul_div_bpow.
Qed.

Lemma round_Z n : (Z.abs n ≤ 2 ^ 53)%Z → round (inject_Z n) == inject_Z n.
Proof.
  intros Hn. destruct (Z_lt_le_dec (Z.abs n) (2 ^ 53)) as [Hlt|Hge].
  - rewrite <- (Qmult_1_r (inject_Z n)). rewrite <- bpow_0. by apply round_exact.
  - assert (Hc : n = (2 ^ 53)%Z ∨ n = (- 2 ^ 53)%Z) by lia.
    destruct Hc as [-> | ->].
    + assert (E : inject_Z (2 ^ 53) == inject_Z (2 ^ 52) * bpow 1) by reflexivity.
      rewrite E. apply round_exact; [reflexivity|lia].
    + assert (E : inject_Z (- 2 ^ 53) == inject_Z (- 2 ^ 52) * bpow 1) by reflexivity.
      rewrite E. apply round_exact; [reflexivity|lia].
Qed.

Lemma round_1 : round 1 == 1.
Proof. apply (round_Z 1). simpl. lia. Qed.

Lemma fexp_pos x : 0 < x → fexp x = Z.max (ilog2 x - 52) (-1074).
Proof.
  intros Hx. unfold fexp. by rewrite (ilog2_comp _ _ (Qabs_pos x (Qlt_le_weak _ _ Hx))).
Qed.

(** Rounding is monotone on positive numbers. *)
Lemma round_mono_pos x y : 0 < x → x <= y → round x <= round y.
Proof.
  intros Hx Hxy.
  assert (Hy : 0 < y) by (eapply Qlt_le_trans; done).
  pose proof (ilog2_mono x y Hx Hxy) as Hk.
  destruct (ilog2_spec x Hx) as [Hxl Hxu]. destruct (ilog2_spec y Hy) as [Hyl Hyu].
  unfold round. rewrite (fexp_pos x Hx), (fexp_pos y Hy).
  set (kx := ilog2 x) in *. set (ky := ilog2 y) in *.
  set (ex := Z.max (kx - 52) (-1074)). set (ey := Z.max (ky - 52) (-1074)).
  destruct (Z.eq_dec ex ey) as [E|E].
  - rewrite E. apply Qmult_le_compat_r; [|apply Qlt_le_weak, bpow_pos].
    apply Z2Q_le, rne_mono. apply Qmult_le_compat_r; [done|].
    apply Qlt_le_weak, Qinv_lt_0_compat, bpow_pos.
  - assert (Hlt : (ex < ey)%Z) by lia.
    assert (Hey : ey = (ky - 52)%Z) by lia.
    assert (Hkk : (kx < ky)%Z) by lia.
    (* a power of two lies between the two numbers *)
    apply Qle_trans with (bpow ky).
    + assert (Hb : x <= bpow ky).
      { apply Qlt_le_weak. eapply Qlt_le_trans; [exact Hxu|]. apply bpow_le. lia. }
      assert (E1 : bpow ky / bpow ex == inject_Z (2 ^ (ky - ex))).
      { rewrite <- (Qmult_1_l (bpow ky)), div_bpow, Qmult_1_l. apply bpow_Z. lia. }
      assert (H1 : (rne (x / bpow ex) ≤ 2 ^ (ky - ex))%Z).
      { apply Z.le_trans with (rne (bpow ky / bpow ex));
          [|by rewrite (rne_comp _ _ E1), rne_Z].
        apply rne_mono. apply Qmult_le_compat_r; [done|].
        apply Qlt_le_weak, Qinv_lt_0_compat, bpow_pos. }
      apply Z2Q_le in H1. rewrite <- E1 in H1.
      rewrite <- (mul_div_bpow (bpow ky) ex).
      apply Qmult_le_compat_r; [done|apply Qlt_le_weak, bpow_pos].
    + assert (E1 : bpow ky / bpow ey == inject_Z (2 ^ 52)).
      { rewrite <- (Qmult_1_l (bpow ky)), div_bpow, Qmult_1_l.
        rewrite Hey. replace (ky - (ky - 52))%Z with 52%Z by lia. reflexivity. }
      assert (H1 : (2 ^ 52 ≤ rne (y / bpow ey))%Z).
      { apply Z.le_trans with (rne (bpow ky / bpow ey));
          [by rewrite (rne_comp _ _ E1), rne_Z|].
        apply rne_mono. apply Qmult_le_compat_r; [done|].
        apply Qlt_le_weak, Qinv_lt_0_compat, bpow_pos. }
      apply Z2Q_le in H1. rewrite <- E1 in H1.
      rewrite <- (mul_div_bpow (bpow ky) ey) at 1.
      apply Qmult_le_compat_r; [done|apply Qlt_le_weak, bpow_pos].
Qed.

Lemma round_mono_nonneg x y : 0 <= x → x <= y → round x <= round y.
Proof.
  intros Hx Hxy. apply Qle_lteq in Hx as [Hx|Hx].
  - by apply round_mono_pos.
  - rewrite <- Hx, round_0. apply round_nonneg. by rewrite Hx.
Qed.

(** Rounding is monotone. *)
Lemma round_ge_1 x : 1 <= x → 1 <= round x.
Proof. intros H. rewrite <- round_1. apply round_mono_pos; [reflexivity|done]. Qed.

Lemma round_le_Z x n : (0 ≤ n ≤ 2 ^ 53)%Z → x <= inject_Z n → round x <= inject_Z n.
Proof.
  intros Hn Hx. destruct (Qlt_le_dec 0 x) as [H0|H0].
  - rewrite <- (round_Z n) by lia. by apply round_mono_pos.
  - eapply Qle_trans; [by apply round_nonpos|]. apply (Z2Q_le 0). lia.
Qed.


(** ** Numbers below one *)

(** The unit roundoff, [2 ** -53], as a fraction. *)
Lemma bpow_m53 : bpow (-53) = 1 # 9007199254740992.
Proof. reflexivity. Qed.

Lemma ilog2_half x : 1 # 2 <= x → x < 1 → ilog2 x = (-1)%Z.
Proof. intros H1 H2. apply ilog2_unique; [exact H1|exact H2]. Qed.

(** The largest binary64 number below 1 is [1 - 2 ** -53]. *)
Lemma round_lt_1 q : round q < 1 → round q <= 1 - bpow (-53).
Proof.
  intros Hlt. rewrite bpow_m53.
  assert (Hq1 : q < 1).
  { apply Qnot_le_lt. intros H. apply round_ge_1 in H. lra. }
  destruct (Qlt_le_dec q (1 # 2)) as [Hh|Hh].
  - apply Qle_trans with (1 # 2); [|by vm_compute].
    destruct (Qlt_le_dec 0 q) as [H0|H0].
    + assert (E : (1 # 2) == inject_Z 1 * bpow (-1)) by reflexivity.
      rewrite E. rewrite <- (round_exact 1 (-1)) by (simpl; lia).
      rewrite <- E. apply round_mono_pos; [done|lra].
    + eapply Qle_trans; [by apply round_nonpos|by vm_compute].
  - assert (Hq0 : 0 < q) by lra.
    revert Hlt. unfold round. rewrite (fexp_pos q Hq0), (ilog2_half q Hh Hq1).
    change (Z.max (-1 - 52) (-1074)) with (-53)%Z. rewrite bpow_m53.
    set (r := rne _). intros Hlt.
    assert (Hr : (r < 2 ^ 53)%Z).
    { apply Q2Z_lt. change (inject_Z (2 ^ 53)) with 9007199254740992. lra. }
    assert (Hr' : inject_Z r <= inject_Z (2 ^ 53 - 1)) by (apply Z2Q_le; lia).
    change (inject_Z (2 ^ 53 - 1)) with 9007199254740991 in Hr'. lra.
Qed.

(** ** Relative error *)

Lemma round_rel x :
  bpow (-1022) <= x →
  x * (1 - bpow (-53)) <= round x ∧ round x <= x * (1 + bpow (-53)).
Proof.
  intros Hx.
  assert (Hx0 : 0 < x) by (eapply Qlt_le_trans; [apply (bpow_pos (-1022))|done]).
  destruct (ilog2_spec x Hx0) as [Hl Hu].
  assert (Hk : (-1022 ≤ ilog2 x)%Z).
  { assert (H : (-1022 < ilog2 x + 1)%Z); [|lia].
    apply bpow_lt_inv. eapply Qle_lt_trans; done. }
  unfold round. rewrite (fexp_pos x Hx0).
  replace (Z.max (ilog2 x - 52) (-1074)) with (ilog2 x - 52)%Z by lia.
  set (k := ilog2 x) in *. set (p := bpow (k - 52)).
  assert (Hp : 0 < p) by apply bpow_pos.
  destruct (rne_near (x / p)) as [Hn1 Hn2]. set (r := inject_Z (rne (x / p))) in *.
  assert (Hxp : x / p * p == x) by apply mul_div_bpow.
  (* half a unit in the last place is at most [x * 2 ** -53] *)
  assert (Hhalf : (1 # 2) * p <= x * bpow (-53)).
  { apply Qle_trans with (bpow k * bpow (-53)).
    - unfold p. rewrite <- bpow_add.
      replace (k + -53)%Z with (k - 52 + -1)%Z by lia. rewrite bpow_add.
      change (bpow (-1)) with (1 # 2). rewrite Qmult_comm. apply Qle_refl.
    - apply Qmult_le_compat_r; [done|apply Qlt_le_weak, bpow_pos]. }
  assert (H1 : (x / p - (1 # 2)) * p <= r * p).
  { apply Qmult_le_compat_r; lra. }
  assert (H2 : r * p <= (x / p + (1 # 2)) * p).
  { apply Qmult_le_compat_r; lra. }
  assert (E1 : (x / p - (1 # 2)) * p == x - (1 # 2) * p) by (rewrite <- Hxp at 2; ring).
  assert (E2 : (x / p + (1 # 2)) * p == x + (1 # 2) * p) by (rewrite <- Hxp at 2; ring).
  rewrite E1 in H1. rewrite E2 in H2.
  split; lra.
Qed.

(** ** An integer scaled by a factor below one *)

(** [float(n) * s], rounded, is at most [n] when the binary64 number [s] is
    below 1: also where [n] has more than 53 bits and [float(n)] lies
    above it. *)
Lemma round_scaled_le n s :
  (0 ≤ n)%Z → s <= 1 - bpow (-53) → round (round (inject_Z n) * s) <= inject_Z n.
Proof.
  intros Hn Hs. rewrite bpow_m53 in Hs.
  destruct (Z.eq_dec n 0%Z) as [->|Hn0].
  { assert (E : round (inject_Z 0) * s == 0) by (rewrite round_0; ring).
    rewrite E, round_0. apply Qle_refl. }
  set (x := inject_Z n).
  assert (Hx1 : 1 <= x) by (apply (Z2Q_le 1); lia).
  assert (Hx0 : 0 < x) by lra.
  destruct (ilog2_spec x Hx0) as [Hl Hu].
  assert (Hk : (0 ≤ ilog2 x)%Z).
  { assert (H : (0 < ilog2 x + 1)%Z); [|lia].
    apply bpow_lt_inv. eapply Qle_lt_trans; [|exact Hu]. exact Hx1. }
  assert (Hfx : fexp x = (ilog2 x - 52)%Z) by (rewrite (fexp_pos x Hx0); lia).
  set (k := ilog2 x) in *. set (e := (k - 52)%Z) in *. set (p := bpow e).
  assert (Hp : 0 < p) by apply bpow_pos.
  assert (Hxp : x / p * p == x) by apply mul_div_bpow.
  (* the mantissa of [x], cut off *)
  set (M := Qfloor (x / p)).
  pose proof (Qfloor_le (x / p)) as HM1. pose proof (Qlt_floor (x / p)) as HM2.
  fold M in HM1, HM2. rewrite inject_Z_plus in HM2. change (inject_Z 1) with 1 in HM2.
  assert (Ek : bpow k / p == inject_Z (2 ^ 52)).
  { unfold p. rewrite <- (Qmult_1_l (bpow k)), div_bpow, Qmult_1_l.
    unfold e. replace (k - (k - 52))%Z with 52%Z by lia. reflexivity. }
  assert (Ek1 : bpow (k + 1) / p == inject_Z (2 ^ 53)).
  { unfold p. rewrite <- (Qmult_1_l (bpow (k + 1))), div_bpow, Qmult_1_l.
    unfold e. replace (k + 1 - (k - 52))%Z with 53%Z by lia. reflexivity. }
  assert (Hinv : 0 <= / p) by (apply Qlt_le_weak, Qinv_lt_0_compat; done).
  assert (Hlo : inject_Z (2 ^ 52) <= x / p).
  { rewrite <- Ek. by apply Qmult_le_compat_r. }
  assert (Hhi : x / p < inject_Z (2 ^ 53)).
  { rewrite <- Ek1. apply Qmult_lt_compat_r; [by apply Qinv_lt_0_compat|done]. }
  assert (HMlo : (2 ^ 52 ≤ M)%Z).
  { unfold M. rewrite <- (Qfloor_Z (2 ^ 52)). by apply Qfloor_resp_le. }
  assert (HMhi : (M < 2 ^ 53)%Z).
  { apply Q2Z_lt. lra. }
  assert (HMlo' : 4503599627370496 <= inject_Z M) by (apply (Z2Q_le (2 ^ 52)); done).
  assert (HMhi' : inject_Z M <= 9007199254740991) by (apply (Z2Q_le _ (2 ^ 53 - 1)); lia).
  (* the binary64 number below [x] *)
  set (RD := inject_Z M * p).
  assert (HRD : RD <= x).
  { unfold RD. rewrite <- Hxp. apply Qmult_le_compat_r; lra. }
  assert (HRDf : round RD == RD).
  { apply round_exact; [lia|unfold e; lia]. }
  assert (HRD0 : 0 < RD).
  { unfold RD. apply Qmult_lt_0_compat; lra. }
  (* [float(n)] *)
  assert (HF : round x == inject_Z (rne (x / p)) * p).
  { unfold round. by rewrite Hfx. }
  set (r := inject_Z (rne (x / p))) in *.
  assert (Hr1 : r <= inject_Z M + 1).
  { apply Qle_trans with (inject_Z (M + 1)).
    - unfold r. apply Z2Q_le, rne_below.
      rewrite inject_Z_plus. change (inject_Z 1) with 1. lra.
    - rewrite inject_Z_plus. change (inject_Z 1) with 1. apply Qle_refl. }
  assert (Hr0 : 0 <= r).
  { unfold r. apply (Z2Q_le 0). apply Z.le_trans with (rne (inject_Z 0));
      [by rewrite rne_Z|]. apply rne_mono. change (inject_Z 0) with 0. lra. }
  set (y := round x * s).
  destruct (Qlt_le_dec 0 y) as [Hy|Hy]; [|eapply Qle_trans; [by apply round_nonpos|lra]].
  apply Qle_trans with RD; [|done].
  (* [y], as a mantissa *)
  assert (Ey : y == r * s * p) by (unfold y; rewrite HF; ring).
  assert (Hs0 : 0 < s).
  { destruct (Qlt_le_dec 0 s) as [H|H]; [done|]. exfalso.
    assert (H1 : s * r <= 0 * r) by (by apply Qmult_le_compat_r).
    assert (H2 : s * r * p <= 0 * r * p) by (apply Qmult_le_compat_r; lra).
    assert (E3 : y == s * r * p) by (rewrite Ey; ring).
    assert (E4 : 0 * r * p == 0) by ring.
    rewrite E4, <- E3 in H2. lra. }
  assert (Hrs : r * s < inject_Z M + (1 # 2)).
  { apply Qle_lt_trans with ((inject_Z M + 1) * s).
    - apply Qmult_le_compat_r; lra.
    - apply Qle_lt_trans with ((inject_Z M + 1) * (1 - (1 # 9007199254740992))).
      + apply Qmult_le_l; lra.
      + lra. }
  destruct (Qlt_le_dec RD y) as [Hgt|Hle].
  - assert (Hky : ilog2 y = k).
    { apply ilog2_unique.
      - apply Qle_trans with RD; [|lra]. unfold RD.
        rewrite <- (mul_div_bpow (bpow k) e). fold p. rewrite Ek.
        apply Qmult_le_compat_r; [by apply Z2Q_le|lra].
      - rewrite Ey. rewrite <- (mul_div_bpow (bpow (k + 1)) e). fold p. rewrite Ek1.
        apply Qmult_lt_compat_r; [done|].
        change (inject_Z (2 ^ 53)) with 9007199254740992. lra. }
    unfold round. rewrite (fexp_pos y Hy), Hky.
    replace (Z.max (k - 52) (-1074)) with e by (unfold e; lia). fold p.
    unfold RD. apply Qmult_le_compat_r; [|lra].
    apply Z2Q_le, rne_below.
    assert (E : y / p == r * s) by (rewrite Ey; field; lra).
    rewrite E. exact Hrs.
  - rewrite <- HRDf. by apply round_mono_pos.
Qed.

(** Rounding does not cross a binary64 number. *)
Lemma round_le_float x m e :
  (0 ≤ m < 2 ^ 53)%Z → (-1074 ≤ e)%Z →
  x <= inject_Z m * bpow e → round x <= inject_Z m * bpow e.
Proof.
  intros Hm He Hx. destruct (Qlt_le_dec 0 x) as [H0|H0].
  - rewrite <- (round_exact m e) by lia. by apply round_mono_pos.
  - eapply Qle_trans; [by apply round_nonpos|].
    apply Qmult_le_0_compat; [apply (Z2Q_le 0); lia|apply Qlt_le_weak, bpow_pos].
Qed.


End Binary64.

(* ====================================================================== *)
(** * Downscaling *)
(* ====================================================================== *)

Module Resize.
Import Binary64.

(** A frame is an array of known shape; what [cv2.resize] returns is kept
    symbolic: the source frame and the size asked for, which [cv2.resize]
    accepts only when both numbers are positive. *)
Inductive image : Type :=
| Captured (height width : N) (buffer : N)
| Resized (src : image) (new_w new_h : positive).

(** [img.shape[:2]], as [(h, w)] *)
Definition shape (img : image) : Z * Z :=
  match img with
  | Captured h w _ => (Z.of_N h, Z.of_N w)
  | Resized _ new_w new_h => (Z.pos new_h, Z.pos new_w)
  end.

Definition width (img : image) : Z := (shape img).2.
Definition height (img : image) : Z := (shape img).1.

(** [a / b] on integers: [ZeroDivisionError] when [b] is zero, and otherwise
    the binary64 number nearest to the quotient. *)
Definition truediv (a b : Z) : option Q :=
  if b =? 0 then None else Some (round (inject_Z a / inject_Z b)%Q).

(** [n * x] for an integer and a float: [float(n) * x], rounded. *)
Definition mul_int (n : Z) (x : Q) : Q := round (round (inject_Z n) * x)%Q.

(** [int(x)]: truncation towards zero *)
Definition py_int (x : Q) : Z := Z.quot (Qnum x) (Z.pos (Qden x)).

(** [min(maxw / w, maxh / h, 1.0)] *)
Definition scale_of (maxw maxh w h : Z) : option Q :=
  match truediv maxw w, truediv maxh h with
  | Some rw, Some rh => Some (Qmin (Qmin rw rh) 1)
  | _, _ => None
  end.

(** What a call of the resize step comes to. *)
Inductive outcome : Type :=
| Returned (img : image)
| ZeroDivisionError
| Cv2Error.

(** [cv2.resize(src, (new_w, new_h))]: [cv2.error] unless both are
    positive. *)
Definition cv2_resize (src : image) (new_w new_h : Z) : outcome :=
  match new_w, new_h with
  | Z.pos a, Z.pos b => Returned (Resized src a b)
  | _, _ => Cv2Error
  end.

Module Linux.
(** [None]: [ZeroDivisionError]. The size handed to [cv2.resize] is at
    least 2 each way, so that call returns. *)
Definition resize_to_max (frame_bgr : image) (maxw maxh : Z) : option image :=
  let '(h, w) := shape frame_bgr in
  match scale_of maxw maxh w h with
  | None => None
  | Some scale =>
      if Qle_bool 1 scale then Some frame_bgr
      else
        let new_w := Z.max 2 (py_int (mul_int w scale)) in
        let new_h := Z.max 2 (py_int (mul_int h scale)) in
        Some (Resized frame_bgr (Z.to_pos new_w) (Z.to_pos new_h))
  end.
End Linux.

Module Windows.
Definition resize_to_max (frame_bgr : image) (maxw maxh : Z) : outcome :=
  let '(h, w) := shape frame_bgr in
  match scale_of maxw maxh w h with
  | None => ZeroDivisionError
  | Some scale =>
      if Qle_bool 1 scale then Returned frame_bgr
      else
        let new_w := py_int (mul_int w scale) in
        let new_h := py_int (mul_int h scale) in
        cv2_resize frame_bgr new_w new_h
  end.
End Windows.

Module Mac.
Definition resize_if_needed (img_bgr : image) (max_width max_height : Z) : outcome :=
  let '(h, w) := shape img_bgr in
  match scale_of max_width max_height w h with
  | None => ZeroDivisionError
  | Some scale =>
      if Qle_bool 1 scale then Returned img_bgr
      else
        let new_w := py_int (mul_int w scale) in
        let new_h := py_int (mul_int h scale) in
        cv2_resize img_bgr new_w new_h
  end.
End Mac.

(** ** The same arithmetic on the machine's floats *)

Definition float_of_Z (z : Z) : float :=
  if z <? 0 then PrimFloat.opp (PrimFloat.of_uint63 (Uint63.of_Z (- z)))
  else PrimFloat.of_uint63 (Uint63.of_Z z).

Definition int_of_float (x : float) : Z :=
  match Prim2SF x with
  | S754_finite s m e =>
      let v := if 0 <=? e then Z.shiftl (Z.pos m) e else Z.shiftr (Z.pos m) (- e) in
      if s then - v else v
  | _ => 0
  end.

Definition fmin (a b : float) : float := if PrimFloat.ltb b a then b else a.

(** [(int(w * scale), int(h * scale))], or [None] when [scale >= 1.0] *)
Definition scaled_size_f64 (w h maxw maxh : Z) : option (Z * Z) :=
  let scale :=
    fmin (fmin (PrimFloat.div (float_of_Z maxw) (float_of_Z w))
               (PrimFloat.div (float_of_Z maxh) (float_of_Z h)))
         (float_of_Z 1) in
  if PrimFloat.leb (float_of_Z 1) scale then None
  else Some (int_of_float (PrimFloat.mul (float_of_Z w) scale),
             int_of_float (PrimFloat.mul (float_of_Z h) scale)).

(** The same pair, by the definitions above. *)
Definition scaled_size (w h maxw maxh : Z) : option (Z * Z) :=
  match scale_of maxw maxh w h with
  | None => None
  | Some scale =>
      if Qle_bool 1 scale then None
      else Some (py_int (mul_int w scale), py_int (mul_int h scale))
  end.


(** ** Shapes *)

Lemma shape_eq f : shape f = (height f, width f).
Proof. unfold height, width. by destruct (shape f). Qed.

Lemma width_resized f a b : width (Resized f a b) = Z.pos a.
Proof. reflexivity. Qed.

Lemma height_resized f a b : height (Resized f a b) = Z.pos b.
Proof. reflexivity. Qed.

Lemma width_nonneg f : 0 ≤ width f.
Proof. destruct f; unfold width; simpl; lia. Qed.

Lemma height_nonneg f : 0 ≤ height f.
Proof. destruct f; unfold height; simpl; lia. Qed.

(** ** Arithmetic of the scale factor *)

Lemma ratio_ge_1 a b : 0 < b → (1 <= inject_Z a / inject_Z b)%Q ↔ b ≤ a.
Proof.
  intros Hb. unfold Qle, Qdiv, Qmult, Qinv, inject_Z. simpl.
  destruct b as [|p|p]; try lia. simpl. lia.
Qed.

Lemma py_int_lt q w : (q < inject_Z w)%Q → 0 < w → py_int q < w.
Proof.
  unfold Qlt, py_int. destruct q as [n d]. simpl. intros H Hw.
  destruct (Z_lt_le_dec n 0) as [Hn|Hn].
  - assert (Z.quot n (Z.pos d) ≤ 0); [|lia].
    replace n with (- (- n)) by lia. rewrite Z.quot_opp_l by lia.
    pose proof (Z.quot_pos (- n) (Z.pos d)). lia.
  - rewrite Z.quot_div_nonneg by lia.
    apply Z.div_lt_upper_bound; lia.
Qed.

Lemma py_int_le q m : (q <= inject_Z m)%Q → 0 ≤ m → py_int q ≤ m.
Proof.
  unfold Qle, py_int. destruct q as [n d]. simpl. intros H Hm.
  destruct (Z_lt_le_dec n 0) as [Hn|Hn].
  - assert (Z.quot n (Z.pos d) ≤ 0); [|lia].
    replace n with (- (- n)) by lia. rewrite Z.quot_opp_l by lia.
    pose proof (Z.quot_pos (- n) (Z.pos d)). lia.
  - rewrite Z.quot_div_nonneg by lia.
    apply Z.div_le_upper_bound; lia.
Qed.

(** [min(maxw / w, maxh / h, 1.0)] where both divisions are defined *)
Definition scale (maxw maxh w h : Z) : Q :=
  Qmin (Qmin (round (inject_Z maxw / inject_Z w))
             (round (inject_Z maxh / inject_Z h))) 1.

Lemma scale_of_eq maxw maxh w h :
  scale_of maxw maxh w h
  = if (w =? 0) || (h =? 0) then None else Some (scale maxw maxh w h).
Proof. unfold scale_of, truediv. by destruct (w =? 0), (h =? 0). Qed.

Lemma scale_of_pos maxw maxh w h :
  w ≠ 0 → h ≠ 0 → scale_of maxw maxh w h = Some (scale maxw maxh w h).
Proof.
  intros Hw Hh. rewrite scale_of_eq.
  destruct (Z.eqb_spec w 0); [done|]. by destruct (Z.eqb_spec h 0).
Qed.

Lemma scale_of_none maxw maxh w h :
  scale_of maxw maxh w h = None ↔ w = 0 ∨ h = 0.
Proof.
  rewrite scale_of_eq.
  destruct (Z.eqb_spec w 0), (Z.eqb_spec h 0); simpl; split;
    (done || tauto || (intros [?|?]; done)).
Qed.

Lemma scale_le_1 maxw maxh w h : (scale maxw maxh w h <= 1)%Q.
Proof. apply Q.le_min_r. Qed.

(** A frame within the bounds has scale 1. *)
Lemma scale_ge_1 maxw maxh w h :
  0 < w → 0 < h → w ≤ maxw → h ≤ maxh → (1 <= scale maxw maxh w h)%Q.
Proof.
  intros Hw Hh Hmw Hmh. unfold scale.
  apply Q.min_glb; [apply Q.min_glb|apply Qle_refl];
    apply round_ge_1; by apply ratio_ge_1.
Qed.

(** A scale below 1 is a float below 1, so at most the float before 1. *)
Lemma scale_below_1 maxw maxh w h :
  (scale maxw maxh w h < 1)%Q → (scale maxw maxh w h <= 1 - bpow (-53))%Q.
Proof.
  unfold scale. intros H.
  set (rw := round (inject_Z maxw / inject_Z w)) in *.
  set (rh := round (inject_Z maxh / inject_Z h)) in *.
  destruct (Q.min_spec (Qmin rw rh) 1) as [[H1 E1]|[H1 E1]]; rewrite E1 in H |- *.
  - destruct (Q.min_spec rw rh) as [[H2 E2]|[H2 E2]]; rewrite E2 in H |- *;
      by apply round_lt_1.
  - by apply Qlt_irrefl in H.
Qed.

(** Below scale 1 no length grows. *)
Lemma scaled_le n maxw maxh w h :
  0 ≤ n → (scale maxw maxh w h < 1)%Q →
  py_int (mul_int n (scale maxw maxh w h)) ≤ n.
Proof.
  intros Hn Hs. apply py_int_le; [|done].
  apply round_scaled_le; [done|]. by apply scale_below_1.
Qed.

Lemma scale_test_false s : Qle_bool 1 s = false ↔ (s < 1)%Q.
Proof.
  split.
  - intros H. apply Qnot_le_lt. intros Hle. apply Qle_bool_iff in Hle. congruence.
  - intros H. destruct (Qle_bool 1 s) eqn:E; [|done].
    apply Qle_bool_iff in E. exfalso. by apply (Qlt_not_le _ _ H).
Qed.

(** ** What each script does *)

Lemma linux_resize_eval f maxw maxh :
  width f ≠ 0 → height f ≠ 0 →
  Linux.resize_to_max f maxw maxh =
  Some (if Qle_bool 1 (scale maxw maxh (width f) (height f)) then f
        else Resized f
               (Z.to_pos (Z.max 2 (py_int (mul_int (width f)
                                             (scale maxw maxh (width f) (height f))))))
               (Z.to_pos (Z.max 2 (py_int (mul_int (height f)
                                             (scale maxw maxh (width f) (height f))))))).
Proof.
  intros Hw Hh. unfold Linux.resize_to_max. rewrite shape_eq.
  rewrite scale_of_pos by done. by destruct (Qle_bool _ _).
Qed.

Lemma plain_resize_eval f maxw maxh :
  width f ≠ 0 → height f ≠ 0 →
  Windows.resize_to_max f maxw maxh =
  if Qle_bool 1 (scale maxw maxh (width f) (height f)) then Returned f
  else cv2_resize f
         (py_int (mul_int (width f) (scale maxw maxh (width f) (height f))))
         (py_int (mul_int (height f) (scale maxw maxh (width f) (height f)))).
Proof.
  intros Hw Hh. unfold Windows.resize_to_max. rewrite shape_eq.
  by rewrite scale_of_pos by done.
Qed.

Lemma mac_is_windows f maxw maxh :
  Mac.resize_if_needed f maxw maxh = Windows.resize_to_max f maxw maxh.
Proof. reflexivity. Qed.

Lemma cv2_resize_returned f a b out :
  cv2_resize f a b = Returned out →
  0 < a ∧ 0 < b ∧ out = Resized f (Z.to_pos a) (Z.to_pos b).
Proof. destruct a, b; simpl; try done. intros [= <-]. repeat split; lia. Qed.

Lemma cv2_resize_error f a b : a ≤ 0 ∨ b ≤ 0 → cv2_resize f a b = Cv2Error.
Proof. destruct a, b; simpl; try done; lia. Qed.

(** The three scripts raise [ZeroDivisionError] on the same frames. *)
Lemma resize_zero_division f maxw maxh :
  (Linux.resize_to_max f maxw maxh = None ↔ width f = 0 ∨ height f = 0) ∧
  (Windows.resize_to_max f maxw maxh = ZeroDivisionError
   ↔ width f = 0 ∨ height f = 0).
Proof.
  unfold Linux.resize_to_max, Windows.resize_to_max.
  rewrite shape_eq, <- (scale_of_none maxw maxh).
  destruct (scale_of maxw maxh (width f) (height f)) as [s|]; [|by split].
  destruct (Qle_bool 1 s); [by split|].
  split; [done|]. split; [|done].
  by destruct (py_int (mul_int (width f) s)), (py_int (mul_int (height f) s)).
Qed.

(** ** Runs *)

(** The figures of the specification, 1920x1080 under 1280x720, and three
    sizes where the rounding of the floats shows; the machine's own floats
    give the same numbers. *)
Example resize_1080p :
  Windows.resize_to_max (Captured 1080 1920 0) 1280 720
  = Returned (Resized (Captured 1080 1920 0) 1280 720) ∧
  Linux.resize_to_max (Captured 1080 1920 0) 1280 720
  = Some (Resized (Captured 1080 1920 0) 1280 720) ∧
  scaled_size 1920 1080 1280 720 = Some (1280, 720) ∧
  scaled_size_f64 1920 1080 1280 720 = Some (1280, 720).
Proof. repeat split; vm_compute; reflexivity. Qed.

Example resize_rounding :
  scaled_size 2736 1824 1920 1080 = Some (1619, 1080) ∧
  scaled_size_f64 2736 1824 1920 1080 = Some (1619, 1080) ∧
  scaled_size 2240 1400 1280 720 = Some (1152, 719) ∧
  scaled_size_f64 2240 1400 1280 720 = Some (1152, 719) ∧
  scaled_size 1366 768 1280 720 = Some (1280, 719) ∧
  scaled_size_f64 1366 768 1280 720 = Some (1280, 719) ∧
  scaled_size 49 49 1 1 = Some (0, 0) ∧
  scaled_size_f64 49 49 1 1 = Some (0, 0).
Proof. repeat split; vm_compute; reflexivity. Qed.

(** The model and the machine's floats give the same sizes on every pairing
    of these widths, heights and bounds: frames from one pixel to 8K. *)
Definition sample_widths : list Z :=
  [1; 2; 3; 7; 49; 100; 640; 800; 1024; 1280; 1366; 1400; 1440; 1600; 1680;
   1920; 2240; 2560; 2736; 3440; 3840; 5120; 7680].

Definition sample_heights : list Z :=
  [1; 2; 3; 7; 49; 100; 480; 600; 720; 768; 800; 900; 1000; 1050; 1080;
   1200; 1400; 1440; 1600; 1824; 2160; 2880; 4320].

Definition sample_bounds : list (Z * Z) :=
  [(1280, 720); (1920, 1080); (640, 360); (1, 1); (2, 2); (100, 100); (0, 720); (-5, 720)].

Definition same_size (a b : option (Z * Z)) : bool :=
  match a, b with
  | Some (x, y), Some (x', y') => (x =? x') && (y =? y')
  | None, None => true
  | _, _ => false
  end.

Definition agree_on (w h : Z) (b : Z * Z) : bool :=
  same_size (scaled_size w h b.1 b.2) (scaled_size_f64 w h b.1 b.2).

Example rounding_as_the_machine :
  forallb (λ w, forallb (λ h, forallb (agree_on w h) sample_bounds) sample_heights)
          sample_widths = true.
Proof. vm_compute. reflexivity. Qed.
Example resize_within_bounds :
  Mac.resize_if_needed (Captured 600 800 0) 1280 720 = Returned (Captured 600 800 0) ∧
  scaled_size_f64 800 600 1280 720 = None.
Proof. split; vm_compute; reflexivity. Qed.

Example resize_empty_frame : Linux.resize_to_max (Captured 0 0 0) 1280 720 = None.
Proof. reflexivity. Qed.

(** C4, as stated, fails two ways. The Linux script clamps each new
    dimension from below at 2, so a frame 1 pixel wide and 1000 high comes
    out 2 pixels wide: wider than it went in (the unclamped figures, also on
    the machine's floats, are 0 and 720, which [cv2.resize] refuses on
    Windows and macOS). And a frame with no pixels, within any bounds, is
    not returned: the division raises. *)
Lemma resize_to_max_thin_frame :
  width (Captured 1000 1 0) = 1 ∧
  Linux.resize_to_max (Captured 1000 1 0) 1280 720
  = Some (Resized (Captured 1000 1 0) 2 720) ∧
  width <$> Linux.resize_to_max (Captured 1000 1 0) 1280 720 = Some 2 ∧
  scaled_size_f64 1 1000 1280 720 = Some (0, 720) ∧
  Windows.resize_to_max (Captured 1000 1 0) 1280 720 = Cv2Error ∧
  width (Captured 0 0 0) ≤ 1280 ∧ height (Captured 0 0 0) ≤ 720 ∧
  Linux.resize_to_max (Captured 0 0 0) 1280 720 = None ∧
  Windows.resize_to_max (Captured 0 0 0) 1280 720 = ZeroDivisionError ∧
  Mac.resize_if_needed (Captured 0 0 0) 1280 720 = ZeroDivisionError.
Proof. repeat split; vm_compute; try reflexivity; discriminate. Qed.

(** C4, amended. On a frame with no zero dimension the three scripts
    compute [scale = min(maxw / w, maxh / h, 1.0)], in binary64 and never
    above 1; a frame within the bounds has scale 1, and at scale 1 the frame
    is returned as it is. Only below 1 is the frame resized: to
    [int(w * scale)] by [int(h * scale)], neither larger than the input's,
    which Windows and macOS hand to [cv2.resize] as they are and Linux
    after raising each to at least 2. So what the Windows and macOS scripts
    return is never wider or higher than the input, and what the Linux
    script returns is at most [max(2, w)] wide and [max(2, h)] high: never
    larger than an input of at least 2 pixels each way. On a frame with a
    zero dimension the division raises, in all three. *)
Theorem resize_never_upscales (f : image) (maxw maxh : Z) :
  (width f = 0 ∨ height f = 0 →
     scale_of maxw maxh (width f) (height f) = None ∧
     Linux.resize_to_max f maxw maxh = None ∧
     Windows.resize_to_max f maxw maxh = ZeroDivisionError ∧
     Mac.resize_if_needed f maxw maxh = ZeroDivisionError) ∧
  (width f ≠ 0 ∧ height f ≠ 0 →
     let w := width f in
     let h := height f in
     let s := Qmin (Qmin (round (inject_Z maxw / inject_Z w))
                         (round (inject_Z maxh / inject_Z h))) 1 in
     let new_w := py_int (mul_int w s) in
     let new_h := py_int (mul_int h s) in
     scale_of maxw maxh w h = Some s ∧ (s <= 1)%Q ∧
     (w ≤ maxw ∧ h ≤ maxh → (1 <= s)%Q) ∧
     ((1 <= s)%Q →
        Linux.resize_to_max f maxw maxh = Some f ∧
        Windows.resize_to_max f maxw maxh = Returned f ∧
        Mac.resize_if_needed f maxw maxh = Returned f) ∧
     ((s < 1)%Q →
        new_w ≤ w ∧ new_h ≤ h ∧
        Linux.resize_to_max f maxw maxh
          = Some (Resized f (Z.to_pos (Z.max 2 new_w)) (Z.to_pos (Z.max 2 new_h))) ∧
        Windows.resize_to_max f maxw maxh = cv2_resize f new_w new_h ∧
        Mac.resize_if_needed f maxw maxh = cv2_resize f new_w new_h)) ∧
  (∀ out, Windows.resize_to_max f maxw maxh = Returned out ∨
          Mac.resize_if_needed f maxw maxh = Returned out →
          width out ≤ width f ∧ height out ≤ height f) ∧
  (∀ out, Linux.resize_to_max f maxw maxh = Some out →
          width out ≤ Z.max 2 (width f) ∧ height out ≤ Z.max 2 (height f) ∧
          (2 ≤ width f → 2 ≤ height f →
           width out ≤ width f ∧ height out ≤ height f)).
Proof.
  pose proof (width_nonneg f) as Hw0. pose proof (height_nonneg f) as Hh0.
  destruct (resize_zero_division f maxw maxh) as [HLz HWz].
  split; [|split; [|split]].
  - intros Hz. split; [by apply scale_of_none|].
    split; [by apply HLz|].
    change (Mac.resize_if_needed f maxw maxh) with (Windows.resize_to_max f maxw maxh).
    split; by apply HWz.
  - intros [Hw Hh] w h s new_w new_h.
    fold (scale maxw maxh w h) in s.
    split; [by apply scale_of_pos|]. split; [apply scale_le_1|].
    split; [intros [? ?]; apply scale_ge_1; subst w h; lia|].
    change (Mac.resize_if_needed f maxw maxh) with (Windows.resize_to_max f maxw maxh).
    rewrite linux_resize_eval, plain_resize_eval by done.
    fold w h s. split.
    + intros H1. apply Qle_bool_iff in H1. by rewrite H1.
    + intros Hlt. split; [apply scaled_le; [done|exact Hlt]|].
      split; [apply scaled_le; [done|exact Hlt]|].
      apply scale_test_false in Hlt. by rewrite Hlt.
  - intros out H.
    change (Mac.resize_if_needed f maxw maxh) with (Windows.resize_to_max f maxw maxh) in H.
    assert (H' : Windows.resize_to_max f maxw maxh = Returned out) by by destruct H.
    clear H. destruct (decide (width f = 0 ∨ height f = 0)) as [Hz|Hz].
    { apply HWz in Hz. congruence. }
    rewrite plain_resize_eval in H' by lia.
    destruct (Qle_bool 1 _) eqn:Et.
    + injection H' as <-. lia.
    + apply scale_test_false in Et.
      apply cv2_resize_returned in H' as (Ha & Hb & ->).
      rewrite width_resized, height_resized, !Z2Pos.id by done.
      split; by apply scaled_le.
  - intros out H. destruct (decide (width f = 0 ∨ height f = 0)) as [Hz|Hz].
    { apply HLz in Hz. congruence. }
    rewrite linux_resize_eval in H by lia. injection H as <-.
    destruct (Qle_bool 1 _) eqn:Et; [lia|].
    apply scale_test_false in Et.
    rewrite width_resized, height_resized, !Z2Pos.id by lia.
    pose proof (scaled_le (width f) maxw maxh (width f) (height f) Hw0 Et).
    pose proof (scaled_le (height f) maxw maxh (width f) (height f) Hh0 Et).
    lia.
Qed.

(** ** Frames and bounds of ordinary size *)

Lemma inject_Z_pos w : 0 < w → (0 < inject_Z w)%Q.
Proof. intros H. unfold Qlt. simpl. lia. Qed.

Lemma inject_Z_pred a b : a < b → (inject_Z a <= inject_Z b - 1)%Q.
Proof.
  intros H. apply Qle_trans with (inject_Z (b + -1)); [apply Z2Q_le; lia|].
  rewrite inject_Z_plus. change (inject_Z (-1)) with (- (1))%Q. lra.
Qed.

(** Below 2 ** 53 the quotient of a smaller by a larger integer rounds
    below 1. *)
Lemma round_ratio_lt_1 a b :
  0 < b ≤ 2 ^ 53 → a < b → (round (inject_Z a / inject_Z b) < 1)%Q.
Proof.
  intros Hb Hab. pose proof (inject_Z_pos b ltac:(lia)) as Hb0.
  apply Qle_lt_trans with (inject_Z (2 ^ 53 - 1) * bpow (-53))%Q; [|by vm_compute].
  apply round_le_float; [lia|lia|].
  apply Qle_shift_div_r; [done|].
  assert (H1 : (inject_Z a <= inject_Z b - 1)%Q) by by apply inject_Z_pred.
  assert (H2 : (inject_Z b <= 9007199254740992)%Q) by (apply (Z2Q_le b (2 ^ 53)); lia).
  rewrite bpow_m53. change (inject_Z (2 ^ 53 - 1)) with 9007199254740991%Q.
  lra.
Qed.

(** A frame of ordinary size with scale 1 is within the bounds. *)
Lemma scale_ge_1_inv maxw maxh w h :
  0 < w ≤ 2 ^ 53 → 0 < h ≤ 2 ^ 53 →
  (1 <= scale maxw maxh w h)%Q → w ≤ maxw ∧ h ≤ maxh.
Proof.
  intros Hw Hh Hs. unfold scale in Hs.
  apply Q.min_glb_iff in Hs as [Hs _]. apply Q.min_glb_iff in Hs as [Hsw Hsh].
  split.
  - destruct (Z_lt_le_dec maxw w) as [Hlt|]; [|done].
    pose proof (round_ratio_lt_1 maxw w Hw Hlt). exfalso. lra.
  - destruct (Z_lt_le_dec maxh h) as [Hlt|]; [|done].
    pose proof (round_ratio_lt_1 maxh h Hh Hlt). exfalso. lra.
Qed.

(** A length scaled by at most [m / n], [n] being its own size, comes out
    at most [m]: the two roundings together stay below half a pixel. *)
Lemma scaled_fits n m s :
  0 < n ≤ 2 ^ 53 → m < 2 ^ 52 →
  (s <= round (inject_Z m / inject_Z n))%Q →
  py_int (mul_int n s) ≤ Z.max 0 m.
Proof.
  intros Hn Hm Hs. pose proof (inject_Z_pos n ltac:(lia)) as Hn0.
  unfold mul_int.
  assert (En : (round (inject_Z n) == inject_Z n)%Q) by (apply round_Z; lia).
  destruct (Z_le_gt_dec m 0) as [Hm0|Hm0].
  - (* no room at all: the scale is not positive *)
    apply py_int_le; [|lia]. apply Qle_trans with 0%Q; [|apply (Z2Q_le 0); lia].
    apply round_nonpos. rewrite En.
    assert (Hq : (round (inject_Z m / inject_Z n) <= 0)%Q).
    { apply round_nonpos. apply Qle_shift_div_r; [done|].
      rewrite Qmult_0_l. apply (Z2Q_le m 0). lia. }
    assert (Hs0 : (s <= 0)%Q) by lra.
    rewrite <- (Qmult_0_r (inject_Z n)). apply Qmult_le_l; done.
  - assert (py_int (round (round (inject_Z n) * s)%Q) < m + 1); [|lia].
    apply py_int_lt; [|lia].
    set (q := (inject_Z m / inject_Z n)%Q) in *.
    assert (Hnq : (inject_Z n * q == inject_Z m)%Q).
    { unfold q. apply Qmult_div_r. lra. }
    assert (Hm1 : (1 <= inject_Z m)%Q) by (apply (Z2Q_le 1); lia).
    assert (Hm2 : (inject_Z m <= 4503599627370495)%Q)
      by (apply (Z2Q_le m (2 ^ 52 - 1)); lia).
    assert (Hn2 : (inject_Z n <= 9007199254740992)%Q)
      by (apply (Z2Q_le n (2 ^ 53)); lia).
    assert (Hq : (bpow (-1022) <= q)%Q).
    { apply Qle_trans with (bpow (-53)); [apply bpow_le; lia|].
      unfold q. apply Qle_shift_div_l; [done|]. rewrite bpow_m53. lra. }
    destruct (round_rel q Hq) as [_ Hr]. rewrite bpow_m53 in Hr.
    assert (Hy : (round (inject_Z n) * s <= inject_Z (2 * m + 1) * bpow (-1))%Q).
    { rewrite En.
      apply Qle_trans with (inject_Z n * (q * (1 + (1 # 9007199254740992))))%Q.
      - apply Qmult_le_l; [done|]. lra.
      - rewrite Qmult_assoc, Hnq, inject_Z_plus, inject_Z_mult.
        change (bpow (-1)) with (1 # 2)%Q. change (inject_Z 2) with 2%Q.
        change (inject_Z 1) with 1%Q. lra. }
    apply Qle_lt_trans with (inject_Z (2 * m + 1) * bpow (-1))%Q.
    + apply round_le_float; [lia|lia|exact Hy].
    + rewrite !inject_Z_plus, inject_Z_mult.
      change (bpow (-1)) with (1 # 2)%Q. change (inject_Z 2) with 2%Q.
      change (inject_Z 1) with 1%Q. lra.
Qed.

(** A length of which less than one pixel is left comes out 0. *)
Lemma scaled_vanishes n d m s :
  0 < n ≤ 2 ^ 53 → 0 < d ≤ 2 ^ 52 → n * m < d →
  (s <= round (inject_Z m / inject_Z d))%Q →
  py_int (mul_int n s) ≤ 0.
Proof.
  intros Hn Hd Hnm Hs. pose proof (inject_Z_pos n ltac:(lia)) as Hn0.
  pose proof (inject_Z_pos d ltac:(lia)) as Hd0.
  unfold mul_int.
  assert (En : (round (inject_Z n) == inject_Z n)%Q) by (apply round_Z; lia).
  destruct (Z_le_gt_dec m 0) as [Hm0|Hm0].
  - apply py_int_le; [|lia]. change (inject_Z 0) with 0%Q.
    apply round_nonpos. rewrite En.
    assert (Hq : (round (inject_Z m / inject_Z d) <= 0)%Q).
    { apply round_nonpos. apply Qle_shift_div_r; [done|].
      rewrite Qmult_0_l. apply (Z2Q_le m 0). lia. }
    assert (Hs0 : (s <= 0)%Q) by lra.
    rewrite <- (Qmult_0_r (inject_Z n)). apply Qmult_le_l; done.
  - assert (py_int (round (round (inject_Z n) * s)%Q) < 1); [|lia].
    apply py_int_lt; [|lia].
    set (q := (inject_Z m / inject_Z d)%Q) in *.
    assert (Hd2 : (inject_Z d <= 4503599627370496)%Q)
      by (apply (Z2Q_le d (2 ^ 52)); lia).
    assert (Hm1 : (1 <= inject_Z m)%Q) by (apply (Z2Q_le 1); lia).
    assert (Hq : (bpow (-1022) <= q)%Q).
    { apply Qle_trans with (bpow (-53)); [apply bpow_le; lia|].
      unfold q. apply Qle_shift_div_l; [done|]. rewrite bpow_m53. lra. }
    destruct (round_rel q Hq) as [_ Hr]. rewrite bpow_m53 in Hr.
    (* [n * m / d], at most [(d - 1) / d] *)
    assert (Ht : (inject_Z n * q <= 1 - (1 # 4503599627370496))%Q).
    { assert (E : (inject_Z n * q == inject_Z (n * m) / inject_Z d)%Q).
      { unfold q. rewrite inject_Z_mult. field. lra. }
      rewrite E. apply Qle_shift_div_r; [done|].
      assert (H1 : (inject_Z (n * m) <= inject_Z d - 1)%Q) by by apply inject_Z_pred.
      lra. }
    assert (Hy : (round (inject_Z n) * s <= inject_Z (2 ^ 53 - 1) * bpow (-53))%Q).
    { rewrite En.
      apply Qle_trans with (inject_Z n * (q * (1 + (1 # 9007199254740992))))%Q.
      - apply Qmult_le_l; [done|]. lra.
      - rewrite Qmult_assoc. rewrite bpow_m53.
        change (inject_Z (2 ^ 53 - 1)) with 9007199254740991%Q.
        set (t := (inject_Z n * q)%Q) in *. lra. }
    apply Qle_lt_trans with (inject_Z (2 ^ 53 - 1) * bpow (-53))%Q; [|by vm_compute].
    apply round_le_float; [lia|lia|exact Hy].
Qed.

Lemma scale_le_w maxw maxh w h :
  (scale maxw maxh w h <= round (inject_Z maxw / inject_Z w))%Q.
Proof. unfold scale. eapply Qle_trans; [apply Q.le_min_l|apply Q.le_min_l]. Qed.

Lemma scale_le_h maxw maxh w h :
  (scale maxw maxh w h <= round (inject_Z maxh / inject_Z h))%Q.
Proof. unfold scale. eapply Qle_trans; [apply Q.le_min_l|apply Q.le_min_r]. Qed.

Lemma linux_resize_fits f maxw maxh out :
  width f ≤ 2 ^ 53 → height f ≤ 2 ^ 53 → maxw < 2 ^ 52 → maxh < 2 ^ 52 →
  Linux.resize_to_max f maxw maxh = Some out →
  width out ≤ Z.max 2 maxw ∧ height out ≤ Z.max 2 maxh.
Proof.
  intros Hw Hh Hmw Hmh H.
  pose proof (width_nonneg f) as Hw0. pose proof (height_nonneg f) as Hh0.
  destruct (decide (width f = 0 ∨ height f = 0)) as [Hz|Hz].
  { apply (proj1 (resize_zero_division f maxw maxh)) in Hz. congruence. }
  rewrite linux_resize_eval in H by lia. injection H as <-.
  destruct (Qle_bool 1 _) eqn:Et.
  - apply Qle_bool_iff, scale_ge_1_inv in Et; lia.
  - rewrite width_resized, height_resized, !Z2Pos.id by lia.
    pose proof (scaled_fits (width f) maxw _ ltac:(lia) Hmw
                  (scale_le_w maxw maxh (width f) (height f))).
    pose proof (scaled_fits (height f) maxh _ ltac:(lia) Hmh
                  (scale_le_h maxw maxh (width f) (height f))).
    lia.
Qed.

(** X5. For frames of at most 2 ** 53 pixels each way and bounds below
    2 ** 52, what the resize step returns fits the bounds: on Windows and
    macOS its width is at most [maxw] and its height at most [maxh]; on
    Linux, where a resized dimension is never below 2, they are at most
    [max(2, maxw)] and [max(2, maxh)]. The two roundings of the binary64
    arithmetic never push a dimension over its bound. *)
Theorem resize_fits_bounds (f : image) (maxw maxh : Z) :
  width f ≤ 2 ^ 53 → height f ≤ 2 ^ 53 → maxw < 2 ^ 52 → maxh < 2 ^ 52 →
  (∀ out, Windows.resize_to_max f maxw maxh = Returned out ∨
          Mac.resize_if_needed f maxw maxh = Returned out →
          width out ≤ maxw ∧ height out ≤ maxh) ∧
  (∀ out, Linux.resize_to_max f maxw maxh = Some out →
          width out ≤ Z.max 2 maxw ∧ height out ≤ Z.max 2 maxh ∧
          (out = f ∨ (2 ≤ width out ∧ 2 ≤ height out))).
Proof.
  intros Hw Hh Hmw Hmh.
  pose proof (width_nonneg f) as Hw0. pose proof (height_nonneg f) as Hh0.
  split.
  - intros out H.
    change (Mac.resize_if_needed f maxw maxh) with (Windows.resize_to_max f maxw maxh) in H.
    assert (H' : Windows.resize_to_max f maxw maxh = Returned out) by by destruct H.
    clear H. destruct (decide (width f = 0 ∨ height f = 0)) as [Hz|Hz].
    { apply (proj2 (resize_zero_division f maxw maxh)) in Hz. congruence. }
    rewrite plain_resize_eval in H' by lia.
    destruct (Qle_bool 1 _) eqn:Et.
    + injection H' as <-. apply Qle_bool_iff, scale_ge_1_inv in Et; lia.
    + apply cv2_resize_returned in H' as (Ha & Hb & ->).
      rewrite width_resized, height_resized, !Z2Pos.id by done.
      pose proof (scaled_fits (width f) maxw _ ltac:(lia) Hmw
                    (scale_le_w maxw maxh (width f) (height f))).
      pose proof (scaled_fits (height f) maxh _ ltac:(lia) Hmh
                    (scale_le_h maxw maxh (width f) (height f))).
      lia.
  - intros out H. destruct (linux_resize_fits f maxw maxh out Hw Hh Hmw Hmh H) as [? ?].
    split; [done|]. split; [done|].
    destruct (decide (width f = 0 ∨ height f = 0)) as [Hz|Hz].
    { apply (proj1 (resize_zero_division f maxw maxh)) in Hz. congruence. }
    rewrite linux_resize_eval in H by lia. injection H as <-.
    destruct (Qle_bool 1 _); [by left|right].
    rewrite width_resized, height_resized, !Z2Pos.id by lia. lia.
Qed.

Lemma resize_fits_bounds_witness :
  width (Captured 1824 2736 0) ≤ 2 ^ 53 ∧ height (Captured 1824 2736 0) ≤ 2 ^ 53 ∧
  1920 < 2 ^ 52 ∧ 1080 < 2 ^ 52 ∧
  Windows.resize_to_max (Captured 1824 2736 0) 1920 1080
  = Returned (Resized (Captured 1824 2736 0) 1619 1080) ∧
  width (Resized (Captured 1824 2736 0) 1619 1080) ≤ 1920 ∧
  height (Resized (Captured 1824 2736 0) 1619 1080) ≤ 1080.
Proof.
  assert (Hw : width (Captured 1824 2736 0) ≤ 2 ^ 53) by (vm_compute; discriminate).
  assert (Hh : height (Captured 1824 2736 0) ≤ 2 ^ 53) by (vm_compute; discriminate).
  assert (Hmw : 1920 < 2 ^ 52) by reflexivity.
  assert (Hmh : 1080 < 2 ^ 52) by reflexivity.
  assert (E : Windows.resize_to_max (Captured 1824 2736 0) 1920 1080
              = Returned (Resized (Captured 1824 2736 0) 1619 1080))
    by (vm_compute; reflexivity).
  repeat (split; [done|]).
  apply (proj1 (resize_fits_bounds (Captured 1824 2736 0) 1920 1080 Hw Hh Hmw Hmh)
           _ (or_introl E)).
Defined.

(** X6. On Linux, for frames of at most 2 ** 53 pixels each way and bounds
    from 2 up to 2 ** 52, resizing what the resize step returned changes
    nothing: the first pass already fits, and its dimensions are
    positive. *)
Theorem linux_resize_idempotent (f out : image) (maxw maxh : Z) :
  width f ≤ 2 ^ 53 → height f ≤ 2 ^ 53 →
  2 ≤ maxw < 2 ^ 52 → 2 ≤ maxh < 2 ^ 52 →
  Linux.resize_to_max f maxw maxh = Some out →
  Linux.resize_to_max out maxw maxh = Some out.
Proof.
  intros Hw Hh Hmw Hmh H.
  destruct (linux_resize_fits f maxw maxh out Hw Hh ltac:(lia) ltac:(lia) H) as [Hfw Hfh].
  pose proof (width_nonneg f) as Hw0. pose proof (height_nonneg f) as Hh0.
  assert (Hpos : 0 < width out ∧ 0 < height out).
  { destruct (decide (width f = 0 ∨ height f = 0)) as [Hz|Hz].
    { apply (proj1 (resize_zero_division f maxw maxh)) in Hz. congruence. }
    rewrite linux_resize_eval in H by lia. injection H as <-.
    destruct (Qle_bool 1 _); [lia|].
    rewrite width_resized, height_resized. lia. }
  rewrite linux_resize_eval by lia.
  assert (Ht : (1 <= scale maxw maxh (width out) (height out))%Q)
    by (apply scale_ge_1; lia).
  apply Qle_bool_iff in Ht. by rewrite Ht.
Qed.

Lemma linux_resize_idempotent_witness :
  width (Captured 1824 2736 0) ≤ 2 ^ 53 ∧ height (Captured 1824 2736 0) ≤ 2 ^ 53 ∧
  2 ≤ 1920 < 2 ^ 52 ∧ 2 ≤ 1080 < 2 ^ 52 ∧
  Linux.resize_to_max (Captured 1824 2736 0) 1920 1080
  = Some (Resized (Captured 1824 2736 0) 1619 1080) ∧
  Linux.resize_to_max (Resized (Captured 1824 2736 0) 1619 1080) 1920 1080
  = Some (Resized (Captured 1824 2736 0) 1619 1080).
Proof.
  assert (Hw : width (Captured 1824 2736 0) ≤ 2 ^ 53) by (vm_compute; discriminate).
  assert (Hh : height (Captured 1824 2736 0) ≤ 2 ^ 53) by (vm_compute; discriminate).
  assert (Hmw : 2 ≤ 1920 < 2 ^ 52) by (split; [discriminate|reflexivity]).
  assert (Hmh : 2 ≤ 1080 < 2 ^ 52) by (split; [discriminate|reflexivity]).
  assert (E : Linux.resize_to_max (Captured 1824 2736 0) 1920 1080
              = Some (Resized (Captured 1824 2736 0) 1619 1080))
    by (vm_compute; reflexivity).
  repeat (split; [done|]).
  apply (linux_resize_idempotent (Captured 1824 2736 0) _ 1920 1080 Hw Hh Hmw Hmh E).
Defined.

(** X7. What the resize step raises. In each of the three scripts the
    division raises exactly on a frame with a zero dimension, and the
    Linux script raises nothing else. On Windows and macOS a frame (of at
    most 2 ** 52 pixels each way) so thin that scaling leaves less than one
    pixel of its width, or of its height, makes [cv2.resize] raise, where
    the Linux script returns a frame 2 pixels wide, or high. *)
Theorem resize_raises_on_empty_frame (f : image) (maxw maxh : Z) :
  (Linux.resize_to_max f maxw maxh = None ↔ width f = 0 ∨ height f = 0) ∧
  (Windows.resize_to_max f maxw maxh = ZeroDivisionError
   ↔ width f = 0 ∨ height f = 0) ∧
  (Mac.resize_if_needed f maxw maxh = ZeroDivisionError
   ↔ width f = 0 ∨ height f = 0) ∧
  (width f ≠ 0 ∧ height f ≠ 0 ∧ width f ≤ 2 ^ 52 ∧ height f ≤ 2 ^ 52 →
   (width f * maxh < height f →
      Windows.resize_to_max f maxw maxh = Cv2Error ∧
      Mac.resize_if_needed f maxw maxh = Cv2Error ∧
      ∃ out, Linux.resize_to_max f maxw maxh = Some out ∧ width out = 2) ∧
   (height f * maxw < width f →
      Windows.resize_to_max f maxw maxh = Cv2Error ∧
      Mac.resize_if_needed f maxw maxh = Cv2Error ∧
      ∃ out, Linux.resize_to_max f maxw maxh = Some out ∧ height out = 2)).
Proof.
  destruct (resize_zero_division f maxw maxh) as [HLz HWz].
  split; [done|]. split; [done|]. split; [done|].
  intros (Hw & Hh & Hw2 & Hh2).
  pose proof (width_nonneg f) as Hw0. pose proof (height_nonneg f) as Hh0.
  change (Mac.resize_if_needed f maxw maxh) with (Windows.resize_to_max f maxw maxh).
  rewrite linux_resize_eval, plain_resize_eval by done.
  set (s := scale maxw maxh (width f) (height f)).
  split.
  - intros Hthin.
    assert (Hs : (s < 1)%Q).
    { eapply Qle_lt_trans; [apply scale_le_h|].
      apply round_ratio_lt_1; [lia|nia]. }
    pose proof (scaled_vanishes (width f) (height f) maxh s ltac:(lia) ltac:(lia)
                  Hthin (scale_le_h _ _ _ _)) as Hnw.
    apply scale_test_false in Hs. rewrite Hs.
    split; [apply cv2_resize_error; by left|].
    split; [apply cv2_resize_error; by left|].
    eexists. split; [done|]. rewrite width_resized, Z2Pos.id by lia. lia.
  - intros Hthin.
    assert (Hs : (s < 1)%Q).
    { eapply Qle_lt_trans; [apply scale_le_w|].
      apply round_ratio_lt_1; [lia|nia]. }
    pose proof (scaled_vanishes (height f) (width f) maxw s ltac:(lia) ltac:(lia)
                  Hthin (scale_le_w _ _ _ _)) as Hnh.
    apply scale_test_false in Hs. rewrite Hs.
    split; [apply cv2_resize_error; by right|].
    split; [apply cv2_resize_error; by right|].
    eexists. split; [done|]. rewrite height_resized, Z2Pos.id by lia. lia.
Qed.

(** ** Aspect ratio *)

Lemma py_int_floor q : (0 <= q)%Q → py_int q = Qfloor q.
Proof.
  destruct q as [n d]. unfold Qle, py_int, Qfloor. simpl. intros H.
  apply Z.quot_div_nonneg; lia.
Qed.

(** A scale that is positive is not tiny. *)
Lemma scale_pos_lb maxw maxh w h :
  0 < w ≤ 2 ^ 53 → 0 < h ≤ 2 ^ 53 →
  (0 < scale maxw maxh w h)%Q → (bpow (-54) <= scale maxw maxh w h)%Q.
Proof.
  intros Hw Hh Hs.
  assert (Hr : ∀ m n, 0 < n ≤ 2 ^ 53 →
               (0 < round (inject_Z m / inject_Z n))%Q →
               (bpow (-54) <= round (inject_Z m / inject_Z n))%Q).
  { intros m n Hn Hpos. pose proof (inject_Z_pos n ltac:(lia)) as Hn0.
    assert (Hn2 : (inject_Z n <= 9007199254740992)%Q)
      by (apply (Z2Q_le n (2 ^ 53)); lia).
    destruct (Z_le_gt_dec m 0) as [Hm|Hm].
    { assert (Hq : (round (inject_Z m / inject_Z n) <= 0)%Q).
      { apply round_nonpos. apply Qle_shift_div_r; [done|].
        rewrite Qmult_0_l. apply (Z2Q_le m 0). lia. }
      exfalso. lra. }
    assert (Hm1 : (1 <= inject_Z m)%Q) by (apply (Z2Q_le 1); lia).
    set (q := (inject_Z m / inject_Z n)%Q) in *.
    assert (Hq53 : (bpow (-53) <= q)%Q).
    { unfold q. apply Qle_shift_div_l; [done|]. rewrite bpow_m53. lra. }
    assert (Hq : (bpow (-1022) <= q)%Q).
    { apply Qle_trans with (bpow (-53)); [apply bpow_le; lia|done]. }
    destruct (round_rel q Hq) as [Hlo _]. rewrite bpow_m53 in Hlo, Hq53.
    change (bpow (-54)) with (1 # 18014398509481984)%Q. lra. }
  unfold scale in *.
  apply Q.min_glb_lt_iff in Hs as [Hs _]. apply Q.min_glb_lt_iff in Hs as [Hsw Hsh].
  apply Q.min_glb; [apply Q.min_glb|by vm_compute]; by apply Hr.
Qed.

(** Two lengths scaled by the same factor and truncated keep their ratio to
    within one pixel, the roundings included. *)
Lemma truncated_ratio (w h : Z) (s : Q) :
  0 < w → 0 < h → w * h ≤ 2 ^ 52 → (bpow (-54) <= s)%Q → (s <= 1)%Q →
  py_int (mul_int w s) * h - py_int (mul_int h s) * w ≤ w.
Proof.
  intros Hw Hh Hwh Hs0 Hs1. unfold mul_int.
  assert (Hw2 : w ≤ 2 ^ 52) by nia. assert (Hh2 : h ≤ 2 ^ 52) by nia.
  pose proof (round_Z w ltac:(lia)) as Ew. pose proof (round_Z h ltac:(lia)) as Eh.
  pose proof (inject_Z_pos w Hw) as HW. pose proof (inject_Z_pos h Hh) as HH.
  assert (HW1 : (1 <= inject_Z w)%Q) by (apply (Z2Q_le 1); lia).
  assert (HH1 : (1 <= inject_Z h)%Q) by (apply (Z2Q_le 1); lia).
  change (bpow (-54)) with (1 # 18014398509481984)%Q in Hs0.
  set (W := inject_Z w) in *. set (H := inject_Z h) in *.
  assert (Hbig : ∀ n, (1 <= n)%Q → (bpow (-1022) <= n * s)%Q).
  { intros n Hn. apply Qle_trans with (1 * s)%Q.
    - rewrite Qmult_1_l. apply Qle_trans with (bpow (-54)); [apply bpow_le; lia|].
      change (bpow (-54)) with (1 # 18014398509481984)%Q. done.
    - apply Qmult_le_compat_r; [done|lra]. }
  destruct (round_rel (round W * s) ltac:(rewrite Ew; by apply Hbig)) as [_ Ha].
  destruct (round_rel (round H * s) ltac:(rewrite Eh; by apply Hbig)) as [Hb _].
  rewrite bpow_m53 in Ha, Hb.
  set (a := round (round W * s)) in *. set (b := round (round H * s)) in *.
  rewrite Ew in Ha. rewrite Eh in Hb.
  assert (Ha0 : (0 <= a)%Q).
  { apply round_nonneg. rewrite Ew. apply Qmult_le_0_compat; lra. }
  assert (Hb0 : (0 <= b)%Q).
  { apply round_nonneg. rewrite Eh. apply Qmult_le_0_compat; lra. }
  rewrite (py_int_floor a Ha0), (py_int_floor b Hb0).
  pose proof (Qfloor_le a) as Hfa. pose proof (Qlt_floor b) as Hfb.
  rewrite inject_Z_plus in Hfb. change (inject_Z 1) with 1%Q in Hfb.
  set (nw := Qfloor a) in *. set (nh := Qfloor b) in *.
  set (P := (W * H * s)%Q).
  assert (HP0 : (0 <= P)%Q).
  { unfold P. apply Qmult_le_0_compat; [apply Qmult_le_0_compat|]; lra. }
  assert (HP1 : (P <= 4503599627370496)%Q).
  { apply Qle_trans with (W * H * 1)%Q.
    - unfold P. apply Qmult_le_l; [|done].
      rewrite <- (Qmult_0_l H). apply Qmult_lt_compat_r; done.
    - rewrite Qmult_1_r. unfold W, H. rewrite <- inject_Z_mult.
      apply (Z2Q_le (w * h) (2 ^ 52)). done. }
  assert (U1 : (inject_Z nw * H <= P * (1 + (1 # 9007199254740992)))%Q).
  { apply Qle_trans with (a * H)%Q; [apply Qmult_le_compat_r; lra|].
    apply Qle_trans with (W * s * (1 + (1 # 9007199254740992)) * H)%Q;
      [apply Qmult_le_compat_r; lra|].
    apply Qle_lteq. right. unfold P. ring. }
  assert (U2 : (P * (1 - (1 # 9007199254740992)) - W < inject_Z nh * W)%Q).
  { apply Qle_lt_trans with ((b - 1) * W)%Q.
    - apply Qle_trans with ((H * s * (1 - (1 # 9007199254740992)) - 1) * W)%Q.
      + apply Qle_lteq. right. unfold P. ring.
      + apply Qmult_le_compat_r; lra.
    - apply Qmult_lt_compat_r; [done|lra]. }
  assert (U : (inject_Z (nw * h - nh * w) < inject_Z (w + 1))%Q).
  { unfold Z.sub. rewrite !inject_Z_plus, inject_Z_opp, !inject_Z_mult.
    change (inject_Z 1) with 1%Q. fold W H.
    set (X1 := (inject_Z nw * H)%Q) in *. set (X2 := (inject_Z nh * W)%Q) in *.
    lra. }
  apply Q2Z_lt in U. lia.
Qed.

(** X8. On Windows and macOS the resize step keeps the aspect ratio to
    within one pixel, for frames of at most 2 ** 52 pixels in all: for an
    output of [nw] by [nh] from a frame of [w] by [h], [nw * h] and
    [nh * w] differ by at most [w] one way and at most [h] the other. *)
Theorem resize_keeps_aspect_ratio (f : image) (maxw maxh : Z) :
  width f * height f ≤ 2 ^ 52 →
  ∀ out, Windows.resize_to_max f maxw maxh = Returned out ∨
         Mac.resize_if_needed f maxw maxh = Returned out →
         - height f ≤ width out * height f - height out * width f ≤ width f.
Proof.
  intros Hwh out H.
  pose proof (width_nonneg f) as Hw0. pose proof (height_nonneg f) as Hh0.
  change (Mac.resize_if_needed f maxw maxh) with (Windows.resize_to_max f maxw maxh) in H.
  assert (H' : Windows.resize_to_max f maxw maxh = Returned out) by by destruct H.
  clear H. destruct (decide (width f = 0 ∨ height f = 0)) as [Hz|Hz].
  { apply (proj2 (resize_zero_division f maxw maxh)) in Hz. congruence. }
  assert (Hw : 0 < width f) by lia. assert (Hh : 0 < height f) by lia.
  assert (Hw2 : width f ≤ 2 ^ 52) by nia. assert (Hh2 : height f ≤ 2 ^ 52) by nia.
  rewrite plain_resize_eval in H' by lia.
  destruct (Qle_bool 1 _) eqn:Et; [injection H' as <-; lia|].
  apply cv2_resize_returned in H' as (Ha & Hb & ->).
  rewrite width_resized, height_resized, !Z2Pos.id by done.
  set (s := scale maxw maxh (width f) (height f)) in *.
  assert (Hs : (0 < s)%Q).
  { apply Qnot_le_lt. intros Hle.
    assert (py_int (mul_int (width f) s) ≤ 0); [|lia].
    apply py_int_le; [|done]. unfold mul_int. apply round_nonpos.
    rewrite round_Z by lia.
    rewrite <- (Qmult_0_r (inject_Z (width f))).
    apply Qmult_le_l; [by apply inject_Z_pos|done]. }
  apply scale_pos_lb in Hs; [|lia..].
  pose proof (scale_le_1 maxw maxh (width f) (height f)) as Hs1. fold s in Hs1.
  pose proof (truncated_ratio (width f) (height f) s Hw Hh Hwh Hs Hs1).
  pose proof (truncated_ratio (height f) (width f) s Hh Hw ltac:(lia) Hs Hs1).
  lia.
Qed.

Lemma resize_keeps_aspect_ratio_witness :
  width (Captured 1400 2240 0) * height (Captured 1400 2240 0) ≤ 2 ^ 52 ∧
  Windows.resize_to_max (Captured 1400 2240 0) 1280 720
  = Returned (Resized (Captured 1400 2240 0) 1152 719) ∧
  - 1400 ≤ 1152 * 1400 - 719 * 2240 ≤ 2240.
Proof.
  assert (Hwh : width (Captured 1400 2240 0) * height (Captured 1400 2240 0) ≤ 2 ^ 52)
    by (vm_compute; discriminate).
  assert (E : Windows.resize_to_max (Captured 1400 2240 0) 1280 720
              = Returned (Resized (Captured 1400 2240 0) 1152 719))
    by (vm_compute; reflexivity).
  split; [exact Hwh|]. split; [exact E|].
  apply (resize_keeps_aspect_ratio (Captured 1400 2240 0) 1280 720 Hwh _ (or_introl E)).
Defined.

End Resize.

(* ====================================================================== *)
(** * Exceptions *)
(* ====================================================================== *)

Module Exc.

(** The three portal calls answered by a [Response] signal. *)
Inductive portal_step : Type := CreateSession | SelectSources | Start.

Definition step_name (s : portal_step) : string :=
  match s with
  | CreateSession => "CreateSession"
  | SelectSources => "SelectSources"
  | Start => "Start"
  end.

(** The [RuntimeError]s the Linux script raises, by message. *)
Inductive runtime_error : Type :=
| DBusCallError (interface member : string)
| StepFailed (step : portal_step) (response : Z)
| NoSessionHandle
| NoStreams
| FdPassingUnsupported
| NoUnixFds
| AppsinkNotFound.

(** Exceptions below [Exception]; [OtherError] is one raised by a library
    (websockets, OpenCV, GStreamer, mss). *)
Inductive exn : Type :=
| RuntimeError (m : runtime_error)
| TypeError
| IndexError
| ValueError
| AttributeError
| ZeroDivisionError
| AssertionError
| TimeoutError
| QueueEmpty
| QueueFull
| OtherError (what : string).

(** A call either raises or returns. *)
Definition raising (A : Type) : Type := exn + A.

#[export] Instance raising_ret : MRet raising := λ A a, inr a.

#[export] Instance raising_bind : MBind raising := λ A B f x,
  match x with
  | inr a => f a
  | inl e => inl e
  end.

Definition newline : string := String (ascii_of_nat 10) EmptyString.

(** The text of each message; a D-Bus error ends with the reply body, which
    is left out. *)
Definition message_text (m : runtime_error) : string :=
  match m with
  | DBusCallError interface member =>
      "D-Bus error calling " +:+ interface +:+ "." +:+ member +:+ ": "
  | StepFailed step response =>
      step_name step +:+ " failed (response="
        +:+ NilZero.string_of_int (Z.to_int response) +:+ ")"
  | NoSessionHandle => "Portal did not return session_handle"
  | NoStreams => "No streams returned by portal"
  | FdPassingUnsupported =>
      "Your dbus-next doesn't support unix fd passing in this environment."
        +:+ newline +:+ "Run: pip install -U dbus-next" +:+ newline
  | NoUnixFds => "OpenPipeWireRemote returned no unix_fds (FD passing failed)."
  | AppsinkNotFound => "appsink not found in pipeline"
  end.

Example step_failed_text :
  message_text (StepFailed SelectSources 2) = "SelectSources failed (response=2)".
Proof. reflexivity. Qed.

End Exc.

(* ====================================================================== *)
(** * The frame bridge *)
(* ====================================================================== *)

Module Bridge.
Import Exc.

Section queue.
Context {Frame : Type}.

(** [asyncio.Queue(maxsize=2)]: the items, oldest first. *)
Definition maxsize : nat := 2.

Definition full (q : list Frame) : bool := (maxsize <=? length q)%nat.

Definition get_nowait (q : list Frame) : exn + (Frame * list Frame) :=
  match q with
  | [] => inl QueueEmpty
  | f :: r => inr (f, r)
  end.

Definition put_nowait (q : list Frame) (f : Frame) : exn + list Frame :=
  if full q then inl QueueFull else inr (q ++ [f]).

(** The closure [push] that [_on_new_sample] hands to the event loop. *)
Definition push (q : list Frame) (frame : Frame) : exn + list Frame :=
  let q :=
    if full q then
      match get_nowait q with
      | inr (_, r) => r
      | inl _ => q
      end
    else q in
  put_nowait q frame.

(** The loop runs the scheduled closures in the order they were handed in;
    a raising closure is reported and the rest still run. Here the first
    exception is kept, to show that there is none. *)
Fixpoint run_pushes (q : list Frame) (frames : list Frame) : exn + list Frame :=
  match frames with
  | [] => inr q
  | f :: r =>
      match push q f with
      | inr q' => run_pushes q' r
      | inl e => inl e
      end
  end.

(** What [sink.emit("pull-sample")] and [buf.map] gave the callback. *)
Inductive pulled : Type :=
| NoSample
| MapFailed
| Mapped (frame : Frame).

Inductive FlowReturn : Type := FlowOK | FlowEOS.

(** [_on_new_sample]: the flow return, and the frame whose [push] it
    scheduled with [call_soon_threadsafe], if any. *)
Definition on_new_sample (running : bool) (p : pulled) : FlowReturn * option Frame :=
  if negb running then (FlowEOS, None)
  else
    match p with
    | NoSample => (FlowOK, None)
    | MapFailed => (FlowOK, None)
    | Mapped frame => (FlowOK, Some frame)
    end.

(** [await asyncio.wait_for(self.queue.get(), timeout=timeout_s)]. A queued
    item is taken at once; on an empty queue the wait ends with the next
    frame pushed, if one is pushed before [timeout_s] seconds have passed
    ([arrival] is that frame and the delay until its push), and with
    [TimeoutError] otherwise. *)
Definition wait_for_get (q : list Frame) (timeout_s : Q) (arrival : option (Q * Frame))
  : exn + (Frame * list Frame) :=
  match q with
  | f :: r => inr (f, r)
  | [] =>
      match arrival with
      | Some (delay, f) =>
          if Qle_bool timeout_s delay then inl TimeoutError else inr (f, [])
      | None => inl TimeoutError
      end
  end.

(** [get_frame]: the frame or [None], and the queue left behind. *)
Definition get_frame (q : list Frame) (timeout_s : Q) (arrival : option (Q * Frame))
  : exn + (option Frame * list Frame) :=
  match wait_for_get q timeout_s arrival with
  | inr (f, r) => inr (Some f, r)
  | inl TimeoutError => inr (None, q)
  | inl e => inl e
  end.

(** The last [n] items of a list. *)
Definition lastn (n : nat) (l : list Frame) : list Frame :=
  drop (length l - n) l.

Lemma lastn_length n l : (length (lastn n l) ≤ n)%nat.
Proof. unfold lastn. rewrite length_drop. lia. Qed.

Lemma lastn_short n l : (length l ≤ n)%nat → lastn n l = l.
Proof. intros H. unfold lastn. by replace (length l - n)%nat with 0%nat by lia. Qed.

Lemma lastn_app_lastn n l r : lastn n (lastn n l ++ r) = lastn n (l ++ r).
Proof.
  unfold lastn. rewrite <- drop_app_le by lia.
  rewrite drop_drop. f_equal.
  rewrite length_drop, !length_app. lia.
Qed.

Lemma push_lastn q f : (length q ≤ 2)%nat → push q f = inr (lastn 2 (q ++ [f])).
Proof.
  destruct q as [|a [|b [|c q]]]; simpl; intros H; try reflexivity. lia.
Qed.

Lemma run_pushes_lastn frames : ∀ q,
  (length q ≤ 2)%nat → run_pushes q frames = inr (lastn 2 (q ++ frames)).
Proof.
  induction frames as [|f r IH]; intros q Hq; simpl.
  - by rewrite app_nil_r, lastn_short.
  - rewrite push_lastn by done. rewrite IH by apply lastn_length.
    rewrite lastn_app_lastn. by rewrite <- app_assoc.
Qed.

(** The frames whose [push] a run of callbacks schedules, in order. *)
Definition scheduled (running : bool) (samples : list pulled) : list Frame :=
  omap (λ p, (on_new_sample running p).2) samples.

Lemma scheduled_mapped frames : scheduled true (Mapped <$> frames) = frames.
Proof.
  induction frames as [|f r IH]; [done|].
  change (f :: scheduled true (Mapped <$> r) = f :: r). by rewrite IH.
Qed.

Lemma scheduled_stopped samples : scheduled false samples = [].
Proof. by induction samples. Qed.

(** C2. Starting from any queue the consumer may have left (at most 2
    items), a run of insertions with no dequeue in between never raises
    [QueueFull], leaves at most 2 frames, and leaves exactly the last 2 of
    what was queued and inserted, in insertion order: after 2 or more
    insertions, the last 2 inserted frames. On a full queue one insertion
    drops the oldest item and appends the new one. The callback itself only
    schedules the insertion and returns: frames mapped while running are
    the frames inserted. *)
Theorem bridge_keeps_last_two (q : list Frame) (frames : list Frame) :
  (length q ≤ 2)%nat →
  run_pushes q frames = inr (lastn 2 (q ++ frames)) ∧
  (length (lastn 2 (q ++ frames)) ≤ 2)%nat ∧
  ((2 ≤ length frames)%nat → run_pushes q frames = inr (lastn 2 frames)) ∧
  (∀ a b f, q = [a; b] → push q f = inr [b; f]) ∧
  run_pushes q (scheduled true (Mapped <$> frames)) = run_pushes q frames ∧
  (∀ p, (on_new_sample true p).1 = FlowOK).
Proof.
  intros Hq. split; [by apply run_pushes_lastn|].
  split; [apply lastn_length|]. split; [|split; [|split]].
  - intros Hf. rewrite run_pushes_lastn by done. f_equal.
    unfold lastn. rewrite length_app.
    rewrite drop_app_ge by lia. f_equal. lia.
  - by intros a b f ->.
  - by rewrite scheduled_mapped.
  - by intros [].
Qed.

End queue.

Lemma bridge_keeps_last_two_witness :
  (length (@nil nat) ≤ 2)%nat ∧
  run_pushes [] [1; 2; 3; 4; 5]%nat = inr [4; 5]%nat.
Proof.
  assert (H : (length (@nil nat) ≤ 2)%nat) by (simpl; lia).
  split; [exact H|].
  exact (proj1 (bridge_keeps_last_two [] [1; 2; 3; 4; 5]%nat H)).
Defined.

(** A consumer that took one frame leaves one behind; two more arrive. *)
Example bridge_after_dequeue :
  run_pushes ["f2"] ["f3"; "f4"] = inr ["f3"; "f4"] ∧
  run_pushes ["f2"] ["f3"] = inr ["f2"; "f3"].
Proof. split; reflexivity. Qed.

(** Nothing arrives before the deadline: [None], and no exception. *)
Example get_frame_timeout :
  get_frame ([] : list string) 3 (Some (5 # 1, "late"))%Q = inr (None, []) ∧
  get_frame ([] : list string) 3 None = inr (None, []) ∧
  get_frame ([] : list string) 3 (Some (1 # 2, "f"))%Q = inr (Some "f", []).
Proof. repeat split; reflexivity. Qed.

(** ** Producer and consumer interleaved *)

Section interleaving.
Context {Frame : Type}.

(** What happens to the queue, one at a time: the event loop runs a [push]
    scheduled by the callback, or the consumer awaits [get_frame] (and, on
    an empty queue, gets [None]). *)
Inductive op : Type :=
| Push (frame : Frame)
| Get.

Definition pushed_frames (ops : list op) : list Frame :=
  omap (λ o, match o with Push f => Some f | Get => None end) ops.

(** The frames the consumer got, in the order it got them, and the queue
    left. *)
Fixpoint run_ops (q : list Frame) (ops : list op)
  : exn + (list Frame * list Frame) :=
  match ops with
  | [] => inr ([], q)
  | Push f :: rest =>
      match push q f with
      | inr q' => run_ops q' rest
      | inl e => inl e
      end
  | Get :: rest =>
      match get_frame q 3 None with
      | inr (got, q') =>
          match run_ops q' rest with
          | inr (out, q'') =>
              inr (match got with Some f => f :: out | None => out end, q'')
          | inl e => inl e
          end
      | inl e => inl e
      end
  end.

Lemma lastn_suffix n (l : list Frame) : lastn n l `suffix_of` l.
Proof. apply suffix_drop. Qed.

Lemma suffix_sublist_of (l1 l2 : list Frame) : l1 `suffix_of` l2 → l1 `sublist_of` l2.
Proof. intros [k ->]. by apply sublist_inserts_l. Qed.

Lemma run_ops_invariant ops : ∀ q,
  (length q ≤ 2)%nat →
  ∃ out q',
    run_ops q ops = inr (out, q') ∧
    (length q' ≤ 2)%nat ∧
    out ++ q' `sublist_of` q ++ pushed_frames ops ∧
    q' `suffix_of` q ++ pushed_frames ops.
Proof.
  induction ops as [|[f|] rest IH]; intros q Hq.
  - exists [], q. simpl. by rewrite app_nil_r.
  - simpl. rewrite push_lastn by done.
    destruct (IH (lastn 2 (q ++ [f])) (lastn_length _ _)) as (out & q' & -> & Hl & Hs & Hx).
    exists out, q'. split; [done|]. split; [done|].
    assert (Hsuf : lastn 2 (q ++ [f]) ++ pushed_frames rest
                   `suffix_of` q ++ f :: pushed_frames rest).
    { replace (q ++ f :: pushed_frames rest) with ((q ++ [f]) ++ pushed_frames rest)
        by (by rewrite <- app_assoc).
      apply suffix_app, lastn_suffix. }
    split.
    + etrans; [exact Hs|]. by apply suffix_sublist_of.
    + etrans; [exact Hx|done].
  - simpl. destruct q as [|f q]; simpl.
    + destruct (IH [] Hq) as (out & q' & -> & Hl & Hs & Hx). by exists out, q'.
    + destruct (IH q) as (out & q' & -> & Hl & Hs & Hx); [simpl in Hq; lia|].
      exists (f :: out), q'. split; [done|]. split; [done|]. split.
      * simpl. by apply sublist_skip.
      * by apply suffix_cons_r.
Qed.

(** X9. Whatever the interleaving of insertions and [get_frame] calls, on
    a queue that starts empty: no insertion ever raises [QueueFull]; the
    queue never holds more than 2 frames; the frames the consumer got,
    followed by those still queued, are a subsequence of the frames
    inserted, so frames arrive in the order they were produced, none twice;
    and the queue is always made of the most recent insertions. *)
Theorem bridge_keeps_order (ops : list op) :
  ∃ out q,
    run_ops [] ops = inr (out, q) ∧
    (length q ≤ 2)%nat ∧
    out ++ q `sublist_of` pushed_frames ops ∧
    q `suffix_of` pushed_frames ops.
Proof.
  destruct (run_ops_invariant ops []) as (out & q & H); [simpl; lia|].
  by exists out, q.
Qed.

End interleaving.

Example bridge_interleaved :
  run_ops [] [Push "f1"; Push "f2"; Push "f3"; Get; Push "f4"; Push "f5"; Get; Get; Get]
  = inr (["f2"; "f4"; "f5"], []).
Proof. reflexivity. Qed.

End Bridge.

(* ====================================================================== *)
(** * The portal client and the Wayland streamer *)
(* ====================================================================== *)

Module Portal.
Import Exc Py.

(** ** Messages *)

Inductive MessageType : Type := METHOD_CALL | METHOD_RETURN | ERROR | SIGNAL.

Record Message : Type := mkMessage {
  message_type : MessageType;
  path : string;
  interface : string;
  member : string;
  body : list pyval;
  unix_fds : list Z
}.

Definition DEST : string := "org.freedesktop.portal.Desktop".
Definition DESKTOP_PATH : string := "/org/freedesktop/portal/desktop".
Definition IFACE_SCREENCAST : string := "org.freedesktop.portal.ScreenCast".
Definition IFACE_REQUEST : string := "org.freedesktop.portal.Request".
Definition IFACE_SESSION : string := "org.freedesktop.portal.Session".

Definition is_signal (t : MessageType) : bool :=
  match t with SIGNAL => true | _ => false end.

Definition is_error (t : MessageType) : bool :=
  match t with ERROR => true | _ => false end.

(** ** Python on values *)

(** [bool(v)] *)
Definition truthy (v : pyval) : bool :=
  match v with
  | PNone => false
  | PBool b => b
  | PInt z => negb (z =? 0)
  | PStr s => negb (String.eqb s "")
  | PObj _ | PVariant _ _ => true
  | PDict items => negb (bool_decide (items = []))
  | PList xs | PTuple xs => negb (bool_decide (xs = []))
  end.

(** [int(v)] for the numbers D-Bus delivers; anything else is taken to
    raise. *)
Definition int_of (v : pyval) : raising Z :=
  match v with
  | PInt z => inr z
  | PBool b => inr (if b then 1 else 0)
  | PNone | PDict _ | PList _ | PTuple _ | PVariant _ _ | PObj _ => inl TypeError
  | PStr _ => inl ValueError
  end.

(** [xs[i]] on a Python list, negative indices counting from the end *)
Definition list_index {A} (xs : list A) (i : Z) : raising A :=
  let n := Z.of_nat (length xs) in
  let j := if i <? 0 then i + n else i in
  if (j <? 0) || (n <=? j) then inl IndexError
  else match xs !! Z.to_nat j with Some x => inr x | None => inl IndexError end.

(** [v[i]] *)
Definition index (v : pyval) (i : Z) : raising pyval :=
  match v with
  | PList xs | PTuple xs => list_index xs i
  | _ => inl TypeError
  end.

(** [unwrap], raising *)
Definition unwrap_exn (v : pyval) : raising pyval :=
  match unwrap v with Some u => inr u | None => inl TypeError end.

(** ** The result of a wait *)

(** The dictionary [wait_request_response] resolves its future with. *)
Record Response : Type := mkResponse {
  response : Z;
  results : list (pyval * pyval);
  signal_path : string;
  expected : pyval
}.

(** [{k: unwrap(v) for k, v in results_dict.items()}]: the keys are kept. *)
Fixpoint decode_results (items : list (pyval * pyval))
  : option (list (pyval * pyval)) :=
  match items with
  | [] => Some []
  | (k, v) :: r =>
      match unwrap v, decode_results r with
      | Some v', Some r' => Some ((k, v') :: r')
      | _, _ => None
      end
  end.

(** The three lines of [handler] before it looks at the future; [None] when
    one of them raises. *)
Definition decode (msg : Message) : option (Z * list (pyval * pyval)) :=
  match list_index (body msg) 0, list_index (body msg) 1 with
  | inr b0, inr b1 =>
      match int_of b0 with
      | inr response_code =>
          let results_dict := if truthy b1 then b1 else PDict [] in
          match results_dict with
          | PDict items =>
              match decode_results items with
              | Some decoded => Some (response_code, decoded)
              | None => None
              end
          | _ => None
          end
      | inl _ => None
      end
  | _, _ => None
  end.

(** [handler], as a step on the future ([None]: still pending). The path of
    the message is recorded in the result and never compared with
    [expected]. *)
Definition handler (expected : pyval) (fut : option Response) (msg : Message)
  : option Response :=
  if is_signal (message_type msg)
     && String.eqb (interface msg) IFACE_REQUEST
     && String.eqb (member msg) "Response"
  then
    match decode msg with
    | Some (response_code, decoded) =>
        match fut with
        | Some _ => fut
        | None => Some (mkResponse response_code decoded (path msg) expected)
        end
    | None => fut
    end
  else fut.

(** The future after the handler has seen the messages delivered during
    one wait. *)
Definition deliver (expected : pyval) (inbox : list Message) : option Response :=
  foldl (handler expected) None inbox.

(** ** What the program does, as a trace *)

Inductive event : Type :=
| EvWsConnect (url : string)
| EvWsSend (frame : Resize.image)
| EvWsClose
| EvBusConnect (negotiate_unix_fd : bool)
| EvCall (path : pyval) (interface member signature : string)
| EvAddHandler
| EvWait (timeout_s : Z)
| EvResolved (response_code : Z)
| EvRemoveHandler
| EvGrabberStart (portal_fd node_id fps : Z)
| EvGrabberStop
| EvPrint (line : string).

(** ** The environment, scripted *)

(** One turn of the streaming loop: the frames the pipeline pushed since the
    last turn, the next push while [get_frame] waits (with its delay in
    seconds), and what [cv2.imencode] and [ws.send] do. *)
Inductive encode_outcome : Type := EncodeOk | EncodeNotOk | EncodeRaises.

Record turn : Type := mkTurn {
  pushed : list Resize.image;
  arrival : option (Q * Resize.image);
  encode : encode_outcome;
  send_ok : bool
}.

Inductive pipeline_outcome : Type :=
| PipelineOk
| PipelineNoSink
| PipelineRaises.

Record world : Type := mkWorld {
  is_wayland : bool;
  ws_connects : bool;
  (** [MessageBus(...)] takes the keyword [negotiate_unix_fd] *)
  ctor_takes_fd_flag : bool;
  bus_connects : bool;
  (** what [bus.call] gives for the [n]-th call issued, from 0 *)
  reply_to : nat → raising Message;
  (** the messages the bus hands to the handler during the [n]-th wait,
      before its timeout *)
  inbox : nat → list Message;
  pipeline : pipeline_outcome;
  turns : list turn
}.

Record state : Type := mkState {
  trace : list event;
  bus : bool;
  fd_passing_enabled : bool;
  n_calls : nat;
  n_waits : nat;
  grabber : bool
}.

(** [RawPortalScreencast()] and [grabber = None] *)
Definition init : state := mkState [] false false 0 0 false.

(** ** A state-and-exception monad *)

(** [Pending]: the script ran out while the program was still waiting. *)
Inductive result (A : Type) : Type :=
| Ok (a : A)
| Raise (e : exn)
| Pending.
Arguments Ok {A} a.
Arguments Raise {A} e.
Arguments Pending {A}.

Definition M (A : Type) : Type := state → state * result A.

#[export] Instance M_ret : MRet M := λ A a s, (s, Ok a).

#[export] Instance M_bind : MBind M := λ A B f m s,
  match m s with
  | (s', Ok a) => f a s'
  | (s', Raise e) => (s', Raise e)
  | (s', Pending) => (s', Pending)
  end.

Notation "m ;; k" := (m ≫= (λ _, k)) (at level 100, k at level 200, right associativity).

Definition raise {A} (e : exn) : M A := λ s, (s, Raise e).

Definition lift {A} (x : raising A) : M A :=
  match x with inr a => mret a | inl e => raise e end.

Definition get_state : M state := λ s, (s, Ok s).

Definition log (ev : event) : M unit := λ s,
  (mkState (trace s ++ [ev]) (bus s) (fd_passing_enabled s)
           (n_calls s) (n_waits s) (grabber s), Ok tt).

Definition set_fd_passing_enabled (fd : bool) : M unit := λ s,
  (mkState (trace s) (bus s) fd (n_calls s) (n_waits s) (grabber s), Ok tt).

Definition set_bus_object : M unit := λ s,
  (mkState (trace s) true (fd_passing_enabled s) (n_calls s) (n_waits s) (grabber s),
   Ok tt).

Definition set_grabber : M unit := λ s,
  (mkState (trace s) (bus s) (fd_passing_enabled s) (n_calls s) (n_waits s) true,
   Ok tt).

Definition next_call : M nat := λ s,
  (mkState (trace s) (bus s) (fd_passing_enabled s) (S (n_calls s)) (n_waits s)
           (grabber s), Ok (n_calls s)).

Definition next_wait : M nat := λ s,
  (mkState (trace s) (bus s) (fd_passing_enabled s) (n_calls s) (S (n_waits s))
           (grabber s), Ok (n_waits s)).

(** [try: body finally: fin] *)
Definition try_finally {A} (body : M A) (fin : M unit) : M A := λ s,
  match body s with
  | (s', Pending) => (s', Pending)
  | (s', r) =>
      match fin s' with
      | (s'', Ok _) => (s'', r)
      | (s'', Raise e) => (s'', Raise e)
      | (s'', Pending) => (s'', Pending)
      end
  end.

(** [try: body except Exception: pass] *)
Definition try_pass (body : M unit) : M unit := λ s,
  match body s with
  | (s', Raise _) => (s', Ok tt)
  | other => other
  end.

(** [assert self.bus is not None] *)
Definition assert_bus : M unit :=
  s ← get_state; if bus s then mret tt else raise AssertionError.

(** ** [RawPortalScreencast] *)

Record PortalStreamInfo : Type := mkStreamInfo {
  node_id : Z;
  width : Z;
  height : Z;
  framerate : option (Z * Z)
}.

(** [d.get(key, default)] *)
Definition get_default (d : list (pyval * pyval)) (key : string) (default : pyval)
  : pyval :=
  match dict_get d (PStr key) with Some v => v | None => default end.

(** One turn of the loop over [streams] in [start]. *)
Definition parse_entry (entry : pyval) : raising PortalStreamInfo :=
  e0 ← index entry 0;
  node_id ← int_of e0;
  e1 ← index entry 1;
  match (if truthy e1 then e1 else PDict []) with
  | PDict props =>
      size ← unwrap_exn (get_default props "size" (PTuple [PInt 0; PInt 0]));
      fr ← unwrap_exn (get_default props "framerate" PNone);
      wh ← match size return raising (Z * Z) with
           | PList (a :: b :: _) => w ← int_of a; h ← int_of b; mret (w, h)
           | _ => mret (0, 0)
           end;
      fr_t ← match fr return raising (option (Z * Z)) with
             | PList [a; b] => x ← int_of a; y ← int_of b; mret (Some (x, y))
             | _ => mret None
             end;
      mret (mkStreamInfo node_id wh.1 wh.2 fr_t)
  | _ => inl AttributeError
  end.

(** [for entry in streams] *)
Definition iterate (v : pyval) : raising (list pyval) :=
  match v with
  | PList xs | PTuple xs => inr xs
  | PDict items => inr (items.*1)
  | _ => inl TypeError
  end.

Section client.
Variable w : world.

Definition connect : M unit :=
  if ctor_takes_fd_flag w then
    set_bus_object;;
    log (EvBusConnect true);;
    (if bus_connects w then mret tt else raise (OtherError "bus.connect"));;
    set_fd_passing_enabled true
  else
    set_bus_object;;
    log (EvBusConnect false);;
    (if bus_connects w then mret tt else raise (OtherError "bus.connect"));;
    set_fd_passing_enabled false.

Definition call_with_reply (path : pyval) (interface member signature : string)
  : M Message :=
  assert_bus;;
  log (EvCall path interface member signature);;
  n ← next_call;
  reply ← lift (reply_to w n);
  if is_error (message_type reply)
  then raise (RuntimeError (DBusCallError interface member))
  else mret reply.

Definition call (path : pyval) (interface member signature : string) : M pyval :=
  reply ← call_with_reply path interface member signature;
  lift (unwrap_exn (PList (body reply))).

Definition wait_request_response (request_path : pyval) (timeout_s : Z)
  : M Response :=
  assert_bus;;
  expected ← lift (unwrap_exn request_path);
  log EvAddHandler;;
  try_finally
    (n ← next_wait;
     log (EvWait timeout_s);;
     match deliver expected (inbox w n) with
     | Some r => log (EvResolved (response r));; mret r
     | None => raise TimeoutError
     end)
    (try_pass (log EvRemoveHandler)).

Definition create_session : M pyval :=
  body ← call (PStr DESKTOP_PATH) IFACE_SCREENCAST "CreateSession" "a{sv}";
  request_path ← lift (index body 0);
  resp ← wait_request_response request_path 30;
  if negb (response resp =? 0)
  then raise (RuntimeError (StepFailed CreateSession (response resp)))
  else
    session_handle ← lift (unwrap_exn (get_default (results resp) "session_handle" PNone));
    if negb (truthy session_handle)
    then raise (RuntimeError NoSessionHandle)
    else mret session_handle.

Definition select_sources (session_handle : pyval) : M unit :=
  body ← call (PStr DESKTOP_PATH) IFACE_SCREENCAST "SelectSources" "oa{sv}";
  request_path ← lift (index body 0);
  resp ← wait_request_response request_path 60;
  if negb (response resp =? 0)
  then raise (RuntimeError (StepFailed SelectSources (response resp)))
  else mret tt.

Definition start (session_handle : pyval) : M (list PortalStreamInfo) :=
  body ← call (PStr DESKTOP_PATH) IFACE_SCREENCAST "Start" "osa{sv}";
  request_path ← lift (index body 0);
  resp ← wait_request_response request_path 90;
  if negb (response resp =? 0)
  then raise (RuntimeError (StepFailed Start (response resp)))
  else
    streams ← lift (unwrap_exn (get_default (results resp) "streams" PNone));
    if negb (truthy streams)
    then raise (RuntimeError NoStreams)
    else
      entries ← lift (iterate streams);
      lift (mapM parse_entry entries).

Definition open_pipewire_remote (session_handle : pyval) : M Z :=
  s ← get_state;
  if negb (fd_passing_enabled s)
  then raise (RuntimeError FdPassingUnsupported)
  else
    reply ← call_with_reply (PStr DESKTOP_PATH) IFACE_SCREENCAST
              "OpenPipeWireRemote" "oa{sv}";
    if bool_decide (unix_fds reply = [])
    then raise (RuntimeError NoUnixFds)
    else
      fd_handle ← lift (list_index (body reply) 0);
      fd_handle ← match fd_handle with
                  | PVariant _ _ => lift (unwrap_exn fd_handle)
                  | _ => mret fd_handle
                  end;
      fd_index ← lift (int_of fd_handle);
      lift (list_index (unix_fds reply) fd_index).

Definition close_session (session_handle : pyval) : M unit :=
  try_pass (call session_handle IFACE_SESSION "Close" "";; mret tt).

(** ** [GstPipeWireCallbackGrabber] *)

Definition grabber_start (portal_fd node_id fps : Z) : M unit :=
  match pipeline w with
  | PipelineRaises => raise (OtherError "Gst.parse_launch")
  | PipelineNoSink => raise (RuntimeError AppsinkNotFound)
  | PipelineOk => log (EvGrabberStart portal_fd node_id fps)
  end.

Definition grabber_stop : M unit := log EvGrabberStop.

(** ** [stream_wayland] *)

(** The [while True] loop, one scripted turn at a time; the queue is the
    grabber's. The statistics line, printed off the wall clock, is left
    out. *)
Fixpoint stream_loop (maxw maxh : Z) (ts : list turn) (q : list Resize.image)
  : M unit :=
  match ts with
  | [] => λ s, (s, Pending)
  | t :: rest =>
      let q := match Bridge.run_pushes q (pushed t) with
               | inr q' => q'
               | inl _ => q
               end in
      got ← lift (Bridge.get_frame q 3 (arrival t));
      match got.1 with
      | None =>
          log (EvPrint "No frames yet (waiting...)");;
          stream_loop maxw maxh rest got.2
      | Some frame =>
          frame ← match Resize.Linux.resize_to_max frame maxw maxh with
                  | Some f => mret f
                  | None => raise ZeroDivisionError
                  end;
          match encode t with
          | EncodeRaises => raise (OtherError "cv2.imencode")
          | EncodeNotOk => stream_loop maxw maxh rest got.2
          | EncodeOk =>
              (if send_ok t then log (EvWsSend frame)
               else raise (OtherError "ws.send"));;
              stream_loop maxw maxh rest got.2
          end
      end
  end.

(** The [try] block of [stream_wayland]. *)
Definition session_body (session : pyval) (fps maxw maxh : Z) : M unit :=
  select_sources session;;
  streams ← start session;
  s ← lift (list_index streams 0);
  pw_fd ← open_pipewire_remote session;
  set_grabber;;
  grabber_start pw_fd (node_id s) fps;;
  stream_loop maxw maxh (turns w) [].

(** Its [finally] block. *)
Definition session_cleanup (session : pyval) : M unit :=
  s ← get_state;
  (if grabber s then try_pass grabber_stop else mret tt);;
  close_session session.

Definition stream_wayland (api_base room player : string) (fps quality maxw maxh : Z)
  : M unit :=
  let ws_url := Url.Linux.build_ws_url api_base room player in
  if negb (is_wayland w) then mret tt
  else if negb (ws_connects w) then raise (OtherError "websockets.connect")
  else
    log (EvWsConnect ws_url);;
    try_finally
      (connect;;
       session ← create_session;
       try_finally (session_body session fps maxw maxh) (session_cleanup session))
      (log EvWsClose).

End client.

(** ** Scripted environments *)

Definition method_return (body : list pyval) (fds : list Z) : Message :=
  mkMessage METHOD_RETURN "" "" "" body fds.

Definition error_reply : Message := mkMessage ERROR "" "" "" [] [].

(** A [Response] signal of the [Request] object at [path]. *)
Definition response_signal (path : string) (code : Z) (results : list (pyval * pyval))
  : Message :=
  mkMessage SIGNAL path IFACE_REQUEST "Response" [PInt code; PDict results] [].

Definition session_results : list (pyval * pyval) :=
  [(PStr "session_handle", PVariant "s" (PStr "/session/1"))].

Definition stream_results : list (pyval * pyval) :=
  [(PStr "streams",
    PVariant "a(ua{sv})"
      (PList [PTuple [PInt 42;
                      PDict [(PStr "size",
                              PVariant "(ii)" (PTuple [PInt 1920; PInt 1080]))]]]))].

(** The portal grants everything: request [n] is answered on [/request/n]
    with code 0. *)
Definition granted_replies (n : nat) : raising Message :=
  match n with
  | 0%nat => inr (method_return [PStr "/request/0"] [])
  | 1%nat => inr (method_return [PStr "/request/1"] [])
  | 2%nat => inr (method_return [PStr "/request/2"] [])
  | 3%nat => inr (method_return [PInt 0] [7])
  | _ => inr (method_return [] [])
  end.

Definition granted_inbox (n : nat) : list Message :=
  match n with
  | 0%nat => [response_signal "/request/0" 0 session_results]
  | 1%nat => [response_signal "/request/1" 0 []]
  | 2%nat => [response_signal "/request/2" 0 stream_results]
  | _ => []
  end.

Definition frame_1080p (n : N) : Resize.image := Resize.Captured 1080 1920 n.

Definition granted : world :=
  mkWorld true true true true granted_replies granted_inbox PipelineOk
    [mkTurn [frame_1080p 1] None EncodeOk true;
     mkTurn [] None EncodeOk true;
     mkTurn [frame_1080p 2; frame_1080p 3; frame_1080p 4] None EncodeOk true].

Definition run (w : world) : state * result unit :=
  stream_wayland w "https://www.vpinleaders.com" "ROOM" "p1" 10 65 1280 720 init.

(** ** Running the client: one equation per function *)

(** The state after logging [tr], issuing [dc] calls and starting [dw]
    waits. *)
Definition advance (s : state) (tr : list event) (dc dw : nat) : state :=
  mkState (trace s ++ tr) (bus s) (fd_passing_enabled s)
          (dc + n_calls s) (dw + n_waits s) (grabber s).

Lemma trace_advance s tr dc dw : trace (advance s tr dc dw) = trace s ++ tr.
Proof. reflexivity. Qed.

Lemma advance_nil s : advance s [] 0 0 = s.
Proof. destruct s. unfold advance. simpl. by rewrite app_nil_r. Qed.

Lemma advance_advance s tr1 tr2 c1 c2 w1 w2 :
  advance (advance s tr1 c1 w1) tr2 c2 w2
  = advance s (tr1 ++ tr2) (c2 + c1) (w2 + w1).
Proof. unfold advance. simpl. rewrite <- app_assoc. f_equal; lia. Qed.

Ltac unfold_monad :=
  cbv beta iota zeta delta
    [mbind M_bind mret M_ret raise lift get_state log set_bus_object
     set_fd_passing_enabled set_grabber next_call next_wait try_finally
     try_pass assert_bus].

(** ** The protocol, as read off a trace *)

(** The ScreenCast calls issued and the response codes that resolved the
    waits, in order. *)
Definition view (ev : event) : option (string + Z) :=
  match ev with
  | EvCall _ interface member _ =>
      if String.eqb interface IFACE_SCREENCAST then Some (inl member) else None
  | EvResolved code => Some (inr code)
  | _ => None
  end.

Definition protocol (tr : list event) : list (string + Z) := omap view tr.

(** The full negotiation. *)
Definition negotiation : list (string + Z) :=
  [inl "CreateSession"; inr 0; inl "SelectSources"; inr 0;
   inl "Start"; inr 0; inl "OpenPipeWireRemote"].

(** What one of the three signalled steps leaves behind: its call, then
    at most the code that resolved its wait, which is 0 if it returns. *)
Definition step_post {A} (nm : string) (s : state) (out : state * result A) : Prop :=
  ∃ tr dw,
    out.1 = advance s tr 1 dw ∧
    match out.2 with
    | Ok _ => protocol tr = [inl nm; inr 0]
    | Raise _ => protocol tr = [inl nm] ∨ ∃ c, protocol tr = [inl nm; inr c]
    | Pending => False
    end.

(** A protocol view is in order when it is a prefix of the negotiation,
    or such a prefix up to a call followed by a code other than 0. *)
Definition in_order (v : list (string + Z)) : Prop :=
  (∃ k, v = take k negotiation) ∨
  (∃ j c, (j ≤ 2)%nat ∧ c ≠ 0 ∧ v = take (2 * j + 1) negotiation ++ [inr c]).

(** [s'] is [s] after the events [tr]; the bus and what it negotiated at
    connect are the same. *)
Definition extends (s s' : state) (tr : list event) : Prop :=
  trace s' = trace s ++ tr ∧ bus s' = bus s ∧
  fd_passing_enabled s' = fd_passing_enabled s.

#[local] Arguments call : simpl never.
#[local] Arguments call_with_reply : simpl never.
#[local] Arguments wait_request_response : simpl never.
#[local] Arguments advance : simpl never.

Section runs.
Variable w : world.

Lemma bind_run {A B} (m : M A) (k : A → M B) s :
  (m ≫= k) s =
  match m s with
  | (s', Ok a) => k a s'
  | (s', Raise e) => (s', Raise e)
  | (s', Pending) => (s', Pending)
  end.
Proof. reflexivity. Qed.

Lemma log_run ev s : log ev s = (advance s [ev] 0 0, Ok tt).
Proof. reflexivity. Qed.

Lemma call_with_reply_run p i m sg s :
  bus s = true →
  call_with_reply w p i m sg s =
  (advance s [EvCall p i m sg] 1 0,
   match reply_to w (n_calls s) with
   | inl e => Raise e
   | inr reply =>
       if is_error (message_type reply) then Raise (RuntimeError (DBusCallError i m))
       else Ok reply
   end).
Proof.
  intros Hb. unfold call_with_reply. unfold_monad. simpl. rewrite Hb. simpl.
  unfold advance. simpl.
  destruct (reply_to w (n_calls s)) as [e|reply]; simpl; [done|].
  by destruct (is_error (message_type reply)).
Qed.

Lemma call_run p i m sg s :
  bus s = true →
  call w p i m sg s =
  (advance s [EvCall p i m sg] 1 0,
   match reply_to w (n_calls s) with
   | inl e => Raise e
   | inr reply =>
       if is_error (message_type reply) then Raise (RuntimeError (DBusCallError i m))
       else match unwrap_exn (PList (body reply)) with
            | inr b => Ok b
            | inl e => Raise e
            end
   end).
Proof.
  intros Hb. unfold call. unfold mbind at 1. unfold M_bind.
  rewrite call_with_reply_run by done.
  destruct (reply_to w (n_calls s)) as [e|reply]; [done|].
  destruct (is_error (message_type reply)); [done|].
  unfold lift. by destruct (unwrap_exn _).
Qed.

Lemma wait_request_response_run request_path timeout_s s :
  bus s = true →
  wait_request_response w request_path timeout_s s =
  match unwrap_exn request_path with
  | inl e => (s, Raise e)
  | inr expected =>
      match deliver expected (inbox w (n_waits s)) with
      | Some r =>
          (advance s [EvAddHandler; EvWait timeout_s; EvResolved (response r);
                      EvRemoveHandler] 0 1, Ok r)
      | None =>
          (advance s [EvAddHandler; EvWait timeout_s; EvRemoveHandler] 0 1,
           Raise TimeoutError)
      end
  end.
Proof.
  intros Hb. unfold wait_request_response. unfold_monad. simpl. rewrite Hb. simpl.
  destruct (unwrap_exn request_path) as [e|expected]; simpl; [done|].
  destruct (deliver expected (inbox w (n_waits s))) as [r|]; simpl;
    unfold advance; simpl; by rewrite <- !app_assoc.
Qed.

(** The common opening of [create_session], [select_sources] and [start]:
    the call, its request path, the wait. Either it raises after the call
    alone, or the wait times out, or the rest of the function runs on the
    response that resolved the future. *)
Lemma request_run {A} nm sg timeout_s (k : Response → M A) s :
  bus s = true →
  let m : M A :=
    body ← call w (PStr DESKTOP_PATH) IFACE_SCREENCAST nm sg;
    request_path ← lift (index body 0);
    resp ← wait_request_response w request_path timeout_s;
    k resp in
  let ev := EvCall (PStr DESKTOP_PATH) IFACE_SCREENCAST nm sg in
  (∃ e, m s = (advance s [ev] 1 0, Raise e)) ∨
  m s = (advance s [ev; EvAddHandler; EvWait timeout_s; EvRemoveHandler] 1 1,
         Raise TimeoutError) ∨
  (∃ r expected,
     deliver expected (inbox w (n_waits s)) = Some r ∧
     m s = k r (advance s [ev; EvAddHandler; EvWait timeout_s;
                           EvResolved (response r); EvRemoveHandler] 1 1)).
Proof.
  intros Hb m ev. remember (m s) as out eqn:E. subst m.
  unfold mbind at 1 in E. unfold M_bind at 1 in E.
  rewrite call_run in E by done. fold ev in E.
  destruct (reply_to w (n_calls s)) as [e|reply]; [by left; eexists|].
  destruct (is_error (message_type reply)); [by left; eexists|].
  destruct (unwrap_exn (PList (body reply))) as [e|b]; [by left; eexists|].
  unfold mbind at 1 in E. unfold M_bind at 1 in E.
  destruct (index b 0) as [e|rp]; simpl in E; [by left; eexists|].
  unfold mbind at 1 in E. unfold M_bind at 1 in E.
  rewrite wait_request_response_run in E by done.
  destruct (unwrap_exn rp) as [e|expected]; [by left; eexists|].
  simpl n_waits in E.
  destruct (deliver expected (inbox w (n_waits s))) as [r|] eqn:Hr.
  - right. right. exists r, expected. split; [done|].
    by rewrite advance_advance in E.
  - right. left. by rewrite advance_advance in E.
Qed.

Ltac step_done :=
  eexists _, _; split; [reflexivity|]; simpl; eauto.

Lemma create_session_post s :
  bus s = true → step_post "CreateSession" s (create_session w s).
Proof.
  intros Hb. unfold create_session.
  edestruct (request_run (A:=pyval) "CreateSession" "a{sv}" 30) as [[e ->]|[->|(r & ex & _ & ->)]];
    [exact Hb|step_done|step_done|].
  destruct (Z.eqb_spec (response r) 0) as [Hz|Hz]; simpl; [|step_done].
  rewrite Hz. unfold mbind at 1. unfold M_bind at 1.
  destruct (unwrap_exn _) as [e|h]; simpl; [step_done|].
  destruct (truthy h); simpl; step_done.
Qed.

Lemma select_sources_post session s :
  bus s = true → step_post "SelectSources" s (select_sources w session s).
Proof.
  intros Hb. unfold select_sources.
  edestruct (request_run (A:=unit) "SelectSources" "oa{sv}" 60) as [[e ->]|[->|(r & ex & _ & ->)]];
    [exact Hb|step_done|step_done|].
  destruct (Z.eqb_spec (response r) 0) as [Hz|Hz]; simpl; [|step_done].
  rewrite Hz. step_done.
Qed.

Lemma start_post session s :
  bus s = true → step_post "Start" s (start w session s).
Proof.
  intros Hb. unfold start.
  edestruct (request_run (A:=list PortalStreamInfo) "Start" "osa{sv}" 90)
    as [[e ->]|[->|(r & ex & _ & ->)]];
    [exact Hb|step_done|step_done|].
  destruct (Z.eqb_spec (response r) 0) as [Hz|Hz]; simpl; [|step_done].
  rewrite Hz. unfold mbind at 1. unfold M_bind at 1.
  destruct (unwrap_exn _) as [e|streams]; simpl; [step_done|].
  destruct (truthy streams); simpl; [|step_done].
  unfold mbind at 1. unfold M_bind at 1.
  destruct (iterate streams) as [e|entries]; simpl; [step_done|].
  destruct (mapM parse_entry entries); simpl; step_done.
Qed.

Lemma open_pipewire_remote_disabled session s :
  fd_passing_enabled s = false →
  open_pipewire_remote w session s = (s, Raise (RuntimeError FdPassingUnsupported)).
Proof.
  intros Hfd. unfold open_pipewire_remote.
  unfold mbind at 1. unfold M_bind at 1. unfold get_state. by rewrite Hfd.
Qed.

Lemma open_pipewire_remote_enabled session s :
  fd_passing_enabled s = true → bus s = true →
  ∃ r, open_pipewire_remote w session s =
       (advance s [EvCall (PStr DESKTOP_PATH) IFACE_SCREENCAST
                     "OpenPipeWireRemote" "oa{sv}"] 1 0, r) ∧
       r ≠ Pending.
Proof.
  intros Hfd Hb. unfold open_pipewire_remote.
  unfold mbind at 1. unfold M_bind at 1. unfold get_state. rewrite Hfd.
  change (negb true) with false. cbv beta iota.
  unfold mbind at 1. unfold M_bind at 1.
  rewrite call_with_reply_run by done.
  destruct (reply_to w (n_calls s)) as [e|reply]; [by eexists|].
  destruct (is_error (message_type reply)); [by eexists|].
  destruct (bool_decide (unix_fds reply = [])); [by eexists|].
  unfold mbind at 1. unfold M_bind at 1.
  destruct (list_index (body reply) 0) as [e|h]; simpl; [by eexists|].
  unfold mbind at 1. unfold M_bind at 1.
  assert (Hh : ∀ (m : M pyval) s0, (m = mret h ∨ m = lift (unwrap_exn h)) →
               ∃ r', m s0 = (s0, r') ∧ r' ≠ Pending).
  { intros m s0 [-> | ->]; [by eexists|].
    unfold lift. destruct (unwrap_exn h); by eexists. }
  edestruct Hh as (r' & -> & Hr');
    [destruct h; (by left) || (by right)|].
  destruct r' as [h'|e|]; [|by eexists|done].
  unfold mbind at 1. unfold M_bind at 1.
  destruct (int_of h') as [e|i]; simpl; [by eexists|].
  destruct (list_index (unix_fds reply) i); simpl; by eexists.
Qed.

Lemma close_session_run session s :
  bus s = true →
  close_session w session s =
  (advance s [EvCall session IFACE_SESSION "Close" ""] 1 0, Ok tt).
Proof.
  intros Hb. unfold close_session, try_pass.
  unfold mbind at 1. unfold M_bind at 1.
  rewrite call_run by done.
  destruct (reply_to w (n_calls s)) as [e|reply]; [done|].
  destruct (is_error (message_type reply)); [done|].
  by destruct (unwrap_exn _).
Qed.

Lemma close_session_ok session s : (close_session w session s).2 = Ok tt.
Proof.
  destruct (bus s) eqn:Hb; [by rewrite close_session_run|].
  unfold close_session, call, call_with_reply. unfold_monad. by rewrite Hb.
Qed.

Lemma session_cleanup_run session s :
  bus s = true →
  session_cleanup w session s =
  (advance s ((if grabber s then [EvGrabberStop] else [])
              ++ [EvCall session IFACE_SESSION "Close" ""]) 1 0, Ok tt).
Proof.
  intros Hb. unfold session_cleanup.
  unfold mbind at 1. unfold M_bind at 1. unfold get_state.
  unfold mbind at 1. unfold M_bind at 1.
  destruct (grabber s) eqn:Hg.
  - unfold try_pass, grabber_stop. rewrite log_run.
    rewrite close_session_run by done. by rewrite advance_advance.
  - unfold mret, M_ret. by rewrite close_session_run by done.
Qed.

(** ** Composition *)

Lemma extends_refl s : extends s s [].
Proof. unfold extends. by rewrite app_nil_r. Qed.

Lemma extends_advance s tr dc dw : extends s (advance s tr dc dw) tr.
Proof. done. Qed.

Lemma extends_trans s1 s2 s3 tr1 tr2 :
  extends s1 s2 tr1 → extends s2 s3 tr2 → extends s1 s3 (tr1 ++ tr2).
Proof.
  intros (Ht1 & Hb1 & Hf1) (Ht2 & Hb2 & Hf2). unfold extends.
  rewrite Ht2, Ht1, Hb2, Hb1, Hf2, Hf1. by rewrite app_assoc.
Qed.

Lemma protocol_app tr1 tr2 : protocol (tr1 ++ tr2) = protocol tr1 ++ protocol tr2.
Proof. apply omap_app. Qed.

Lemma in_order_prefix k : in_order (take k negotiation).
Proof. left. by exists k. Qed.

Lemma in_order_code j c :
  (j ≤ 2)%nat → in_order (take (2 * j + 1) negotiation ++ [inr c]).
Proof.
  intros Hj. destruct (decide (c = 0)) as [->|Hc].
  - left. exists (2 * j + 2)%nat.
    destruct j as [|[|[|j]]]; [done|done|done|lia].
  - right. by exists j, c.
Qed.

(** The loop sends and prints, nothing else, and does not return. *)
Lemma stream_loop_post maxw maxh ts : ∀ q s,
  ∃ tr,
    (stream_loop maxw maxh ts q s).1 = advance s tr 0 0 ∧
    Forall (λ ev, (∃ f, ev = EvWsSend f) ∨ ∃ line, ev = EvPrint line) tr ∧
    (stream_loop maxw maxh ts q s).2 ≠ Ok tt.
Proof.
  induction ts as [|t rest IH]; intros q s.
  - exists []. by rewrite advance_nil.
  - remember (stream_loop maxw maxh (t :: rest) q s) as out eqn:E.
    cbn [stream_loop] in E.
    set (q1 := match Bridge.run_pushes q (pushed t) with
               | inr q' => q' | inl _ => q end) in E.
    unfold mbind at 1 in E. unfold M_bind at 1 in E.
    destruct (Bridge.get_frame q1 3 (arrival t)) as [e|[frame q2]]; simpl lift in E.
    { subst out. exists []. by rewrite advance_nil. }
    unfold mret at 1, M_ret at 1 in E. cbn [fst snd] in E.
    destruct frame as [frame|].
    + unfold mbind at 1 in E. unfold M_bind at 1 in E.
      destruct (Resize.Linux.resize_to_max frame maxw maxh) as [f|].
      2:{ subst out. exists []. by rewrite advance_nil. }
      unfold mret at 1, M_ret at 1 in E.
      destruct (encode t).
      * unfold mbind at 1 in E. unfold M_bind at 1 in E.
        destruct (send_ok t).
        -- rewrite log_run in E.
           destruct (IH q2 (advance s [EvWsSend f] 0 0)) as (tr & E' & Hf & Hr).
           exists (EvWsSend f :: tr). subst out. rewrite E', advance_advance.
           split; [done|]. split; [|done]. constructor; eauto.
        -- subst out. exists []. by rewrite advance_nil.
      * subst out. apply IH.
      * subst out. exists []. by rewrite advance_nil.
    + unfold mbind at 1 in E. unfold M_bind at 1 in E. rewrite log_run in E.
      destruct (IH q2 (advance s [EvPrint "No frames yet (waiting...)"] 0 0))
        as (tr & E' & Hf & Hr).
      exists (EvPrint "No frames yet (waiting...)" :: tr).
      subst out. rewrite E', advance_advance.
      split; [done|]. split; [|done]. constructor; eauto.
Qed.

Lemma loop_events_protocol tr :
  Forall (λ ev, (∃ f, ev = EvWsSend f) ∨ ∃ line, ev = EvPrint line) tr →
  protocol tr = [].
Proof.
  induction 1 as [|ev tr [[f ->]|[line ->]] _ IH]; [done| |]; exact IH.
Qed.

(** From the grabber on: nothing of the protocol, and no return. *)
Lemma capture_post pw_fd nid fps maxw maxh s :
  let m : M unit :=
    set_grabber;;
    grabber_start w pw_fd nid fps;;
    stream_loop maxw maxh (turns w) [] in
  ∃ tr, extends s (m s).1 tr ∧ protocol tr = [] ∧ (m s).2 ≠ Ok tt ∧
        grabber (m s).1 = true.
Proof.
  intros m. remember (m s) as out eqn:E. subst m.
  unfold mbind at 1 in E. unfold M_bind at 1 in E. unfold set_grabber in E.
  set (s1 := mkState (trace s) (bus s) (fd_passing_enabled s) (n_calls s)
                     (n_waits s) true) in E.
  assert (H1 : extends s s1 []) by (unfold extends; simpl; by rewrite app_nil_r).
  unfold mbind at 1 in E. unfold M_bind at 1 in E. unfold grabber_start in E.
  destruct (pipeline w).
  - rewrite log_run in E.
    destruct (stream_loop_post maxw maxh (turns w) []
                (advance s1 [EvGrabberStart pw_fd nid fps] 0 0))
      as (tr & E' & Hf & Hr).
    rewrite <- E in E', Hr. exists ([] ++ [EvGrabberStart pw_fd nid fps] ++ tr).
    split; [|split; [|split]].
    + eapply extends_trans; [exact H1|]. rewrite E', advance_advance.
      apply extends_advance.
    + simpl. by apply loop_events_protocol.
    + done.
    + by rewrite E'.
  - subst out. exists []. by split.
  - subst out. exists []. by split.
Qed.

Lemma session_body_post session fps maxw maxh s :
  bus s = true →
  ∃ tr,
    extends s (session_body w session fps maxw maxh s).1 tr ∧
    (session_body w session fps maxw maxh s).2 ≠ Ok tt ∧
    in_order (take 2 negotiation ++ protocol tr) ∧
    (fd_passing_enabled s = false →
     Forall (λ x, x ≠ inl "OpenPipeWireRemote") (protocol tr) ∧
     (session_body w session fps maxw maxh s).2 ≠ Pending).
Proof.
  intros Hb. remember (session_body w session fps maxw maxh s) as out eqn:E.
  unfold session_body in E. unfold mbind at 1 in E. unfold M_bind at 1 in E.
  destruct (select_sources_post session s Hb) as (tr1 & dw1 & E1 & P1).
  destruct (select_sources w session s) as [s1 r1]. simpl in E1, P1. subst s1.
  destruct r1 as [[]|e|]; [|subst out; exists tr1|done].
  2:{ split; [apply extends_advance|]. split; [done|].
      destruct P1 as [->|[c ->]].
      - split; [apply (in_order_prefix 3)|]. intros _.
        split; [by repeat constructor|done].
      - split; [apply (in_order_code 1); lia|]. intros _.
        split; [by repeat constructor|done]. }
  unfold mbind at 1 in E. unfold M_bind at 1 in E.
  destruct (start_post session (advance s tr1 1 dw1) Hb) as (tr2 & dw2 & E2 & P2).
  destruct (start w session (advance s tr1 1 dw1)) as [s2 r2]. simpl in E2, P2.
  subst s2. rewrite advance_advance in E.
  destruct r2 as [streams|e|]; [|subst out; exists (tr1 ++ tr2)|done].
  2:{ split; [apply extends_advance|]. split; [done|].
      rewrite protocol_app, P1.
      destruct P2 as [->|[c ->]].
      - split; [apply (in_order_prefix 5)|]. intros _.
        split; [by repeat constructor|done].
      - split; [apply (in_order_code 2); lia|]. intros _.
        split; [by repeat constructor|done]. }
  unfold mbind at 1 in E. unfold M_bind at 1 in E.
  destruct (list_index streams 0) as [e|info]; simpl lift in E.
  { subst out. exists (tr1 ++ tr2).
    split; [apply extends_advance|]. split; [done|].
    rewrite protocol_app, P1, P2.
    split; [apply (in_order_prefix 6)|]. intros _.
    split; [by repeat constructor|done]. }
  unfold mret at 1, M_ret at 1 in E.
  unfold mbind at 1 in E. unfold M_bind at 1 in E.
  set (s2 := advance s (tr1 ++ tr2) _ _) in E.
  destruct (fd_passing_enabled s) eqn:Hfd.
  - destruct (open_pipewire_remote_enabled session s2) as (r3 & E3 & Hr3); [done|done|].
    rewrite E3 in E. unfold s2 in E. rewrite advance_advance in E.
    set (ev := EvCall _ _ "OpenPipeWireRemote" _) in E.
    destruct r3 as [pw_fd|e|]; [|subst out; exists ((tr1 ++ tr2) ++ [ev])|done].
    2:{ split; [apply extends_advance|]. split; [done|].
        rewrite !protocol_app, P1, P2.
        split; [apply (in_order_prefix 7)|done]. }
    match type of E with _ = ?m ?s3 =>
      destruct (capture_post pw_fd (node_id info) fps maxw maxh s3)
        as (tr4 & X4 & P4 & R4 & _)
    end.
    cbv zeta in X4, R4. rewrite <- E in X4, R4.
    exists (((tr1 ++ tr2) ++ [ev]) ++ tr4).
    split; [eapply extends_trans; [apply extends_advance|exact X4]|].
    split; [done|].
    rewrite !protocol_app, P1, P2, P4.
    split; [apply (in_order_prefix 7)|done].
  - rewrite open_pipewire_remote_disabled in E by done.
    subst out. exists (tr1 ++ tr2).
    split; [apply extends_advance|]. split; [done|].
    rewrite protocol_app, P1, P2.
    split; [apply (in_order_prefix 6)|]. intros _.
    split; [by repeat constructor|done].
Qed.

(** ** The whole of [stream_wayland] *)

Lemma connect_run s :
  connect w s =
  let flag := ctor_takes_fd_flag w in
  if bus_connects w then
    (mkState (trace s ++ [EvBusConnect flag]) true flag
             (n_calls s) (n_waits s) (grabber s), Ok tt)
  else
    (mkState (trace s ++ [EvBusConnect flag]) true (fd_passing_enabled s)
             (n_calls s) (n_waits s) (grabber s),
     Raise (OtherError "bus.connect")).
Proof.
  unfold connect. destruct (ctor_takes_fd_flag w), (bus_connects w); reflexivity.
Qed.

(** The [try ... finally] around the session. *)
Lemma session_scope_run session fps maxw maxh s :
  bus s = true →
  let out := session_body w session fps maxw maxh s in
  try_finally (session_body w session fps maxw maxh) (session_cleanup w session) s =
  match out.2 with
  | Pending => out
  | r =>
      (advance out.1
         ((if grabber out.1 then [EvGrabberStop] else [])
          ++ [EvCall session IFACE_SESSION "Close" ""]) 1 0, r)
  end.
Proof.
  intros Hb out.
  destruct (session_body_post session fps maxw maxh s Hb) as (tr & (_ & Hb' & _) & _).
  fold out in Hb'. rewrite Hb in Hb'.
  unfold try_finally. fold out. destruct out as [s' r]. simpl in *.
  destruct r; rewrite ?session_cleanup_run by done; done.
Qed.

(** The states of a run that got its session: after [connect], and after
    [create_session] returned the handle. *)
Definition url_of (api_base room player : string) : string :=
  Url.Linux.build_ws_url api_base room player.

Definition opened (api_base room player : string) : state :=
  advance init [EvWsConnect (url_of api_base room player)] 0 0.

Lemma stream_wayland_run api room player fps quality maxw maxh :
  is_wayland w = true → ws_connects w = true →
  stream_wayland w api room player fps quality maxw maxh init =
  let inner :=
    (connect w;;
     session ← create_session w;
     try_finally (session_body w session fps maxw maxh) (session_cleanup w session))
      (opened api room player) in
  match inner.2 with
  | Pending => inner
  | r => (advance inner.1 [EvWsClose] 0 0, r)
  end.
Proof.
  intros Hw Hc. unfold stream_wayland. rewrite Hw, Hc. cbn [negb].
  unfold mbind at 1. unfold M_bind at 1. rewrite log_run.
  fold (url_of api room player). fold (opened api room player).
  unfold try_finally at 1.
  match goal with |- context [let (_, _) := ?m ?s in _] =>
    destruct (m s) as [s' r] end.
  cbn [fst snd]. by destruct r.
Qed.

(** The protocol of any run, and what a bus without descriptor passing
    adds to it. *)
Lemma stream_wayland_protocol api room player fps quality maxw maxh :
  let out := stream_wayland w api room player fps quality maxw maxh init in
  in_order (protocol (trace out.1)) ∧
  (ctor_takes_fd_flag w = false →
   Forall (λ x, x ≠ inl "OpenPipeWireRemote") (protocol (trace out.1)) ∧
   out.2 ≠ Pending).
Proof.
  intros out.
  destruct (is_wayland w) eqn:Hw.
  2:{ subst out. unfold stream_wayland. rewrite Hw. simpl.
      split; [apply (in_order_prefix 0)|done]. }
  destruct (ws_connects w) eqn:Hc.
  2:{ subst out. unfold stream_wayland. rewrite Hw, Hc. simpl.
      split; [apply (in_order_prefix 0)|done]. }
  subst out. rewrite stream_wayland_run by done. cbv zeta.
  rewrite bind_run, connect_run.
  destruct (bus_connects w) eqn:Hbc; cbv zeta.
  2:{ simpl. split; [apply (in_order_prefix 0)|done]. }
  set (s1 := mkState _ true _ _ _ _). cbv beta iota.
  rewrite bind_run.
  destruct (create_session_post s1 eq_refl) as (tr1 & dw1 & E1 & P1).
  destruct (create_session w s1) as [s2 r2]. simpl in E1, P1. subst s2.
  assert (Hs1 : protocol (trace s1) = []) by done.
  destruct r2 as [session|e|]; [|cbn [fst snd]|done].
  2:{ rewrite !trace_advance, !protocol_app, Hs1, app_nil_r. cbn [app].
      destruct P1 as [->|[c ->]].
      - split; [apply (in_order_prefix 1)|]. intros _. split; [by repeat constructor|done].
      - split; [apply (in_order_code 0); lia|]. intros _.
        split; [by repeat constructor|done]. }
  rewrite session_scope_run by done.
  destruct (session_body_post session fps maxw maxh (advance s1 tr1 1 dw1) eq_refl)
    as (tr2 & (Ht & _ & _) & Hnok & Hord & Hfd).
  change (trace (advance s1 tr1 1 dw1)) with (trace s1 ++ tr1) in Ht.
  change (fd_passing_enabled (advance s1 tr1 1 dw1)) with (ctor_takes_fd_flag w) in Hfd.
  destruct (session_body w session fps maxw maxh (advance s1 tr1 1 dw1))
    as [s3 r3]. cbn [fst snd] in *.
  assert (Hp : protocol (trace s3) = take 2 negotiation ++ protocol tr2).
  { rewrite Ht, !protocol_app, Hs1, P1. done. }
  destruct r3 as [[]|e|]; [done| |].
  - cbn [fst snd]. rewrite !trace_advance, !protocol_app, Hp.
    replace (protocol (if grabber s3 then [EvGrabberStop] else [])) with
      (@nil (string + Z)) by by destruct (grabber s3).
    change (protocol [EvCall session IFACE_SESSION "Close" ""]) with (@nil (string + Z)).
    change (protocol [EvWsClose]) with (@nil (string + Z)).
    rewrite !app_nil_r.
    split; [done|]. intros H. destruct (Hfd H) as [HF _].
    split; [|done]. apply Forall_app. split; [by repeat constructor|done].
  - cbn [fst snd]. rewrite Hp.
    split; [done|]. intros H. destruct (Hfd H) as [HF HP].
    split; [|done]. apply Forall_app. split; [by repeat constructor|done].
Qed.

End runs.

(** In an ordered view a call is issued only after every earlier step was
    answered with code 0. *)
Lemma in_order_prior_zero v i nm j :
  in_order v → v !! (2 * i + 2)%nat = Some (inl nm) → (j ≤ i)%nat →
  v !! (2 * j + 1)%nat = Some (inr 0).
Proof.
  intros [[k ->]|(j' & c & Hj & Hc & ->)] Hi Hji.
  - apply lookup_take_Some in Hi as [Hn Hlt].
    rewrite lookup_take_lt by lia.
    apply lookup_lt_Some in Hn. simpl in Hn.
    destruct j as [|[|[|j]]]; [done|done|done|exfalso; clear -Hn Hji; lia].
  - assert (Hi2 : (i ≤ 2)%nat).
    { apply lookup_lt_Some in Hi. rewrite length_app, length_take in Hi.
      simpl in Hi. lia. }
    destruct j' as [|[|[|j']]]; [| | |exfalso; lia];
      destruct i as [|[|[|i]]]; try (exfalso; lia); simpl in Hi; try done;
      destruct j as [|[|[|j]]]; try (exfalso; lia); done.
Qed.

Lemma in_order_length v : in_order v → (length v ≤ 7)%nat.
Proof.
  intros [[k ->]|(j & c & Hj & Hc & ->)].
  - rewrite length_take. simpl. lia.
  - rewrite length_app, length_take. simpl. lia.
Qed.

(** X25. In every run of [stream_wayland], the ScreenCast calls and the
    response codes that resolved the waits, read off the trace, form a
    prefix of CreateSession, 0, SelectSources, 0, Start, 0,
    OpenPipeWireRemote, or such a prefix up to a call followed by a code
    other than 0, after which nothing is issued: the steps come in this
    order, none is skipped, none is issued twice, and a call is present only
    if the wait of every earlier step was resolved with code 0, by
    whichever [Response] signal resolved it. *)
Theorem negotiation_in_strict_order (w : world) (api room player : string)
    (fps quality maxw maxh : Z) :
  let v := protocol
             (trace (stream_wayland w api room player fps quality maxw maxh init).1) in
  in_order v ∧
  (length v ≤ 7)%nat ∧
  (∀ i nm, v !! (2 * i + 2)%nat = Some (inl nm) →
     negotiation !! (2 * i + 2)%nat = Some (inl nm) ∧
     ∀ j, (j ≤ i)%nat → v !! (2 * j + 1)%nat = Some (inr 0)) ∧
  (∀ nm, v !! 0%nat = Some (inl nm) → nm = "CreateSession") ∧
  (∀ i c, v !! i = Some (inr c) → c ≠ 0 → length v = S i).
Proof.
  intros v.
  destruct (stream_wayland_protocol w api room player fps quality maxw maxh)
    as [Hord _].
  fold v in Hord. split; [done|]. split; [by apply in_order_length|].
  split; [|split].
  - intros i nm Hi. split; [|intros j Hj; by eapply in_order_prior_zero].
    destruct Hord as [[k Hk]|(j' & c & Hj & Hc & Hk)]; rewrite Hk in Hi.
    + by apply lookup_take_Some in Hi as [Hn _].
    + assert (Hi2 : (i ≤ 2)%nat).
      { apply lookup_lt_Some in Hi. rewrite length_app, length_take in Hi.
        simpl in Hi. lia. }
      destruct j' as [|[|[|j']]]; [| | |exfalso; lia];
        destruct i as [|[|[|i]]]; try (exfalso; lia); simpl in Hi; done.
  - intros nm H0.
    destruct Hord as [[k Hk]|(j' & c & Hj & Hc & Hk)]; rewrite Hk in H0.
    + apply lookup_take_Some in H0 as [Hn _]. simpl in Hn. congruence.
    + destruct j' as [|[|[|j']]]; [| | |exfalso; lia]; simpl in H0; congruence.
  - intros i c Hi Hc.
    destruct Hord as [[k Hk]|(j' & c' & Hj & Hc' & Hk)]; rewrite Hk in Hi |- *.
    + apply lookup_take_Some in Hi as [Hn _].
      pose proof (lookup_lt_Some _ _ _ Hn) as Hlen. simpl in Hlen.
      do 7 (destruct i as [|i]; [simpl in Hn; congruence|]). exfalso; lia.
    + pose proof (lookup_lt_Some _ _ _ Hi) as Hlen.
      rewrite length_app, length_take in Hlen. simpl in Hlen.
      destruct j' as [|[|[|j']]]; [| | |exfalso; lia];
        do 7 (destruct i as [|i]; [simpl in Hi; simpl; congruence|]);
        exfalso; simpl in Hlen; lia.
Qed.

(** ** Correlation of signals *)

(** A [Response] signal whose body decodes resolves a pending future,
    whatever its path. *)
Lemma handler_any_path expected p code items decoded :
  decode_results items = Some decoded →
  handler expected None (response_signal p code items)
  = Some (mkResponse code decoded p expected).
Proof.
  intros Hd. unfold handler, decode. simpl.
  destruct items as [|kv items]; simpl in *.
  - by inversion Hd.
  - by rewrite Hd.
Qed.

(** A resolved future is left alone. *)
Lemma handler_done expected r msg : handler expected (Some r) msg = Some r.
Proof.
  unfold handler. destruct (_ && _); [|done]. by destruct (decode msg) as [[]|].
Qed.

(** Messages that are no [Response] signal of the [Request] interface
    leave the future pending. *)
Lemma handler_other expected msg :
  is_signal (message_type msg) && String.eqb (interface msg) IFACE_REQUEST
    && String.eqb (member msg) "Response" = false →
  handler expected None msg = None.
Proof. intros H. unfold handler. by rewrite H. Qed.

(** The portal grants everything, but while [SelectSources] waits on
    [/request/1] a [Response] with code 2 arrives on [/request/0], ahead of
    the one awaited. *)
Definition crosstalk_inbox (n : nat) : list Message :=
  match n with
  | 1%nat => [response_signal "/request/0" 2 []; response_signal "/request/1" 0 []]
  | _ => granted_inbox n
  end.

Definition crosstalk : world :=
  mkWorld true true true true granted_replies crosstalk_inbox PipelineOk [].

(** C1, on the code: the wait for [/request/1] is resolved by the signal
    that arrived on [/request/0], with that signal's code; the result
    records both paths, and [select_sources] fails on a request that was
    granted. *)
Theorem response_on_other_path_resolves :
  deliver (PStr "/request/1")
    [response_signal "/request/0" 2 []; response_signal "/request/1" 0 []]
  = Some (mkResponse 2 [] "/request/0" (PStr "/request/1")) ∧
  (run crosstalk).2 = Raise (RuntimeError (StepFailed SelectSources 2)) ∧
  (run (mkWorld true true true true granted_replies granted_inbox PipelineOk [])).2
  = Pending.
Proof. repeat split; vm_compute; reflexivity. Qed.

(** The portal denies [SelectSources]: the [Response] on [/request/1]
    carries code 2. While the step waits, a [Response] with code 0 arrives
    on [/request/0], the path of the step before, ahead of the denial. *)
Definition late_denial_inbox (n : nat) : list Message :=
  match n with
  | 1%nat => [response_signal "/request/0" 0 []; response_signal "/request/1" 2 []]
  | _ => granted_inbox n
  end.

Definition late_denial : world :=
  mkWorld true true true true granted_replies late_denial_inbox PipelineOk [].

(** C5, on the code. [SelectSources] is answered on [/request/1], and the
    [Response] signal on that path carries code 2; its wait is resolved by
    the signal on [/request/0] that came first, with code 0. [Start] and
    [OpenPipeWireRemote] are issued all the same, the whole negotiation is
    run through and the pipeline is started: later steps are attempted
    although the signal correlated with [SelectSources] did not carry 0. *)
Theorem denied_step_is_followed :
  reply_to late_denial 1 = inr (method_return [PStr "/request/1"] []) ∧
  inbox late_denial 1
  = [response_signal "/request/0" 0 []; response_signal "/request/1" 2 []] ∧
  deliver (PStr "/request/1") (inbox late_denial 1)
  = Some (mkResponse 0 [] "/request/0" (PStr "/request/1")) ∧
  protocol (trace (run late_denial).1) = negotiation ∧
  EvCall (PStr DESKTOP_PATH) IFACE_SCREENCAST "Start" "osa{sv}"
    ∈ trace (run late_denial).1 ∧
  EvCall (PStr DESKTOP_PATH) IFACE_SCREENCAST "OpenPipeWireRemote" "oa{sv}"
    ∈ trace (run late_denial).1 ∧
  grabber (run late_denial).1 = true.
Proof.
  repeat split; vm_compute; try reflexivity;
    repeat (first [apply list_elem_of_here | apply list_elem_of_further]).
Qed.

(** ** Descriptor passing *)

(** The granting portal, on a [dbus_next] whose [MessageBus] does not take
    [negotiate_unix_fd]. *)
Definition no_fd_passing : world :=
  mkWorld true true false true granted_replies granted_inbox PipelineOk (turns granted).

Lemma fd_error_text_distinct step code :
  message_text FdPassingUnsupported ≠ message_text (StepFailed step code).
Proof.
  intros H. apply (f_equal (String.get 0)) in H.
  destruct step; vm_compute in H; discriminate H.
Qed.

(** C6. When [connect] fell back to a bus without descriptor passing, the
    flag it leaves is false; with the flag false [open_pipewire_remote]
    raises its own error and leaves the state as it was, so no call is
    issued; no run of [stream_wayland] on such a bus issues
    OpenPipeWireRemote, and none is left streaming. The error differs from
    every denial of a step, as a value and by its text. *)
Theorem fd_passing_unsupported (w : world) (api room player : string)
    (fps quality maxw maxh : Z) :
  ctor_takes_fd_flag w = false →
  (∀ s, fd_passing_enabled s = false → fd_passing_enabled (connect w s).1 = false) ∧
  (∀ s, bus_connects w = true → fd_passing_enabled (connect w s).1 = false) ∧
  (∀ session s, fd_passing_enabled s = false →
     open_pipewire_remote w session s
     = (s, Raise (RuntimeError FdPassingUnsupported))) ∧
  (let out := stream_wayland w api room player fps quality maxw maxh init in
   Forall (λ x, x ≠ inl "OpenPipeWireRemote") (protocol (trace out.1)) ∧
   out.2 ≠ Pending) ∧
  (∀ step code,
     RuntimeError FdPassingUnsupported ≠ RuntimeError (StepFailed step code) ∧
     message_text FdPassingUnsupported ≠ message_text (StepFailed step code)).
Proof.
  intros Hflag. split; [|split; [|split; [|split]]].
  - intros s Hs. rewrite connect_run, Hflag. by destruct (bus_connects w).
  - intros s Hc. by rewrite connect_run, Hflag, Hc.
  - intros session s Hs. by apply open_pipewire_remote_disabled.
  - by apply stream_wayland_protocol.
  - intros step code. split; [done|apply fd_error_text_distinct].
Qed.

Lemma fd_passing_unsupported_witness :
  ctor_takes_fd_flag no_fd_passing = false ∧
  Forall (λ x, x ≠ inl "OpenPipeWireRemote") (protocol (trace (run no_fd_passing).1)) ∧
  (run no_fd_passing).2 = Raise (RuntimeError FdPassingUnsupported).
Proof.
  split; [reflexivity|]. split.
  - exact (proj1 (proj1 (proj2 (proj2 (proj2
      (fd_passing_unsupported no_fd_passing "https://www.vpinleaders.com" "ROOM" "p1"
         10 65 1280 720 eq_refl)))))).
  - vm_compute. reflexivity.
Defined.

(** The run on that bus, in full: three granted steps, the error, the
    session closed. *)
Example no_fd_passing_trace :
  protocol (trace (run no_fd_passing).1) = take 6 negotiation ∧
  last (trace (run no_fd_passing).1) = Some EvWsClose ∧
  EvCall (PStr "/session/1") IFACE_SESSION "Close" "" ∈ trace (run no_fd_passing).1.
Proof.
  split; [vm_compute; reflexivity|]. split; [vm_compute; reflexivity|].
  vm_compute. repeat (first [apply list_elem_of_here | apply list_elem_of_further]).
Qed.

(** ** Teardown *)

(** Worlds in which a session is created and a later step fails. *)
Definition with_inbox (n : nat) (msgs : list Message) (k : nat) : list Message :=
  if (k =? n)%nat then msgs else granted_inbox k.

Definition with_reply (n : nat) (r : raising Message) (k : nat) : raising Message :=
  if (k =? n)%nat then r else granted_replies k.

Definition select_denied : world :=
  mkWorld true true true true granted_replies
    (with_inbox 1 [response_signal "/request/1" 1 []]) PipelineOk (turns granted).

Definition start_times_out : world :=
  mkWorld true true true true granted_replies (with_inbox 2 []) PipelineOk
    (turns granted).

Definition remote_without_fds : world :=
  mkWorld true true true true (with_reply 3 (inr (method_return [PInt 0] [])))
    granted_inbox PipelineOk (turns granted).

Definition pipeline_fails : world :=
  mkWorld true true true true granted_replies granted_inbox PipelineNoSink
    (turns granted).

(** One frame is sent, then [ws.send] raises; the portal answers [Close]
    with an error. *)
Definition send_fails : world :=
  mkWorld true true true true (with_reply 4 (inr error_reply)) granted_inbox
    PipelineOk
    [mkTurn [frame_1080p 1] None EncodeOk true;
     mkTurn [frame_1080p 2] None EncodeOk false].

Definition close_call (session : pyval) : event :=
  EvCall session IFACE_SESSION "Close" "".

(** The last two events of a trace. *)
Definition ending (tr : list event) : list event := drop (length tr - 2) tr.

Example teardown_runs :
  ending (trace (run select_denied).1) = [close_call (PStr "/session/1"); EvWsClose] ∧
  (run select_denied).2 = Raise (RuntimeError (StepFailed SelectSources 1)) ∧
  ending (trace (run start_times_out).1) = [close_call (PStr "/session/1"); EvWsClose] ∧
  (run start_times_out).2 = Raise TimeoutError ∧
  ending (trace (run remote_without_fds).1)
  = [close_call (PStr "/session/1"); EvWsClose] ∧
  (run remote_without_fds).2 = Raise (RuntimeError NoUnixFds) ∧
  drop (length (trace (run pipeline_fails).1) - 3) (trace (run pipeline_fails).1)
  = [EvGrabberStop; close_call (PStr "/session/1"); EvWsClose] ∧
  (run pipeline_fails).2 = Raise (RuntimeError AppsinkNotFound) ∧
  drop (length (trace (run send_fails).1) - 3) (trace (run send_fails).1)
  = [EvGrabberStop; close_call (PStr "/session/1"); EvWsClose] ∧
  (run send_fails).2 = Raise (OtherError "ws.send").
Proof. repeat split; vm_compute; reflexivity. Qed.

(** C8. Once [create_session] has returned the session handle, either the
    run is still streaming, or the [try] block raised: then the exception
    that leaves [stream_wayland] is the one the block raised, whichever step
    it came from, and the trace ends with the [Close] call on the session
    followed by the closing of the websocket. [close_session] itself never
    raises, whatever the bus answers. *)
Theorem close_session_always_attempted (w : world) (api room player : string)
    (fps quality maxw maxh : Z) (s1 s2 : state) (session : pyval) :
  is_wayland w = true → ws_connects w = true →
  connect w (opened api room player) = (s1, Ok tt) →
  create_session w s1 = (s2, Ok session) →
  let out := stream_wayland w api room player fps quality maxw maxh init in
  let block := session_body w session fps maxw maxh s2 in
  ((block.2 = Pending ∧ out = block) ∨
   (∃ e tr, block.2 = Raise e ∧ out.2 = Raise e ∧
            trace block.1 = trace s2 ++ tr ∧
            trace out.1 =
              trace block.1 ++ (if grabber block.1 then [EvGrabberStop] else [])
                ++ [close_call session; EvWsClose])) ∧
  (∀ s, (close_session w session s).2 = Ok tt).
Proof.
  intros Hw Hc Hconn Hcs out block. split; [|intros s; apply close_session_ok].
  assert (Hb1 : bus s1 = true).
  { rewrite connect_run in Hconn. destruct (bus_connects w); by inversion Hconn. }
  assert (Hb2 : bus s2 = true).
  { destruct (create_session_post w s1 Hb1) as (tr & dw & E & _).
    rewrite Hcs in E. simpl in E. by rewrite E. }
  subst out. rewrite stream_wayland_run by done. cbv zeta.
  rewrite bind_run, Hconn, bind_run, Hcs, session_scope_run by done.
  fold block.
  destruct (session_body_post w session fps maxw maxh s2 Hb2)
    as (tr & (Ht & _) & Hnok & _).
  fold block in Ht, Hnok.
  destruct block as [s3 r3]. cbn [fst snd] in *.
  destruct r3 as [[]|e|]; try done; try (left; by split).
  right. exists e, tr. cbn. split; [done|]. split; [done|]. split; [done|].
  rewrite !trace_advance. by rewrite <- !app_assoc.
Qed.

(** The states of the [send_fails] run after [connect] and after
    [create_session]. *)
Definition send_fails_connected : state :=
  Eval vm_compute in
    (connect send_fails (opened "https://www.vpinleaders.com" "ROOM" "p1")).1.

Definition send_fails_session : state :=
  Eval vm_compute in (create_session send_fails send_fails_connected).1.

Lemma close_session_always_attempted_witness :
  is_wayland send_fails = true ∧ ws_connects send_fails = true ∧
  (run send_fails).2 = Raise (OtherError "ws.send") ∧
  ending (trace (run send_fails).1) = [close_call (PStr "/session/1"); EvWsClose].
Proof.
  assert (H1 : connect send_fails (opened "https://www.vpinleaders.com" "ROOM" "p1")
               = (send_fails_connected, Ok tt)) by (vm_compute; reflexivity).
  assert (H2 : create_session send_fails send_fails_connected
               = (send_fails_session, Ok (PStr "/session/1")))
    by (vm_compute; reflexivity).
  pose proof (close_session_always_attempted send_fails
                "https://www.vpinleaders.com" "ROOM" "p1" 10 65 1280 720
                send_fails_connected send_fails_session (PStr "/session/1")
                eq_refl eq_refl H1 H2) as [H _].
  split; [reflexivity|]. split; [reflexivity|].
  destruct H as [[H _]|(e & tr & Hblock & Hout & _ & Htr)].
  - vm_compute in H. discriminate H.
  - vm_compute in Hblock. inversion Hblock; subst e.
    split; [exact Hout|]. vm_compute. reflexivity.
Defined.

(** ** A turn without a frame *)

Definition no_frames_line : event := EvPrint "No frames yet (waiting...)".

(** C7. For every timeout, on an empty queue with no frame pushed before
    the deadline, [get_frame] returns [None] and does not raise. In the
    loop, a turn whose [get_frame] returned [None] prints its line and goes
    on with the next turn: the state gains that line alone, so nothing is
    sent, nothing is raised and the websocket is not closed. *)
Theorem no_frame_is_skipped (timeout_s : Q) (next : option (Q * Resize.image))
    (maxw maxh : Z) (t : turn) (rest : list turn) (s : state) :
  (∀ delay frame, next = Some (delay, frame) → (timeout_s <= delay)%Q) →
  Bridge.get_frame [] timeout_s next = inr (None, []) ∧
  (pushed t = [] → arrival t = next → timeout_s = 3%Q →
   stream_loop maxw maxh (t :: rest) [] s
   = stream_loop maxw maxh rest [] (advance s [no_frames_line] 0 0)) ∧
  (∀ q q', Bridge.get_frame
             (match Bridge.run_pushes q (pushed t) with inr q1 => q1 | inl _ => q end)
             3 (arrival t) = inr (None, q') →
   stream_loop maxw maxh (t :: rest) q s
   = stream_loop maxw maxh rest q' (advance s [no_frames_line] 0 0)).
Proof.
  intros Hlate.
  assert (Hget : Bridge.get_frame [] timeout_s next = inr (None, [])).
  { unfold Bridge.get_frame, Bridge.wait_for_get.
    destruct next as [[delay frame]|]; [|done].
    specialize (Hlate delay frame eq_refl).
    apply Qle_bool_iff in Hlate. by rewrite Hlate. }
  assert (Hloop : ∀ q q', Bridge.get_frame
             (match Bridge.run_pushes q (pushed t) with inr q1 => q1 | inl _ => q end)
             3 (arrival t) = inr (None, q') →
   stream_loop maxw maxh (t :: rest) q s
   = stream_loop maxw maxh rest q' (advance s [no_frames_line] 0 0)).
  { intros q q' Hq. cbn [stream_loop]. rewrite bind_run, Hq. simpl lift.
    unfold mret at 1, M_ret at 1. cbn [fst snd]. by rewrite bind_run, log_run. }
  split; [done|]. split; [|done].
  intros Hp Ha Ht. apply Hloop. rewrite Hp, Ha. simpl. by rewrite <- Ht.
Qed.

Lemma no_frame_is_skipped_witness :
  Bridge.get_frame ([] : list Resize.image) 3 None = inr (None, []) ∧
  trace (stream_loop 1280 720
           [mkTurn [] None EncodeOk true; mkTurn [frame_1080p 1] None EncodeOk true]
           [] init).1
  = [no_frames_line; EvWsSend (Resize.Resized (frame_1080p 1) 1280 720)].
Proof.
  destruct (no_frame_is_skipped 3 None 1280 720 (mkTurn [] None EncodeOk true)
              [mkTurn [frame_1080p 1] None EncodeOk true] init)
    as (Hget & Hloop & _); [intros ? ? H; discriminate H|].
  split; [exact Hget|].
  rewrite Hloop by reflexivity. vm_compute. reflexivity.
Defined.

(** ** Runs of the negotiation *)

Example granted_protocol :
  protocol (trace (run granted).1) = negotiation ∧ (run granted).2 = Pending.
Proof. split; vm_compute; reflexivity. Qed.

Example select_denied_protocol :
  protocol (trace (run select_denied).1)
  = [inl "CreateSession"; inr 0; inl "SelectSources"; inr 1].
Proof. vm_compute. reflexivity. Qed.

Example start_times_out_protocol :
  protocol (trace (run start_times_out).1) = take 5 negotiation.
Proof. vm_compute. reflexivity. Qed.


(** ** The future is resolved once *)

(** The test [handler] makes on a message before it reads its body. *)
Definition is_response (msg : Message) : bool :=
  is_signal (message_type msg)
  && String.eqb (interface msg) IFACE_REQUEST
  && String.eqb (member msg) "Response".

(** What a message would resolve a pending future with. *)
Definition resolves (expected : pyval) (msg : Message) : option Response :=
  if is_response msg then
    match decode msg with
    | Some (response_code, decoded) =>
        Some (mkResponse response_code decoded (path msg) expected)
    | None => None
    end
  else None.

Lemma handler_pending expected msg : handler expected None msg = resolves expected msg.
Proof.
  unfold handler, resolves, is_response.
  destruct (_ && _); [|done]. by destruct (decode msg) as [[]|].
Qed.

Lemma deliver_done expected r inbox : foldl (handler expected) (Some r) inbox = Some r.
Proof.
  induction inbox as [|msg inbox IH]; [done|].
  simpl. by rewrite handler_done.
Qed.

(** X11. The future of a wait takes the result of the first message that
    is a [Response] signal of the [Request] interface with a body that
    decodes; messages before it that are something else leave it pending,
    and nothing delivered after it changes the result. The wait times out
    exactly when no message delivered is of that kind. *)
Theorem deliver_first_response (expected : pyval) (inbox : list Message) :
  deliver expected inbox = head (omap (resolves expected) inbox) ∧
  (∀ before msg after r,
     Forall (λ m, resolves expected m = None) before →
     resolves expected msg = Some r →
     deliver expected (before ++ msg :: after) = Some r) ∧
  (deliver expected inbox = None ↔ Forall (λ m, resolves expected m = None) inbox).
Proof.
  assert (Hd : ∀ l, deliver expected l = head (omap (resolves expected) l)).
  { unfold deliver. induction l as [|msg l IH]; [done|].
    simpl. rewrite handler_pending.
    destruct (resolves expected msg) as [r|]; [apply deliver_done|exact IH]. }
  assert (Hn : ∀ l, Forall (λ m, resolves expected m = None) l →
               omap (resolves expected) l = []).
  { induction 1 as [|m l Hm _ IH]; [done|]. simpl. by rewrite Hm. }
  split; [apply Hd|]. split.
  - intros before msg after r Hb Hm.
    rewrite Hd, omap_app, (Hn _ Hb). simpl. by rewrite Hm.
  - rewrite Hd. split.
    + induction inbox as [|m l IH]; [constructor|].
      simpl. destruct (resolves expected m) eqn:Hm; [done|].
      intros H. constructor; [done|by apply IH].
    + intros H. by rewrite (Hn _ H).
Qed.

Lemma deliver_first_response_witness :
  deliver (PStr "/request/0")
    [method_return [PStr "/request/0"] [];
     response_signal "/request/0" 0 session_results;
     response_signal "/request/0" 2 []]
  = Some (mkResponse 0 [(PStr "session_handle", PStr "/session/1")] "/request/0"
            (PStr "/request/0")).
Proof.
  apply (proj1 (proj2 (deliver_first_response (PStr "/request/0") []))
           [method_return [PStr "/request/0"] []]
           (response_signal "/request/0" 0 session_results)
           [response_signal "/request/0" 2 []]).
  - by repeat constructor.
  - reflexivity.
Defined.


(** ** The shape of a run *)

Definition step_call (nm sg : string) : event :=
  EvCall (PStr DESKTOP_PATH) IFACE_SCREENCAST nm sg.

(** The steps that wait for a signal: member, signature and timeout of the
    wait, as [create_session], [select_sources] and [start] pass them. *)
Definition signalled_steps : list (string * string * Z) :=
  [("CreateSession", "a{sv}", 30);
   ("SelectSources", "oa{sv}", 60);
   ("Start", "osa{sv}", 90)].

(** The frames the pipeline hands over during a turn, and during a script. *)
Definition turn_frames (t : turn) : list Resize.image :=
  pushed t ++ match arrival t with Some (_, f) => [f] | None => [] end.

Definition captured (ts : list turn) : list Resize.image := ts ≫= turn_frames.

Lemma push_frames {Frame} (q q' : list Frame) f x :
  Bridge.push q f = inr q' → x ∈ q' → x ∈ q ∨ x = f.
Proof.
  intros Hp Hx.
  assert (Hq : q' = q ++ [f] ∨ q' = tail q ++ [f]).
  { revert Hp. unfold Bridge.push, Bridge.put_nowait.
    destruct (Bridge.full q) eqn:Hf.
    - destruct q as [|a q]; [discriminate Hf|]. simpl.
      destruct (Bridge.full q); [done|]. intros [= <-]. by right.
    - cbv zeta. rewrite Hf. intros [= <-]. by left. }
  destruct Hq as [-> | ->]; apply elem_of_app in Hx as [Hx|Hx].
  - by left.
  - right. by apply list_elem_of_singleton in Hx.
  - left. destruct q; [done|]. by apply list_elem_of_further.
  - right. by apply list_elem_of_singleton in Hx.
Qed.

Lemma run_pushes_frames {Frame} (frames : list Frame) : ∀ q q' x,
  Bridge.run_pushes q frames = inr q' → x ∈ q' → x ∈ q ∨ x ∈ frames.
Proof.
  induction frames as [|f r IH]; intros q q' x; simpl.
  - intros [= <-]. by left.
  - destruct (Bridge.push q f) as [e|q1] eqn:Hp; [done|].
    intros Hr Hx. destruct (IH _ _ _ Hr Hx) as [H|H].
    + destruct (push_frames _ _ _ _ Hp H) as [H'| ->]; [by left|].
      right. apply list_elem_of_here.
    + right. by apply list_elem_of_further.
Qed.

(** What [get_frame] hands out was queued or is the frame that arrived;
    what it leaves was queued. *)
Lemma get_frame_frames {Frame} (q q' : list Frame) timeout_s arr got :
  Bridge.get_frame q timeout_s arr = inr (got, q') →
  (∀ x, x ∈ q' → x ∈ q) ∧
  (∀ f, got = Some f → f ∈ q ∨ ∃ delay, arr = Some (delay, f)).
Proof.
  unfold Bridge.get_frame, Bridge.wait_for_get.
  destruct q as [|a q].
  - destruct arr as [[delay f]|].
    + destruct (Qle_bool timeout_s delay).
      * intros [= <- <-]. split; [done|]. intros f' H. discriminate H.
      * intros [= <- <-]. split; [done|]. intros f' [= <-]. right. by exists delay.
    + intros [= <- <-]. split; [done|]. intros f' H. discriminate H.
  - intros [= <- <-]. split.
    + intros x Hx. by apply list_elem_of_further.
    + intros f' [= <-]. left. apply list_elem_of_here.
Qed.


Section shape.
Variable w : world.
Variables maxw maxh : Z.

(** The stretches of events that the negotiation and the loop add to a
    trace: a signalled step that raised after its call, one whose wait
    timed out, one whose wait was resolved; the call for the PipeWire
    remote; the start of the grabber; a turn without a frame; a frame
    sent, which is a frame of the pipeline after [resize_to_max]. *)
Inductive piece : list event → Prop :=
| piece_call nm sg t :
    (nm, sg, t) ∈ signalled_steps → piece [step_call nm sg]
| piece_timed_out nm sg t :
    (nm, sg, t) ∈ signalled_steps →
    piece [step_call nm sg; EvAddHandler; EvWait t; EvRemoveHandler]
| piece_resolved nm sg t c :
    (nm, sg, t) ∈ signalled_steps →
    piece [step_call nm sg; EvAddHandler; EvWait t; EvResolved c; EvRemoveHandler]
| piece_remote : piece [step_call "OpenPipeWireRemote" "oa{sv}"]
| piece_grabber_start fd nid fps : piece [EvGrabberStart fd nid fps]
| piece_no_frames : piece [no_frames_line]
| piece_send src f :
    src ∈ captured (turns w) →
    Resize.Linux.resize_to_max src maxw maxh = Some f →
    piece [EvWsSend f].

Inductive made_of : list event → Prop :=
| made_nil : made_of []
| made_app p tr : piece p → made_of tr → made_of (p ++ tr).

Lemma made_of_app a b : made_of a → made_of b → made_of (a ++ b).
Proof.
  induction 1 as [|p tr Hp _ IH]; [done|].
  intros Hb. rewrite <- app_assoc. constructor; auto.
Qed.

Lemma made_of_piece p : piece p → made_of p.
Proof. intros H. rewrite <- (app_nil_r p). constructor; [done|constructor]. Qed.

(** From a state with a bus, [m] adds pieces to the trace and keeps the
    bus. *)
Definition adds {A} (m : M A) : Prop :=
  ∀ s, bus s = true →
    ∃ tr, made_of tr ∧ trace (m s).1 = trace s ++ tr ∧ bus (m s).1 = true.

Lemma adds_same {A} (m : M A) : (∀ s, (m s).1 = s) → adds m.
Proof.
  intros H s Hb. exists []. rewrite H, app_nil_r. split; [constructor|done].
Qed.

Lemma adds_ret {A} (a : A) : adds (mret a).
Proof. by apply adds_same. Qed.

Lemma adds_raise {A} e : adds (raise e : M A).
Proof. by apply adds_same. Qed.

Lemma adds_lift {A} (x : raising A) : adds (lift x).
Proof. destruct x; by apply adds_same. Qed.

Lemma adds_bind {A B} (m : M A) (k : A → M B) :
  adds m → (∀ a, adds (k a)) → adds (m ≫= k).
Proof.
  intros Hm Hk s Hb. rewrite bind_run.
  destruct (Hm s Hb) as (tr1 & M1 & T1 & B1).
  destruct (m s) as [s1 r]. simpl in *.
  destruct r as [a|e|]; [|by exists tr1|by exists tr1].
  destruct (Hk a s1 B1) as (tr2 & M2 & T2 & B2).
  exists (tr1 ++ tr2). rewrite T2, T1, app_assoc.
  split; [by apply made_of_app|done].
Qed.

Lemma adds_bind_lift {A B} (x : raising A) (k : A → M B) :
  (∀ a, x = inr a → adds (k a)) → adds (lift x ≫= k).
Proof.
  intros Hk. destruct x as [e|a].
  - by apply adds_same.
  - intros s Hb. exact (Hk a eq_refl s Hb).
Qed.

Lemma adds_bind_ret {A B} (a : A) (k : A → M B) : adds (k a) → adds (mret a ≫= k).
Proof. intros H s Hb. exact (H s Hb). Qed.

Lemma adds_log ev : piece [ev] → adds (log ev).
Proof.
  intros Hp s Hb. rewrite log_run. exists [ev].
  split; [by apply made_of_piece|done].
Qed.

Lemma adds_set_grabber : adds set_grabber.
Proof.
  intros s Hb. exists []. simpl. rewrite app_nil_r. split; [constructor|done].
Qed.

Lemma adds_request {A} nm sg t (k : Response → M A) :
  (nm, sg, t) ∈ signalled_steps → (∀ r, adds (k r)) →
  adds (body ← call w (PStr DESKTOP_PATH) IFACE_SCREENCAST nm sg;
        request_path ← lift (index body 0);
        resp ← wait_request_response w request_path t;
        k resp).
Proof.
  intros Hin Hk s Hb.
  edestruct (request_run w nm sg t k s Hb) as [[e ->]|[->|(r & ex & _ & ->)]].
  - exists [step_call nm sg].
    split; [apply made_of_piece; by econstructor|done].
  - exists [step_call nm sg; EvAddHandler; EvWait t; EvRemoveHandler].
    split; [apply made_of_piece; by econstructor|done].
  - match goal with |- context [k r ?s1] =>
      destruct (Hk r s1 Hb) as (tr & M1 & T1 & B1) end.
    exists ([step_call nm sg; EvAddHandler; EvWait t; EvResolved (response r);
             EvRemoveHandler] ++ tr).
    split; [constructor; [by econstructor|done]|].
    rewrite T1, trace_advance, <- app_assoc. done.
Qed.

Lemma adds_create_session : adds (create_session w).
Proof.
  unfold create_session.
  apply (adds_request "CreateSession" "a{sv}" 30); [apply list_elem_of_here|].
  intros r. destruct (negb _); [apply adds_raise|].
  apply adds_bind; [apply adds_lift|]. intros h.
  destruct (negb _); [apply adds_raise|apply adds_ret].
Qed.

Lemma adds_select_sources session : adds (select_sources w session).
Proof.
  unfold select_sources.
  apply (adds_request "SelectSources" "oa{sv}" 60);
    [apply list_elem_of_further, list_elem_of_here|].
  intros r. destruct (negb _); [apply adds_raise|apply adds_ret].
Qed.

Lemma adds_start session : adds (start w session).
Proof.
  unfold start.
  apply (adds_request "Start" "osa{sv}" 90);
    [apply list_elem_of_further, list_elem_of_further, list_elem_of_here|].
  intros r. destruct (negb _); [apply adds_raise|].
  apply adds_bind; [apply adds_lift|]. intros streams.
  destruct (negb _); [apply adds_raise|].
  apply adds_bind; [apply adds_lift|]. intros entries. apply adds_lift.
Qed.

Lemma adds_open_pipewire_remote session : adds (open_pipewire_remote w session).
Proof.
  intros s Hb. destruct (fd_passing_enabled s) eqn:Hfd.
  - destruct (open_pipewire_remote_enabled w session s Hfd Hb) as (r & -> & _).
    exists [step_call "OpenPipeWireRemote" "oa{sv}"].
    split; [apply made_of_piece; constructor|done].
  - rewrite open_pipewire_remote_disabled by done.
    exists []. simpl. rewrite app_nil_r. split; [constructor|done].
Qed.

Lemma adds_grabber_start fd nid fps : adds (grabber_start w fd nid fps).
Proof.
  unfold grabber_start.
  destruct (pipeline w); first [apply adds_raise | apply adds_log; constructor].
Qed.

Lemma captured_cons t rest f :
  f ∈ captured (t :: rest) ↔ f ∈ turn_frames t ∨ f ∈ captured rest.
Proof. unfold captured. simpl. apply elem_of_app. Qed.

Lemma adds_stream_loop ts : ∀ q,
  (∀ f, f ∈ captured ts → f ∈ captured (turns w)) →
  (∀ f, f ∈ q → f ∈ captured (turns w)) →
  adds (stream_loop maxw maxh ts q).
Proof.
  induction ts as [|t rest IH]; intros q Hts Hq; [by apply adds_same|].
  cbn [stream_loop].
  set (q1 := match Bridge.run_pushes q (pushed t) with
             | inr q' => q' | inl _ => q end).
  assert (Hq1 : ∀ f, f ∈ q1 → f ∈ captured (turns w)).
  { subst q1. destruct (Bridge.run_pushes q (pushed t)) as [e|q'] eqn:Hr; [done|].
    intros f Hf. destruct (run_pushes_frames _ _ _ _ Hr Hf) as [H|H]; [by apply Hq|].
    apply Hts, captured_cons. left. apply elem_of_app. by left. }
  assert (Hrest : ∀ f, f ∈ captured rest → f ∈ captured (turns w)).
  { intros f Hf. apply Hts, captured_cons. by right. }
  apply adds_bind_lift. intros [got q2] Hg. cbn [fst snd].
  destruct (get_frame_frames _ _ _ _ _ Hg) as [Hq2 Hgot].
  assert (Hq2' : ∀ f, f ∈ q2 → f ∈ captured (turns w)) by (intros f Hf; auto).
  destruct got as [frame|].
  - assert (Hframe : frame ∈ captured (turns w)).
    { destruct (Hgot frame eq_refl) as [H|[delay H]]; [by apply Hq1|].
      apply Hts, captured_cons. left. unfold turn_frames. rewrite H.
      apply elem_of_app. right. apply list_elem_of_here. }
    destruct (Resize.Linux.resize_to_max frame maxw maxh) as [f|] eqn:Hr;
      [|by apply adds_same].
    apply adds_bind_ret.
    destruct (encode t); [|by apply IH|apply adds_raise].
    apply adds_bind; [|intros _; by apply IH].
    destruct (send_ok t); [|apply adds_raise].
    apply adds_log. by econstructor.
  - apply adds_bind; [apply adds_log; constructor|].
    intros _. by apply IH.
Qed.

Lemma adds_session_body session fps :
  adds (session_body w session fps maxw maxh).
Proof.
  unfold session_body.
  apply adds_bind; [apply adds_select_sources|]. intros _.
  apply adds_bind; [apply adds_start|]. intros streams.
  apply adds_bind; [apply adds_lift|]. intros info.
  apply adds_bind; [apply adds_open_pipewire_remote|]. intros fd.
  apply adds_bind; [apply adds_set_grabber|]. intros _.
  apply adds_bind; [apply adds_grabber_start|]. intros _.
  apply adds_stream_loop; [done|]. intros f Hf. by apply elem_of_nil in Hf.
Qed.

(** The events of pieces. *)
Definition piece_event (ev : event) : Prop :=
  match ev with
  | EvCall p i _ _ => p = PStr DESKTOP_PATH ∧ i = IFACE_SCREENCAST
  | EvWsSend f =>
      ∃ src, src ∈ captured (turns w) ∧
             Resize.Linux.resize_to_max src maxw maxh = Some f
  | EvAddHandler | EvWait _ | EvResolved _ | EvRemoveHandler
  | EvGrabberStart _ _ _ | EvPrint _ => True
  | EvWsConnect _ | EvWsClose | EvBusConnect _ | EvGrabberStop => False
  end.

Lemma made_of_events tr : made_of tr → Forall piece_event tr.
Proof.
  induction 1 as [|p tr Hp _ IH]; [constructor|].
  apply Forall_app. split; [|done].
  destruct Hp; repeat (apply List.Forall_cons || apply List.Forall_nil);
    simpl; eauto.
Qed.

(** A run that reached the websocket: the two connections, then pieces,
    then the way out. A run that is left streaming has closed nothing; one
    that ended closed the websocket last, after closing the session if
    [create_session] had returned one, after stopping the grabber if there
    was one. No run returns. *)
Lemma stream_wayland_shape api room player fps quality :
  is_wayland w = true → ws_connects w = true →
  let out := stream_wayland w api room player fps quality maxw maxh init in
  out.2 ≠ Ok tt ∧
  ∃ tr ending,
    trace out.1
    = [EvWsConnect (url_of api room player); EvBusConnect (ctor_takes_fd_flag w)]
        ++ tr ++ ending ∧
    made_of tr ∧
    match out.2 with
    | Pending => ending = []
    | _ =>
        ending = [EvWsClose] ∨
        ∃ s1 s2 session,
          connect w (opened api room player) = (s1, Ok tt) ∧
          create_session w s1 = (s2, Ok session) ∧
          (ending = [close_call session; EvWsClose] ∨
           ending = [EvGrabberStop; close_call session; EvWsClose])
    end.
Proof.
  intros Hw Hc out. subst out. rewrite stream_wayland_run by done. cbv zeta.
  assert (Hconn := connect_run w (opened api room player)).
  rewrite bind_run. cbv zeta in Hconn.
  destruct (bus_connects w) eqn:Hbc.
  2:{ rewrite Hconn. cbn [fst snd]. split; [done|]. exists [], [EvWsClose].
      split; [done|]. split; [constructor|]. by left. }
  rewrite Hconn. set (s1 := mkState _ true _ _ _ _) in *.
  rewrite bind_run.
  destruct (adds_create_session s1 eq_refl) as (tr1 & M1 & T1 & B1).
  destruct (create_session w s1) as [s2 r2] eqn:Hcs. cbn [fst snd] in T1, B1.
  destruct r2 as [session|e|].
  - rewrite session_scope_run by done.
    destruct (adds_session_body session fps s2 B1) as (tr2 & M2 & T2 & B2).
    destruct (session_body_post w session fps maxw maxh s2 B1) as (_ & _ & Hnok & _).
    destruct (session_body w session fps maxw maxh s2) as [s3 r3].
    cbn [fst snd] in *.
    destruct r3 as [[]|e|]; [done| |]; cbn [fst snd]; (split; [done|]).
    + exists (tr1 ++ tr2),
        ((if grabber s3 then [EvGrabberStop] else []) ++ [close_call session; EvWsClose]).
      split; [|split; [by apply made_of_app|]].
      * rewrite !trace_advance, T2, T1. rewrite <- !app_assoc. reflexivity.
      * right. exists s1, s2, session. split; [done|]. split; [done|].
        destruct (grabber s3); auto.
    + exists (tr1 ++ tr2), [].
      split; [|split; [by apply made_of_app|done]].
      rewrite T2, T1, app_nil_r. rewrite <- !app_assoc. reflexivity.
  - cbn [fst snd]. split; [done|]. exists tr1, [EvWsClose].
    split; [|split; [done|by left]].
    rewrite trace_advance, T1. rewrite <- !app_assoc. reflexivity.
  - cbn [fst snd]. split; [done|]. exists tr1, [].
    split; [|split; done]. rewrite T1, app_nil_r. reflexivity.
Qed.

End shape.


(** ** What every run keeps *)

(** The events of the waits. *)
Definition waiting (ev : event) : bool :=
  match ev with
  | EvAddHandler | EvWait _ | EvResolved _ | EvRemoveHandler => true
  | _ => false
  end.

(** One wait, from the handler added to the handler removed. *)
Definition wait_block (tr : list event) : Prop :=
  ∃ t, t ∈ [30; 60; 90] ∧
    (tr = [EvAddHandler; EvWait t; EvRemoveHandler] ∨
     ∃ c, tr = [EvAddHandler; EvWait t; EvResolved c; EvRemoveHandler]).

Lemma signalled_timeout nm sg t : (nm, sg, t) ∈ signalled_steps → t ∈ [30; 60; 90].
Proof.
  unfold signalled_steps. rewrite !elem_of_cons, !elem_of_nil.
  intros [H|[H|[H|[]]]]; inversion H; subst; auto.
Qed.

Lemma made_of_waits w maxw maxh tr :
  made_of w maxw maxh tr →
  ∃ blocks, List.filter waiting tr = mjoin blocks ∧ Forall wait_block blocks.
Proof.
  induction 1 as [|p tr Hp _ (blocks & E & F)]; [by exists []|].
  rewrite List.filter_app, E.
  destruct Hp as [nm sg t Hin|nm sg t Hin|nm sg t c Hin| | | | ];
    try (by exists blocks).
  - exists ([EvAddHandler; EvWait t; EvRemoveHandler] :: blocks).
    split; [done|]. constructor; [|done].
    exists t. split; [by eapply signalled_timeout|by left].
  - exists ([EvAddHandler; EvWait t; EvResolved c; EvRemoveHandler] :: blocks).
    split; [done|]. constructor; [|done].
    exists t. split; [by eapply signalled_timeout|right; by exists c].
Qed.

(** X12. In every run the handler of a wait is removed before anything
    else happens on the bus, whether the wait was resolved or timed out:
    the events of the waits are a sequence of blocks, each a handler added,
    the wait with the timeout of its step (30, 60 or 90 seconds), at most
    the code that resolved it, and the handler removed. *)
Theorem handlers_always_removed (w : world) (api room player : string)
    (fps quality maxw maxh : Z) :
  ∃ blocks,
    List.filter waiting
      (trace (stream_wayland w api room player fps quality maxw maxh init).1)
    = mjoin blocks ∧
    Forall wait_block blocks.
Proof.
  destruct (is_wayland w) eqn:Hw.
  2:{ exists []. unfold stream_wayland. rewrite Hw. done. }
  destruct (ws_connects w) eqn:Hc.
  2:{ exists []. unfold stream_wayland. rewrite Hw, Hc. done. }
  destruct (stream_wayland_shape w maxw maxh api room player fps quality Hw Hc)
    as (_ & tr & ending & -> & Hm & He).
  destruct (made_of_waits _ _ _ _ Hm) as (blocks & E & F).
  exists blocks. split; [|done].
  rewrite !List.filter_app, E.
  assert (Hend : List.filter waiting ending = []).
  { destruct (_ : result unit); [| |by subst];
      (destruct He as [->|(s1 & s2 & session & _ & _ & [->| ->])]; done). }
  rewrite Hend, app_nil_r. done.
Qed.


(** X13. [stream_wayland] returns only when the session is not a Wayland
    session, and then it has done nothing: no websocket, no bus. On
    Wayland it ends by an exception or is left streaming; when the
    websocket cannot be opened, that exception leaves it before the bus is
    touched. *)
Theorem returns_only_off_wayland (w : world) (api room player : string)
    (fps quality maxw maxh : Z) :
  let out := stream_wayland w api room player fps quality maxw maxh init in
  (out.2 = Ok tt ↔ is_wayland w = false) ∧
  (is_wayland w = false → out.1 = init) ∧
  (is_wayland w = true → ws_connects w = false →
   out = (init, Raise (OtherError "websockets.connect"))).
Proof.
  intros out. destruct (is_wayland w) eqn:Hw.
  2:{ subst out. unfold stream_wayland. rewrite Hw. done. }
  split; [|split; [done|]].
  - split; [|done]. destruct (ws_connects w) eqn:Hc.
    + by destruct (stream_wayland_shape w maxw maxh api room player fps quality Hw Hc)
        as [Hnok _].
    + subst out. unfold stream_wayland. rewrite Hw, Hc. done.
  - intros _ Hc. subst out. unfold stream_wayland. by rewrite Hw, Hc.
Qed.

(** X14. The websocket is opened first, at the address [build_ws_url]
    gives, and once; it is closed exactly when the run ends, and then
    last: every other event of a run lies between the two. *)
Theorem websocket_closed_last (w : world) (api room player : string)
    (fps quality maxw maxh : Z) :
  let out := stream_wayland w api room player fps quality maxw maxh init in
  (trace out.1 = [] ∧ (is_wayland w = false ∨ ws_connects w = false)) ∨
  ∃ mid,
    trace out.1
    = EvWsConnect (Url.Linux.build_ws_url api room player)
        :: mid ++ match out.2 with Pending => [] | _ => [EvWsClose] end ∧
    Forall (λ ev, ev ≠ EvWsClose ∧ ∀ url, ev ≠ EvWsConnect url) mid.
Proof.
  intros out. destruct (is_wayland w) eqn:Hw.
  2:{ left. subst out. unfold stream_wayland. rewrite Hw. split; [done|by left]. }
  destruct (ws_connects w) eqn:Hc.
  2:{ left. subst out. unfold stream_wayland. rewrite Hw, Hc. split; [done|by right]. }
  right.
  destruct (stream_wayland_shape w maxw maxh api room player fps quality Hw Hc)
    as (Hnok & tr & ending & Ht & Hm & He).
  fold out in Hnok, Ht, He. rewrite Ht.
  assert (Hmid : Forall (λ ev, ev ≠ EvWsClose ∧ ∀ url, ev ≠ EvWsConnect url) tr).
  { eapply Forall_impl; [exact (made_of_events _ _ _ _ Hm)|].
    intros ev Hev. split; [|intros url]; intros ->; exact Hev. }
  assert (Hcases : ∃ inner,
            ending = inner ++ match out.2 with Pending => [] | _ => [EvWsClose] end ∧
            Forall (λ ev, ev ≠ EvWsClose ∧ ∀ url, ev ≠ EvWsConnect url) inner).
  { destruct out.2 as [[]|e|]; [done| |by exists []].
    destruct He as [->|(s1 & s2 & session & _ & _ & [->| ->])].
    - by exists [].
    - exists [close_call session]. split; [done|]. by repeat constructor.
    - exists [EvGrabberStop; close_call session]. split; [done|].
      by repeat constructor. }
  destruct Hcases as (inner & -> & Hinner).
  exists (EvBusConnect (ctor_takes_fd_flag w) :: tr ++ inner).
  split; [simpl; by rewrite <- !app_assoc|].
  constructor; [done|]. apply Forall_app. by split.
Qed.

(** X15. Every frame sent over the websocket is a frame handed over by the
    pipeline and passed through [resize_to_max]; when the frame handed over
    has at most 2 ** 53 pixels each way and the bounds are below 2 ** 52,
    the frame sent is at most [max(2, maxw)] wide and [max(2, maxh)]
    high. *)
Theorem sent_frames_are_resized (w : world) (api room player : string)
    (fps quality maxw maxh : Z) (f : Resize.image) :
  EvWsSend f ∈ trace (stream_wayland w api room player fps quality maxw maxh init).1 →
  ∃ src,
    src ∈ captured (turns w) ∧
    Resize.Linux.resize_to_max src maxw maxh = Some f ∧
    (Resize.width src ≤ 2 ^ 53 → Resize.height src ≤ 2 ^ 53 →
     maxw < 2 ^ 52 → maxh < 2 ^ 52 →
     Resize.width f ≤ Z.max 2 maxw ∧ Resize.height f ≤ Z.max 2 maxh).
Proof.
  intros Hin.
  destruct (is_wayland w) eqn:Hw.
  2:{ unfold stream_wayland in Hin. rewrite Hw in Hin. by apply elem_of_nil in Hin. }
  destruct (ws_connects w) eqn:Hc.
  2:{ unfold stream_wayland in Hin. rewrite Hw, Hc in Hin.
      by apply elem_of_nil in Hin. }
  destruct (stream_wayland_shape w maxw maxh api room player fps quality Hw Hc)
    as (_ & tr & ending & Ht & Hm & He).
  rewrite Ht in Hin. clear Ht.
  assert (Htr : EvWsSend f ∈ tr).
  { apply elem_of_app in Hin as [Hin|Hin].
    { apply elem_of_cons in Hin as [Hin|Hin]; [done|].
      by apply list_elem_of_singleton in Hin. }
    apply elem_of_app in Hin as [Hin|Hin]; [done|]. exfalso.
    assert (Hend : Forall (λ ev, ev ≠ EvWsSend f) ending).
    { destruct (_ : result unit); [| |subst; constructor];
        (destruct He as [->|(s1 & s2 & session & _ & _ & [->| ->])];
         by repeat constructor). }
    rewrite Forall_forall in Hend. by apply (Hend _ Hin). }
  pose proof (made_of_events _ _ _ _ Hm) as Hev.
  rewrite Forall_forall in Hev. destruct (Hev _ Htr) as (src & Hsrc & Hr).
  exists src. split; [done|]. split; [done|].
  intros Hpw Hph Hmw Hmh. by eapply Resize.linux_resize_fits.
Qed.

Lemma sent_frames_are_resized_witness :
  EvWsSend (Resize.Resized (frame_1080p 1) 1280 720)
  ∈ trace (stream_wayland granted "https://www.vpinleaders.com" "ROOM" "p1"
             10 65 1280 720 init).1 ∧
  ∃ src,
    src ∈ captured (turns granted) ∧
    Resize.Linux.resize_to_max src 1280 720
    = Some (Resize.Resized (frame_1080p 1) 1280 720).
Proof.
  assert (Hin : EvWsSend (Resize.Resized (frame_1080p 1) 1280 720)
                ∈ trace (stream_wayland granted "https://www.vpinleaders.com" "ROOM"
                           "p1" 10 65 1280 720 init).1).
  { vm_compute. repeat (first [apply list_elem_of_here | apply list_elem_of_further]). }
  split; [exact Hin|].
  destruct (sent_frames_are_resized granted "https://www.vpinleaders.com" "ROOM" "p1"
              10 65 1280 720 (Resize.Resized (frame_1080p 1) 1280 720) Hin)
    as (src & Hsrc & Hr & _).
  exists src. split; assumption.
Defined.

(** The calls on the [Session] interface. *)
Definition on_session (ev : event) : bool :=
  match ev with
  | EvCall _ interface _ _ => String.eqb interface IFACE_SESSION
  | _ => false
  end.

(** X16. A run calls the [Session] interface at most once, and only to
    close the session whose handle [create_session] returned: no session
    is closed that was not created, and none is closed twice. *)
Theorem session_closed_only_if_created (w : world) (api room player : string)
    (fps quality maxw maxh : Z) :
  let tr := trace (stream_wayland w api room player fps quality maxw maxh init).1 in
  List.filter on_session tr = [] ∨
  ∃ s1 s2 session,
    connect w (opened api room player) = (s1, Ok tt) ∧
    create_session w s1 = (s2, Ok session) ∧
    List.filter on_session tr = [close_call session].
Proof.
  intros tr0. subst tr0.
  destruct (is_wayland w) eqn:Hw.
  2:{ left. unfold stream_wayland. by rewrite Hw. }
  destruct (ws_connects w) eqn:Hc.
  2:{ left. unfold stream_wayland. by rewrite Hw, Hc. }
  destruct (stream_wayland_shape w maxw maxh api room player fps quality Hw Hc)
    as (_ & tr & ending & -> & Hm & He).
  assert (Htr : List.filter on_session tr = []).
  { pose proof (made_of_events _ _ _ _ Hm) as Hev. clear -Hev.
    induction Hev as [|ev tr Hev _ IH]; [done|].
    simpl. destruct ev; simpl; try exact IH.
    destruct Hev as [_ ->]. exact IH. }
  rewrite !List.filter_app, Htr. simpl.
  destruct (_ : result unit); [| |left; by subst];
    (destruct He as [->|(s1 & s2 & session & H1 & H2 & [->| ->])];
     [by left|right; by exists s1, s2, session..]).
Qed.


(** ** What the steps return *)

Lemma list_index_elem {A} (xs : list A) i x : list_index xs i = inr x → x ∈ xs.
Proof.
  unfold list_index. destruct (_ || _); [done|].
  destruct (xs !! _) as [y|] eqn:Hy; [|done].
  intros [= <-]. by eapply list_elem_of_lookup_2.
Qed.

Lemma list_index_first {A} (x : A) xs : list_index (x :: xs) 0 = inr x.
Proof.
  unfold list_index. simpl length.
  replace (Z.of_nat (S (length xs)) <=? 0) with false; [done|].
  symmetry. apply Z.leb_gt. lia.
Qed.

Lemma mapM_cons_inr {A B} (f : A → raising B) x xs ys :
  mapM f (x :: xs) = inr ys → ∃ y ys', ys = y :: ys'.
Proof.
  simpl. unfold mbind, raising_bind.
  destruct (f x) as [e|y]; [done|].
  destruct (mapM f xs) as [e|ys']; [done|].
  intros [= <-]. by eexists _, _.
Qed.

Section returns.
Variable w : world.

Lemma call_with_reply_no_bus p i m sg s :
  bus s = false → call_with_reply w p i m sg s = (s, Raise AssertionError).
Proof. intros Hb. unfold call_with_reply. unfold_monad. by rewrite Hb. Qed.

Lemma call_no_bus p i m sg s :
  bus s = false → call w p i m sg s = (s, Raise AssertionError).
Proof.
  intros Hb. unfold call. by rewrite bind_run, call_with_reply_no_bus.
Qed.

(** X17. The descriptor [open_pipewire_remote] returns is one of the
    descriptors that came with the reply to its call, on a bus that passes
    descriptors: it never hands the pipeline a number the portal sent in
    the body but not as a descriptor. *)
Theorem remote_fd_comes_with_reply (session : pyval) (s s' : state) (fd : Z) :
  open_pipewire_remote w session s = (s', Ok fd) →
  fd_passing_enabled s = true ∧
  ∃ reply,
    reply_to w (n_calls s) = inr reply ∧
    is_error (message_type reply) = false ∧
    fd ∈ unix_fds reply ∧
    s' = advance s [step_call "OpenPipeWireRemote" "oa{sv}"] 1 0.
Proof.
  intros H. destruct (fd_passing_enabled s) eqn:Hfd.
  2:{ rewrite open_pipewire_remote_disabled in H by done. discriminate H. }
  split; [done|].
  unfold open_pipewire_remote in H. rewrite bind_run in H.
  unfold get_state at 1 in H. rewrite Hfd in H.
  change (negb true) with false in H. cbv beta iota in H.
  rewrite bind_run in H.
  destruct (bus s) eqn:Hb.
  2:{ rewrite call_with_reply_no_bus in H by done. discriminate H. }
  rewrite call_with_reply_run in H by done.
  destruct (reply_to w (n_calls s)) as [e|reply]; [discriminate H|].
  exists reply. split; [done|].
  destruct (is_error (message_type reply)); [discriminate H|]. split; [done|].
  destruct (bool_decide (unix_fds reply = [])); [discriminate H|].
  rewrite bind_run in H.
  destruct (list_index (body reply) 0) as [e|h]; [discriminate H|].
  simpl lift in H. unfold mret at 1, M_ret at 1 in H.
  rewrite bind_run in H.
  assert (Hh : ∃ r', r' ≠ Pending ∧ ∀ s0,
            (match h with
             | PVariant _ _ => lift (unwrap_exn h)
             | _ => mret h
             end : M pyval) s0 = (s0, r')).
  { destruct h; try (eexists; split; [|intros ?; reflexivity]; done).
    unfold lift. destruct (unwrap_exn _) as [e|u];
      [exists (Raise e)|exists (Ok u)]; by split. }
  destruct Hh as (r' & Hp & Hr'). rewrite Hr' in H.
  destruct r' as [h'|e|]; [|discriminate H|done].
  rewrite bind_run in H.
  destruct (int_of h') as [e|i]; [discriminate H|].
  simpl lift in H. unfold mret at 1, M_ret at 1 in H.
  destruct (list_index (unix_fds reply) i) as [e|x] eqn:Hx; [discriminate H|].
  simpl in H. inversion H; subst. split; [|done].
  by eapply list_index_elem.
Qed.

(** X18. What [create_session] and [start] return has been checked: the
    session handle is not empty, and the list of streams has a first
    element, so that [streams[0]] in [stream_wayland] cannot fail. *)
Theorem steps_return_checked (session : pyval) (s s' : state) :
  (∀ h, create_session w s = (s', Ok h) → truthy h = true) ∧
  (∀ streams, start w session s = (s', Ok streams) →
     ∃ first, list_index streams 0 = inr first).
Proof.
  destruct (bus s) eqn:Hb.
  2:{ split.
      - intros h. unfold create_session. by rewrite bind_run, call_no_bus.
      - intros streams. unfold start. by rewrite bind_run, call_no_bus. }
  split.
  - intros h. unfold create_session.
    edestruct (request_run w (A:=pyval) "CreateSession" "a{sv}" 30)
      as [[e ->]|[->|(r & ex & _ & ->)]]; [exact Hb|done|done|].
    destruct (negb _); [done|].
    rewrite bind_run. destruct (unwrap_exn _) as [e|h']; [done|].
    simpl lift. unfold mret at 1, M_ret at 1.
    destruct (truthy h') eqn:Ht; [|done].
    simpl. by intros [= _ <-].
  - intros streams. unfold start.
    edestruct (request_run w (A:=list PortalStreamInfo) "Start" "osa{sv}" 90)
      as [[e ->]|[->|(r & ex & _ & ->)]]; [exact Hb|done|done|].
    destruct (negb _); [done|].
    rewrite bind_run. destruct (unwrap_exn _) as [e|v]; [done|].
    simpl lift. unfold mret at 1, M_ret at 1.
    destruct (truthy v) eqn:Ht; [|done].
    change (negb true) with false. cbv beta iota.
    rewrite bind_run.
    destruct (iterate v) as [e|entries] eqn:Hi; [done|].
    simpl lift. unfold mret at 1, M_ret at 1.
    assert (He : ∃ x xs, entries = x :: xs).
    { destruct v; simpl in Hi, Ht; try discriminate Hi;
        inversion Hi; subst.
      - destruct items; [done|]. by eexists _, _.
      - destruct entries; [done|]. by eexists _, _.
      - destruct entries; [done|]. by eexists _, _. }
    destruct He as (x & xs & ->).
    destruct (mapM parse_entry (x :: xs)) as [e|ys] eqn:Hm; [done|].
    destruct (mapM_cons_inr _ _ _ _ Hm) as (y & ys' & ->).
    simpl. intros [= _ <-]. exists y. apply list_index_first.
Qed.

End returns.

(** The state of the granted run when it asks for the PipeWire remote. *)
Definition before_remote : state := mkState [] true true 3 0 false.

Lemma remote_fd_comes_with_reply_witness :
  (open_pipewire_remote granted (PStr "/session/1") before_remote).2 = Ok 7 ∧
  ∃ reply, granted_replies 3 = inr reply ∧ 7 ∈ unix_fds reply.
Proof.
  assert (H : open_pipewire_remote granted (PStr "/session/1") before_remote
              = ((open_pipewire_remote granted (PStr "/session/1") before_remote).1,
                 Ok 7)) by (vm_compute; reflexivity).
  split; [vm_compute; reflexivity|].
  destruct (remote_fd_comes_with_reply granted _ _ _ _ H)
    as (_ & reply & Hr & _ & Hfd & _).
  by exists reply.
Defined.

(** The state of a run once the bus is connected. *)
Definition connected : state := mkState [] true true 0 0 false.

Lemma steps_return_checked_witness :
  (create_session granted connected).2 = Ok (PStr "/session/1") ∧
  truthy (PStr "/session/1") = true.
Proof.
  assert (H : create_session granted connected
              = ((create_session granted connected).1, Ok (PStr "/session/1")))
    by (vm_compute; reflexivity).
  split; [vm_compute; reflexivity|].
  exact (proj1 (steps_return_checked granted PNone connected _) _ H).
Defined.

(** X19. A stream entry whose properties carry neither a size nor a frame
    rate is reported with width 0, height 0 and no frame rate; a size
    given as a pair of numbers, wrapped in a variant or not, is reported
    as width and height; a size that is no sequence is taken as missing. *)
Theorem parse_entry_defaults (node : Z) (props : list (pyval * pyval)) :
  dict_get props (PStr "framerate") = None →
  (dict_get props (PStr "size") = None →
   parse_entry (PTuple [PInt node; PDict props]) = inr (mkStreamInfo node 0 0 None)) ∧
  (∀ a b, dict_get props (PStr "size") = Some (PTuple [PInt a; PInt b]) →
   parse_entry (PTuple [PInt node; PDict props]) = inr (mkStreamInfo node a b None)) ∧
  (∀ sig a b,
     dict_get props (PStr "size") = Some (PVariant sig (PTuple [PInt a; PInt b])) →
     parse_entry (PTuple [PInt node; PDict props]) = inr (mkStreamInfo node a b None)) ∧
  (∀ n, dict_get props (PStr "size") = Some (PInt n) →
   parse_entry (PTuple [PInt node; PDict props]) = inr (mkStreamInfo node 0 0 None)).
Proof.
  intros Hfr.
  assert (Hp : get_default props "framerate" PNone = PNone)
    by (unfold get_default; by rewrite Hfr).
  assert (He :
    parse_entry (PTuple [PInt node; PDict props]) =
    (size ← unwrap_exn (get_default props "size" (PTuple [PInt 0; PInt 0]));
     wh ← match size return raising (Z * Z) with
          | PList (a :: b :: _) => w ← int_of a; h ← int_of b; mret (w, h)
          | _ => mret (0, 0)
          end;
     mret (mkStreamInfo node wh.1 wh.2 None))).
  { assert (Hd : (if truthy (PDict props) then PDict props else PDict [])
                 = PDict props) by (by destruct props).
    unfold parse_entry.
    change (index (PTuple [PInt node; PDict props]) 0)
      with (inr (PInt node) : raising pyval).
    change (index (PTuple [PInt node; PDict props]) 1)
      with (inr (PDict props) : raising pyval).
    cbn [mbind raising_bind int_of]. rewrite Hd, Hp. reflexivity. }
  rewrite He. unfold get_default.
  repeat split.
  - intros Hs. by rewrite Hs.
  - intros a b Hs. by rewrite Hs.
  - intros sig a b Hs. by rewrite Hs.
  - intros n Hs. by rewrite Hs.
Qed.

Lemma parse_entry_defaults_witness :
  parse_entry (PTuple [PInt 42; PDict []]) = inr (mkStreamInfo 42 0 0 None) ∧
  parse_entry (PTuple [PInt 42;
                       PDict [(PStr "size",
                               PVariant "(ii)" (PTuple [PInt 1920; PInt 1080]))]])
  = inr (mkStreamInfo 42 1920 1080 None).
Proof.
  split.
  - exact (proj1 (parse_entry_defaults 42 [] eq_refl) eq_refl).
  - exact (proj1 (proj2 (proj2
      (parse_entry_defaults 42
         [(PStr "size", PVariant "(ii)" (PTuple [PInt 1920; PInt 1080]))] eq_refl)))
      "(ii)" 1920 1080 eq_refl).
Defined.


(** ** How the loop ends *)

Lemma get_frame_returns {Frame} (q : list Frame) timeout_s arr :
  ∃ r, Bridge.get_frame q timeout_s arr = inr r.
Proof.
  unfold Bridge.get_frame, Bridge.wait_for_get.
  destruct q as [|f q]; [|by eexists].
  destruct arr as [[delay f]|]; [|by eexists].
  destruct (Qle_bool timeout_s delay); by eexists.
Qed.

(** The frames sent, as read off a trace. *)
Definition sent (tr : list event) : list Resize.image :=
  omap (λ ev, match ev with EvWsSend f => Some f | _ => None end) tr.

(** X23. The streaming loop never returns, and only three things end it: a
    frame with a zero dimension in [resize_to_max], [cv2.imencode] raising,
    and [ws.send] raising. A turn without a frame, a frame that fails to
    encode, and a full queue do not. While it runs it sends at most one
    frame per turn. *)
Theorem loop_ends_only_by (maxw maxh : Z) (ts : list turn) (q : list Resize.image)
    (s : state) :
  let out := stream_loop maxw maxh ts q s in
  out.2 ≠ Ok tt ∧
  (∀ e, out.2 = Raise e →
     e = ZeroDivisionError ∨ e = OtherError "cv2.imencode" ∨ e = OtherError "ws.send") ∧
  ∃ tr, trace out.1 = trace s ++ tr ∧ (length (sent tr) ≤ length ts)%nat.
Proof.
  revert q s. induction ts as [|t rest IH]; intros q s out.
  { subst out. split; [done|]. split; [done|]. exists []. by rewrite app_nil_r. }
  assert (Hstep : ∀ q2 ev, (length (sent [ev]) ≤ 1)%nat →
            let out := stream_loop maxw maxh rest q2 (advance s [ev] 0 0) in
            out.2 ≠ Ok tt ∧
            (∀ e, out.2 = Raise e →
               e = ZeroDivisionError ∨ e = OtherError "cv2.imencode"
               ∨ e = OtherError "ws.send") ∧
            ∃ tr, trace out.1 = trace s ++ tr ∧
                  (length (sent tr) ≤ S (length rest))%nat).
  { intros q2 ev Hev.
    destruct (IH q2 (advance s [ev] 0 0)) as (H1 & H2 & tr & Ht & Hn).
    split; [done|]. split; [done|]. exists (ev :: tr).
    rewrite Ht, trace_advance, <- app_assoc. split; [done|].
    change (ev :: tr) with ([ev] ++ tr). unfold sent in *.
    rewrite omap_app, length_app. lia. }
  assert (Hskip : ∀ q2,
            let out := stream_loop maxw maxh rest q2 s in
            out.2 ≠ Ok tt ∧
            (∀ e, out.2 = Raise e →
               e = ZeroDivisionError ∨ e = OtherError "cv2.imencode"
               ∨ e = OtherError "ws.send") ∧
            ∃ tr, trace out.1 = trace s ++ tr ∧
                  (length (sent tr) ≤ S (length rest))%nat).
  { intros q2. destruct (IH q2 s) as (H1 & H2 & tr & Ht & Hn).
    split; [done|]. split; [done|]. exists tr. split; [done|lia]. }
  assert (Hraise : ∀ e,
            e = ZeroDivisionError ∨ e = OtherError "cv2.imencode"
            ∨ e = OtherError "ws.send" →
            let out : state * result unit := (s, Raise e) in
            out.2 ≠ Ok tt ∧
            (∀ e', out.2 = Raise e' →
               e' = ZeroDivisionError ∨ e' = OtherError "cv2.imencode"
               ∨ e' = OtherError "ws.send") ∧
            ∃ tr, trace out.1 = trace s ++ tr ∧
                  (length (sent tr) ≤ S (length rest))%nat).
  { intros e He. split; [done|]. split; [by intros e' [= <-]|].
    exists []. simpl. rewrite app_nil_r. split; [done|lia]. }
  clear IH. cbn [length].
  assert (E : out = stream_loop maxw maxh (t :: rest) q s) by done.
  clearbody out. cbn [stream_loop] in E.
  set (q1 := match Bridge.run_pushes q (pushed t) with
             | inr q' => q' | inl _ => q end) in E.
  rewrite bind_run in E.
  destruct (get_frame_returns q1 3 (arrival t)) as [[got q2] Hg].
  rewrite Hg in E. simpl lift in E. unfold mret at 1, M_ret at 1 in E.
  cbn [fst snd] in E.
  destruct got as [frame|].
  - rewrite bind_run in E.
    destruct (Resize.Linux.resize_to_max frame maxw maxh) as [f|].
    2:{ subst out. apply Hraise. by left. }
    unfold mret at 1, M_ret at 1 in E.
    destruct (encode t).
    + rewrite bind_run in E. destruct (send_ok t).
      * rewrite log_run in E. subst out. apply Hstep. simpl. lia.
      * subst out. apply Hraise. by right; right.
    + subst out. apply Hskip.
    + subst out. apply Hraise. by right; left.
  - rewrite bind_run, log_run in E. subst out. apply Hstep. simpl. lia.
Qed.

Lemma loop_ends_only_by_witness :
  (stream_loop 1280 720 (turns send_fails) [] init).2 = Raise (OtherError "ws.send") ∧
  ∃ tr, trace (stream_loop 1280 720 (turns send_fails) [] init).1 = tr ∧
        (length (sent tr) ≤ 2)%nat.
Proof.
  destruct (loop_ends_only_by 1280 720 (turns send_fails) [] init)
    as (_ & _ & tr & Ht & Hn).
  split; [vm_compute; reflexivity|].
  exists tr. split; [exact Ht|exact Hn].
Defined.


(** ** The order of the frames sent *)

Lemma push_sublist {Frame} (q q' : list Frame) f :
  Bridge.push q f = inr q' → q' `sublist_of` q ++ [f].
Proof.
  unfold Bridge.push, Bridge.put_nowait.
  destruct (Bridge.full q) eqn:Hf.
  - destruct q as [|a q]; [discriminate Hf|]. simpl.
    destruct (Bridge.full q); [done|]. intros [= <-]. by apply sublist_cons.
  - cbv zeta. rewrite Hf. by intros [= <-].
Qed.

Lemma run_pushes_sublist {Frame} (frames : list Frame) : ∀ q q',
  Bridge.run_pushes q frames = inr q' → q' `sublist_of` q ++ frames.
Proof.
  induction frames as [|f r IH]; intros q q'; simpl.
  - intros [= <-]. by rewrite app_nil_r.
  - destruct (Bridge.push q f) as [e|q1] eqn:Hp; [done|].
    intros Hr. etrans; [exact (IH _ _ Hr)|].
    replace (q ++ f :: r) with ((q ++ [f]) ++ r) by (by rewrite <- app_assoc).
    apply sublist_app; [by apply push_sublist|done].
Qed.

(** What [get_frame] hands out, followed by what it leaves, was queued or
    arrived, in that order. *)
Lemma get_frame_sublist {Frame} (q q' : list Frame) timeout_s arr got :
  Bridge.get_frame q timeout_s arr = inr (got, q') →
  match got with Some f => f :: q' | None => q' end
  `sublist_of` q ++ match arr with Some (_, f) => [f] | None => [] end.
Proof.
  unfold Bridge.get_frame, Bridge.wait_for_get.
  destruct q as [|a q].
  - destruct arr as [[delay f]|].
    + destruct (Qle_bool timeout_s delay); intros [= <- <-]; simpl.
      * apply sublist_nil_l.
      * done.
    + by intros [= <- <-].
  - intros [= <- <-]. by apply sublist_inserts_r.
Qed.

(** X24. The frames the loop sends are resized frames of the pipeline in
    the order the pipeline handed them over: each frame sent comes from a
    frame that was queued or arrived later than the one sent before it, so
    no frame is sent twice and none overtakes another. *)
Theorem loop_sends_in_order (maxw maxh : Z) (ts : list turn) (q : list Resize.image)
    (s : state) :
  ∃ srcs tr,
    trace (stream_loop maxw maxh ts q s).1 = trace s ++ tr ∧
    srcs `sublist_of` q ++ captured ts ∧
    Forall2 (λ src f, Resize.Linux.resize_to_max src maxw maxh = Some f) srcs (sent tr).
Proof.
  revert q s. induction ts as [|t rest IH]; intros q s.
  { exists [], []. simpl. rewrite app_nil_r. split; [done|].
    split; [apply sublist_nil_l|constructor]. }
  remember (stream_loop maxw maxh (t :: rest) q s) as out eqn:E.
  cbn [stream_loop] in E.
  set (q1 := match Bridge.run_pushes q (pushed t) with
             | inr q' => q' | inl _ => q end) in E.
  assert (Hq1 : q1 `sublist_of` q ++ pushed t).
  { subst q1. destruct (Bridge.run_pushes q (pushed t)) as [e|q'] eqn:Hr.
    - by apply sublist_inserts_r.
    - by apply run_pushes_sublist. }
  rewrite bind_run in E.
  destruct (get_frame_returns q1 3 (arrival t)) as [[got q2] Hg].
  rewrite Hg in E. simpl lift in E. unfold mret at 1, M_ret at 1 in E.
  cbn [fst snd] in E.
  assert (Hgot : match got with Some f => f :: q2 | None => q2 end ++ captured rest
                 `sublist_of` q ++ captured (t :: rest)).
  { unfold captured. cbn [mbind list_bind]. fold (captured rest).
    rewrite app_assoc. apply sublist_app; [|done].
    etrans; [exact (get_frame_sublist _ _ _ _ _ Hg)|].
    unfold turn_frames. rewrite app_assoc. by apply sublist_app. }
  assert (Hstop : ∃ srcs tr,
            trace s = trace s ++ tr ∧ srcs `sublist_of` q ++ captured (t :: rest) ∧
            Forall2 (λ src f, Resize.Linux.resize_to_max src maxw maxh = Some f)
              srcs (sent tr)).
  { exists [], []. rewrite app_nil_r. split; [done|].
    split; [apply sublist_nil_l|constructor]. }
  assert (Hskip : ∀ s1 ev, trace s1 = trace s ++ [ev] → sent [ev] = [] →
            ∃ srcs tr,
              trace (stream_loop maxw maxh rest q2 s1).1 = trace s ++ tr ∧
              srcs `sublist_of` q ++ captured (t :: rest) ∧
              Forall2 (λ src f, Resize.Linux.resize_to_max src maxw maxh = Some f)
                srcs (sent tr)).
  { intros s1 ev Hs1 Hev. destruct (IH q2 s1) as (srcs & tr & Ht & Hs & Hf).
    exists srcs, ([ev] ++ tr). rewrite Ht, Hs1, <- app_assoc. split; [done|].
    split.
    - etrans; [exact Hs|]. etrans; [|exact Hgot].
      apply sublist_app; [|done]. destruct got; [by apply sublist_cons|done].
    - unfold sent in *. by rewrite omap_app, Hev. }
  destruct got as [frame|].
  - rewrite bind_run in E.
    destruct (Resize.Linux.resize_to_max frame maxw maxh) as [f|] eqn:Hr.
    2:{ subst out. exact Hstop. }
    unfold mret at 1, M_ret at 1 in E.
    destruct (encode t).
    + rewrite bind_run in E. destruct (send_ok t); [|subst out; exact Hstop].
      rewrite log_run in E. subst out.
      destruct (IH q2 (advance s [EvWsSend f] 0 0)) as (srcs & tr & Ht & Hs & Hf).
      exists (frame :: srcs), ([EvWsSend f] ++ tr).
      rewrite Ht, trace_advance, <- app_assoc. split; [done|]. split.
      * etrans; [|exact Hgot]. simpl. by apply sublist_skip.
      * simpl. by constructor.
    + subst out. destruct (IH q2 s) as (srcs & tr & Ht & Hs & Hf).
      exists srcs, tr. split; [done|]. split; [|done].
      etrans; [exact Hs|]. etrans; [|exact Hgot].
      apply sublist_app; [by apply sublist_cons|done].
    + subst out. exact Hstop.
  - rewrite bind_run, log_run in E. subst out.
    by apply (Hskip _ (EvPrint "No frames yet (waiting...)")).
Qed.

(** Three frames wait when the third turn begins: the oldest was dropped,
    and one of the other two is sent. *)
Example granted_sends :
  sent (trace (stream_loop 1280 720 (turns granted) [] init).1)
  = [Resize.Resized (frame_1080p 1) 1280 720; Resize.Resized (frame_1080p 3) 1280 720].
Proof. vm_compute. reflexivity. Qed.

End Portal.

(* ====================================================================== *)
(** * The connect-and-send loops of the macOS and Windows scripts *)
(* ====================================================================== *)

Module Transport.

(** What the outside answers where the program calls a library or awaits:
    the call returns ([ok] is the flag of [cv2.imencode], [elapsed] the
    seconds the clock shows since the turn began), or it raises. *)
Inductive answer : Type :=
| Returns (ok : bool) (elapsed : Q)
| Raises (what : string).

(** Where the program stands between two answers. *)
Inductive point : Type :=
| Connecting
| Capturing
| Sending.

Inductive status : Type :=
| Running (at_point : point)
| Exited (what : string).

Inductive event : Type :=
| EvConnect (url : string)
| EvClose
| EvSend
| EvSleep (seconds : Q)
| EvPrint (line : string).

Record state : Type := mkState {
  status_of : status;
  trace : list event
}.

Definition start_state : state := mkState (Running Connecting) [].

(** [if sleep > 0: await asyncio.sleep(sleep)] with
    [sleep = frame_interval - elapsed] *)
Definition pace (frame_interval elapsed : Q) : list event :=
  let sleep_for := (frame_interval - elapsed)%Q in
  if Qle_bool sleep_for 0 then [] else [EvSleep sleep_for].

Module Mac.

(** [1.0 / max(1, fps)] *)
Definition frame_interval (fps : Z) : Q := (1 / inject_Z (Z.max 1 fps))%Q.

(** The [except Exception] clause of [stream_screen]. *)
Definition on_exception (what : string) : list event :=
  [EvPrint ("Connection error: " +:+ what);
   EvPrint "Reconnecting in 2s...";
   EvSleep 2].

(** One answer's worth of [stream_screen]: the events it causes and the
    point reached. The log line printed every 5 seconds is left out. *)
Definition step (ws_url : string) (fps : Z) (at_point : point) (a : answer)
  : list event * status :=
  match at_point, a with
  | Connecting, Returns _ _ =>
      ([EvConnect ws_url; EvPrint ("Connected to ingest: " +:+ ws_url)],
       Running Capturing)
  | Connecting, Raises what =>
      (EvConnect ws_url :: on_exception what, Running Connecting)
  | Capturing, Returns true _ => ([], Running Sending)
  | Capturing, Returns false _ => ([], Running Capturing)
  | Capturing, Raises what => (EvClose :: on_exception what, Running Connecting)
  | Sending, Returns _ elapsed =>
      (EvSend :: pace (frame_interval fps) elapsed, Running Capturing)
  | Sending, Raises what => (EvClose :: on_exception what, Running Connecting)
  end.

Definition stream_screen_step (ws_url : string) (fps : Z) (s : state) (a : answer)
  : state :=
  match status_of s with
  | Exited _ => s
  | Running p =>
      let '(evs, st) := step ws_url fps p a in mkState st (trace s ++ evs)
  end.

(** [stream_screen] against a script of answers. *)
Definition stream_screen (ws_url : string) (fps : Z) (answers : list answer) : state :=
  foldl (stream_screen_step ws_url fps) start_state answers.

End Mac.

Module Windows.

(** One answer's worth of [stream_windows]: no clause catches what
    [websockets.connect], the capture or [ws.send] raise, so the exception
    leaves the coroutine, [main] and [asyncio.run]. [1.0 / fps] is taken
    once connected. *)
Definition step (ws_url : string) (fps : Z) (at_point : point) (a : answer)
  : list event * status :=
  match at_point, a with
  | Connecting, Returns _ _ =>
      if fps =? 0 then ([EvConnect ws_url; EvClose], Exited "ZeroDivisionError")
      else ([EvConnect ws_url; EvPrint "Connected! Streaming LIVE..."],
            Running Capturing)
  | Connecting, Raises what => ([EvConnect ws_url], Exited what)
  | Capturing, Returns true _ => ([], Running Sending)
  | Capturing, Returns false elapsed =>
      (pace (1 / inject_Z fps) elapsed, Running Capturing)
  | Capturing, Raises what => ([EvClose], Exited what)
  | Sending, Returns _ elapsed =>
      (EvSend :: pace (1 / inject_Z fps) elapsed, Running Capturing)
  | Sending, Raises what => ([EvClose], Exited what)
  end.

Definition stream_windows_step (ws_url : string) (fps : Z) (s : state) (a : answer)
  : state :=
  match status_of s with
  | Exited _ => s
  | Running p =>
      let '(evs, st) := step ws_url fps p a in mkState st (trace s ++ evs)
  end.

Definition stream_windows (ws_url : string) (fps : Z) (answers : list answer) : state :=
  foldl (stream_windows_step ws_url fps) start_state answers.

End Windows.

(** ** The macOS loop never exits *)

Lemma mac_step_running ws_url fps p a : ∃ q, (Mac.step ws_url fps p a).2 = Running q.
Proof. destruct p, a as [[] ?|?]; by eexists. Qed.

Lemma mac_running ws_url fps answers :
  ∃ p, status_of (Mac.stream_screen ws_url fps answers) = Running p.
Proof.
  unfold Mac.stream_screen.
  induction answers as [|a answers IH] using rev_ind; [by eexists|].
  rewrite foldl_app. simpl. destruct IH as [p Hp].
  unfold Mac.stream_screen_step at 1. rewrite Hp.
  destruct (mac_step_running ws_url fps p a) as [q Hq].
  destruct (Mac.step ws_url fps p a) as [evs st]. simpl in *. by exists q.
Qed.

Lemma mac_after_exception ws_url fps answers what :
  let s := Mac.stream_screen ws_url fps answers in
  Mac.stream_screen ws_url fps (answers ++ [Raises what]) =
  mkState (Running Connecting)
    (trace s
     ++ [match status_of s with
         | Running Connecting => EvConnect ws_url
         | _ => EvClose
         end]
     ++ Mac.on_exception what).
Proof.
  intros s. unfold Mac.stream_screen. rewrite foldl_app. simpl.
  fold (Mac.stream_screen ws_url fps answers). fold s.
  destruct (mac_running ws_url fps answers) as [p Hp]. fold s in Hp.
  unfold Mac.stream_screen_step. rewrite Hp. by destruct p.
Qed.

Lemma mac_retries ws_url fps what n :
  Mac.stream_screen ws_url fps (replicate n (Raises what)) =
  mkState (Running Connecting)
    (mjoin (replicate n (EvConnect ws_url :: Mac.on_exception what))).
Proof.
  induction n as [|n IH]; [done|].
  replace (replicate (S n) (Raises what))
    with (replicate n (Raises what) ++ [Raises what])
    by (by rewrite <- replicate_cons_app).
  rewrite mac_after_exception, IH. cbn [status_of trace].
  f_equal. rewrite replicate_S_end, join_app. by f_equal.
Qed.

(** ** Runs *)

Definition url : string := "wss://www.vpinleaders.com/ingest?room=ROOM&player=p1".

Example mac_reconnects :
  Mac.stream_screen url 10
    [Raises "refused"; Returns true 0; Returns true 0; Raises "closed";
     Returns true 0]
  = mkState (Running Capturing)
      [EvConnect url;
       EvPrint "Connection error: refused"; EvPrint "Reconnecting in 2s..."; EvSleep 2;
       EvConnect url; EvPrint ("Connected to ingest: " +:+ url);
       EvClose;
       EvPrint "Connection error: closed"; EvPrint "Reconnecting in 2s..."; EvSleep 2;
       EvConnect url; EvPrint ("Connected to ingest: " +:+ url)].
Proof. reflexivity. Qed.

(** C3, as stated, on the Windows script: a refused connection, or a send
    that raises, ends [stream_windows]; nothing is awaited and no second
    connection is tried, whatever the outside would answer next. The Linux
    script likewise lets the exception of [ws.send] out of
    [stream_wayland]. *)
Lemma windows_failure_exits :
  Windows.stream_windows url 10 [Raises "refused"; Returns true 0; Returns true 0]
  = mkState (Exited "refused") [EvConnect url] ∧
  Windows.stream_windows url 10
    [Returns true 0; Returns true 0; Raises "closed"; Returns true 0]
  = mkState (Exited "closed")
      [EvConnect url; EvPrint "Connected! Streaming LIVE..."; EvClose] ∧
  (Portal.run Portal.send_fails).2 = Portal.Raise (Exc.OtherError "ws.send").
Proof. repeat split; vm_compute; reflexivity. Qed.

(** C3, amended to the macOS script. Whatever the outside answers,
    [stream_screen] is never left; an exception raised by the connection
    attempt, the capture or the send closes the session at hand (if one is
    open), prints, sleeps 2 seconds and leaves the program about to connect
    again; [n] refusals in a row give [n] attempts, each followed by the
    same 2-second sleep. *)
Theorem mac_reconnects_forever (ws_url : string) (fps : Z) (answers : list answer) :
  let s := Mac.stream_screen ws_url fps answers in
  (∃ p, status_of s = Running p) ∧
  (∀ what,
     Mac.stream_screen ws_url fps (answers ++ [Raises what]) =
     mkState (Running Connecting)
       (trace s
        ++ [match status_of s with
            | Running Connecting => EvConnect ws_url
            | _ => EvClose
            end]
        ++ [EvPrint ("Connection error: " +:+ what);
            EvPrint "Reconnecting in 2s...";
            EvSleep 2])) ∧
  (∀ n what,
     Mac.stream_screen ws_url fps (replicate n (Raises what)) =
     mkState (Running Connecting)
       (mjoin (replicate n [EvConnect ws_url;
                            EvPrint ("Connection error: " +:+ what);
                            EvPrint "Reconnecting in 2s...";
                            EvSleep 2]))).
Proof.
  intros s. split; [apply mac_running|]. split.
  - intros what. apply mac_after_exception.
  - intros n what. apply mac_retries.
Qed.


(** ** The Windows script exits for good *)

Definition is_connect (ev : event) : bool :=
  match ev with EvConnect _ => true | _ => false end.

Definition raises (a : answer) : bool :=
  match a with Raises _ => true | Returns _ _ => false end.

Lemma windows_exited ws_url fps what tr more :
  foldl (Windows.stream_windows_step ws_url fps) (mkState (Exited what) tr) more
  = mkState (Exited what) tr.
Proof. induction more as [|a more IH]; [done|exact IH]. Qed.

Lemma connect_free_pace fi elapsed : List.filter is_connect (pace fi elapsed) = [].
Proof. unfold pace. by destruct (Qle_bool _ _). Qed.

(** One connection at most, and none while the script is about to
    connect. *)
Lemma windows_connects ws_url fps answers :
  let s := Windows.stream_windows ws_url fps answers in
  (length (List.filter is_connect (trace s)) ≤ 1)%nat ∧
  (status_of s = Running Connecting → trace s = []).
Proof.
  unfold Windows.stream_windows. cbv zeta.
  induction answers as [|a answers IH] using rev_ind; [split; [simpl; lia|done]|].
  rewrite foldl_app. cbn [foldl]. destruct IH as [Hn Hc].
  destruct (foldl _ start_state answers) as [st tr]. cbn [status_of trace] in *.
  unfold Windows.stream_windows_step. cbn [status_of trace].
  destruct st as [p|what]; [|by split].
  destruct p.
  - rewrite Hc by done. destruct a as [ok elapsed|what]; simpl.
    + destruct (fps =? 0); simpl; split; (lia || done).
    + split; [lia|done].
  - destruct a as [[] elapsed|what]; simpl; rewrite ?app_nil_r;
      rewrite ?List.filter_app, ?connect_free_pace; simpl; rewrite ?app_nil_r;
      split; (done || lia).
  - destruct a as [ok elapsed|what]; simpl;
      rewrite ?List.filter_app; simpl; rewrite ?connect_free_pace, ?app_nil_r;
      split; (done || lia).
Qed.

(** While everything returns the script keeps running; it is about to
    connect only before the first answer. *)
Lemma windows_running ws_url fps answers :
  fps ≠ 0 → Forall (λ a, raises a = false) answers →
  ∃ p, status_of (Windows.stream_windows ws_url fps answers) = Running p ∧
       (p = Connecting ↔ answers = []).
Proof.
  intros Hfps. unfold Windows.stream_windows.
  induction answers as [|a answers IH] using rev_ind; intros Hall.
  - by exists Connecting.
  - apply Forall_app in Hall as [Hall Ha]. apply Forall_inv in Ha.
    destruct (IH Hall) as (p & Hp & _).
    rewrite foldl_app. cbn [foldl].
    unfold Windows.stream_windows_step at 1. rewrite Hp.
    destruct a as [ok elapsed|what]; [|done].
    apply Z.eqb_neq in Hfps.
    destruct p, ok; simpl; rewrite ?Hfps; simpl;
      eexists; (split; [reflexivity|]); split; intros H; try done;
      by destruct answers.
Qed.

(** X20. [stream_windows] ends with the first exception raised, by the
    connection attempt, the capture or the send: that exception is the one
    that leaves it, whatever the outside would have answered afterwards,
    and an open websocket is closed on the way out. It connects at most
    once in a run. *)
Theorem windows_exits_for_good (ws_url : string) (fps : Z) (answers : list answer) :
  let s := Windows.stream_windows ws_url fps answers in
  (∀ what more, status_of s = Exited what →
     Windows.stream_windows ws_url fps (answers ++ more) = s) ∧
  (length (List.filter is_connect (trace s)) ≤ 1)%nat ∧
  (∀ before what after,
     answers = before ++ Raises what :: after →
     Forall (λ a, raises a = false) before → fps ≠ 0 →
     status_of s = Exited what ∧
     trace s = trace (Windows.stream_windows ws_url fps before)
               ++ [match before with [] => EvConnect ws_url | _ => EvClose end]).
Proof.
  intros s. split; [|split; [apply windows_connects|]].
  - intros what more Hs. subst s. unfold Windows.stream_windows in *.
    rewrite foldl_app.
    destruct (foldl _ start_state answers) as [st tr]. simpl in Hs. subst st.
    apply windows_exited.
  - intros before what after -> Hall Hfps. subst s.
    destruct (windows_running ws_url fps before Hfps Hall) as (p & Hp & Hpc).
    unfold Windows.stream_windows in *. rewrite foldl_app. cbn [foldl].
    destruct (foldl _ start_state before) as [st tr]. cbn [status_of trace] in *.
    subst st.
    assert (Hstep : Windows.step ws_url fps p (Raises what)
                    = ([match before with [] => EvConnect ws_url | _ => EvClose end],
                       Exited what)).
    { destruct p, before as [|b before]; try done.
      - discriminate (proj1 Hpc eq_refl).
      - discriminate (proj2 Hpc eq_refl).
      - discriminate (proj2 Hpc eq_refl). }
    assert (Hs : Windows.stream_windows_step ws_url fps (mkState (Running p) tr)
                   (Raises what)
                 = mkState (Exited what)
                     (tr ++ [match before with
                             | [] => EvConnect ws_url
                             | _ => EvClose
                             end])).
    { unfold Windows.stream_windows_step. cbn [status_of trace]. by rewrite Hstep. }
    by rewrite Hs, windows_exited.
Qed.

Lemma windows_exits_for_good_witness :
  status_of (Windows.stream_windows url 10
               [Returns true 0; Returns true 0; Raises "closed"; Returns true 0])
  = Exited "closed" ∧
  (length (List.filter is_connect
     (trace (Windows.stream_windows url 10
               [Returns true 0; Returns true 0; Raises "closed"; Returns true 0])))
   ≤ 1)%nat.
Proof.
  pose proof (windows_exits_for_good url 10
                [Returns true 0; Returns true 0; Raises "closed"; Returns true 0])
    as (_ & Hn & Hx).
  split; [|exact Hn].
  refine (proj1 (Hx [Returns true 0; Returns true 0] "closed" [Returns true 0]
                   eq_refl _ _)).
  - by repeat constructor.
  - done.
Defined.


(** ** Pacing *)

Lemma mac_frame_interval_bounds fps :
  (0 < Mac.frame_interval fps)%Q ∧ (Mac.frame_interval fps <= 1)%Q.
Proof.
  unfold Mac.frame_interval.
  destruct (Z.max 1 fps) as [|p|p] eqn:E; [lia| |lia].
  split.
  - reflexivity.
  - unfold Qle. simpl. lia.
Qed.

Lemma pace_sleeps fi elapsed s :
  EvSleep s ∈ pace fi elapsed →
  (0 < s)%Q ∧ ((0 <= elapsed)%Q → (s <= fi)%Q).
Proof.
  unfold pace. destruct (Qle_bool (fi - elapsed) 0) eqn:H.
  - intros Hin. by apply elem_of_nil in Hin.
  - intros Hin. apply list_elem_of_singleton in Hin. inversion Hin; subst.
    assert (Hlt : (0 < fi - elapsed)%Q).
    { apply Qnot_le_lt. intros Hle. apply Qle_bool_iff in Hle. congruence. }
    split; [done|]. intros He. lra.
Qed.

(** The sleeps of the macOS loop. *)
Definition sleep_ok (fps : Z) (ev : event) : Prop :=
  ∀ s, ev = EvSleep s →
    s = 2%Q ∨ ((0 < s)%Q ∧ (s <= Mac.frame_interval fps)%Q).

Definition clock_ok (a : answer) : Prop :=
  ∀ ok elapsed, a = Returns ok elapsed → (0 <= elapsed)%Q.

Lemma mac_step_sleeps ws_url fps p a :
  clock_ok a → Forall (sleep_ok fps) (Mac.step ws_url fps p a).1.
Proof.
  intros Ha.
  assert (Hexc : ∀ what, Forall (sleep_ok fps) (Mac.on_exception what)).
  { intros what. unfold Mac.on_exception.
    repeat apply List.Forall_cons; try apply List.Forall_nil;
      intros s Hs; inversion Hs; by left. }
  assert (Hno : ∀ ev, (∀ s, ev ≠ EvSleep s) → sleep_ok fps ev).
  { intros ev Hev s Hs. by destruct (Hev s). }
  destruct p, a as [ok elapsed|what]; simpl.
  - repeat apply List.Forall_cons; try apply List.Forall_nil; by apply Hno.
  - apply List.Forall_cons; [by apply Hno|apply Hexc].
  - destruct ok; apply List.Forall_nil.
  - apply List.Forall_cons; [by apply Hno|apply Hexc].
  - apply List.Forall_cons; [by apply Hno|].
    apply Forall_forall. intros ev Hin s ->. right.
    destruct (pace_sleeps _ _ _ Hin) as [H0 H1].
    split; [done|]. apply H1. by eapply Ha.
  - apply List.Forall_cons; [by apply Hno|apply Hexc].
Qed.

(** X21. The frame interval of the macOS script is positive and at most one
    second, whatever [fps] is given (0 and negative values are taken as 1).
    When the clock does not run backwards, every sleep of a run is either
    the 2 seconds before a reconnection or a positive time of at most the
    frame interval: the loop never asks for a sleep of zero or less, and
    never waits longer than 2 seconds. *)
Theorem mac_sleeps_bounded (ws_url : string) (fps : Z) (answers : list answer) :
  Forall clock_ok answers →
  (0 < Mac.frame_interval fps)%Q ∧ (Mac.frame_interval fps <= 1)%Q ∧
  Forall (sleep_ok fps) (trace (Mac.stream_screen ws_url fps answers)) ∧
  ∀ s, EvSleep s ∈ trace (Mac.stream_screen ws_url fps answers) →
       (0 < s)%Q ∧ (s <= 2)%Q.
Proof.
  intros Hall. destruct (mac_frame_interval_bounds fps) as [H0 H1].
  split; [done|]. split; [done|].
  assert (Hs : Forall (sleep_ok fps) (trace (Mac.stream_screen ws_url fps answers))).
  { unfold Mac.stream_screen.
    induction answers as [|a answers IH] using rev_ind; [constructor|].
    apply Forall_app in Hall as [Hall Ha]. apply Forall_inv in Ha.
    rewrite foldl_app. cbn [foldl]. specialize (IH Hall).
    destruct (foldl _ start_state answers) as [st tr]. cbn [trace] in IH.
    unfold Mac.stream_screen_step. cbn [status_of trace].
    destruct st as [p|what]; [|done].
    pose proof (mac_step_sleeps ws_url fps p a Ha) as Hstep.
    destruct (Mac.step ws_url fps p a) as [evs st']. cbn [fst trace] in *.
    apply Forall_app. by split. }
  split; [done|]. intros s Hin.
  rewrite Forall_forall in Hs. destruct (Hs _ Hin s eq_refl) as [->|[Hp Hle]].
  - split; reflexivity || (unfold Qle; simpl; lia).
  - split; [done|]. lra.
Qed.

Lemma mac_sleeps_bounded_witness :
  (0 < Mac.frame_interval 0)%Q ∧
  Forall (sleep_ok 10)
    (trace (Mac.stream_screen url 10
              [Returns true 0; Returns true 0; Returns true (1 # 20);
               Raises "closed"])).
Proof.
  assert (H : Forall clock_ok
                [Returns true 0; Returns true 0; Returns true (1 # 20);
                 Raises "closed"]).
  { repeat constructor; intros ok el Ha; inversion Ha; subst; unfold Qle; simpl; lia. }
  split.
  - exact (proj1 (mac_sleeps_bounded url 0 [] (List.Forall_nil _))).
  - exact (proj1 (proj2 (proj2 (mac_sleeps_bounded url 10 _ H)))).
Defined.


(** ** The life cycle of the macOS connection *)

(** What a trace says of the websocket: none is open and the script may
    connect; a connection attempt is under way; the websocket is open; it
    was lost or refused and the script has not slept yet. *)
Inductive phase : Type := Ready | Attempt | Open | Failed.

(** The line printed once [websockets.connect] has returned. *)
Definition connected_line (line : string) : bool := String.prefix "Connected" line.

(** One event of the life cycle; [None] when the event is out of place. *)
Definition follow (ph : phase) (ev : event) : option phase :=
  match ph, ev with
  | Ready, EvConnect _ => Some Attempt
  | Attempt, EvPrint line => Some (if connected_line line then Open else Failed)
  | Open, EvSend => Some Open
  | Open, EvSleep _ => Some Open
  | Open, EvClose => Some Failed
  | Failed, EvPrint _ => Some Failed
  | Failed, EvSleep s => if Qeq_bool s 2 then Some Ready else None
  | _, _ => None
  end.

Fixpoint follow_all (ph : phase) (tr : list event) : option phase :=
  match tr with
  | [] => Some ph
  | ev :: r =>
      match follow ph ev with
      | Some ph' => follow_all ph' r
      | None => None
      end
  end.

Lemma follow_all_app ph tr1 tr2 :
  follow_all ph (tr1 ++ tr2) =
  match follow_all ph tr1 with
  | Some ph' => follow_all ph' tr2
  | None => None
  end.
Proof.
  revert ph. induction tr1 as [|ev tr1 IH]; intros ph; [done|].
  simpl. destruct (follow ph ev); [apply IH|done].
Qed.

Definition phase_of (p : point) : phase :=
  match p with Connecting => Ready | Capturing | Sending => Open end.

Lemma follow_pace fi elapsed : follow_all Open (pace fi elapsed) = Some Open.
Proof. unfold pace. by destruct (Qle_bool _ _). Qed.

Lemma follow_exception what : follow_all Failed (Mac.on_exception what) = Some Ready.
Proof. reflexivity. Qed.

Lemma mac_step_follows ws_url fps p a :
  ∃ q, (Mac.step ws_url fps p a).2 = Running q ∧
       follow_all (phase_of p) (Mac.step ws_url fps p a).1 = Some (phase_of q).
Proof.
  destruct p, a as [ok elapsed|what].
  - exists Capturing. split; [done|]. vm_compute. reflexivity.
  - exists Connecting. split; [done|]. vm_compute. reflexivity.
  - destruct ok; [by exists Sending|by exists Capturing].
  - by exists Connecting.
  - exists Capturing. split; [done|].
    change (follow_all Open (pace (Mac.frame_interval fps) elapsed) = Some Open).
    apply follow_pace.
  - by exists Connecting.
Qed.

(** X22. Whatever the outside answers, the trace of the macOS loop follows
    the life cycle of one websocket at a time: a connection is attempted
    only when none is open; frames are sent, and the websocket is closed,
    only while it is open; after a refused attempt or a lost connection
    nothing happens but the two lines and the sleep of 2 seconds before the
    next attempt. *)
Theorem mac_follows_life_cycle (ws_url : string) (fps : Z) (answers : list answer) :
  ∃ p,
    status_of (Mac.stream_screen ws_url fps answers) = Running p ∧
    follow_all Ready (trace (Mac.stream_screen ws_url fps answers))
    = Some (phase_of p).
Proof.
  unfold Mac.stream_screen.
  induction answers as [|a answers IH] using rev_ind; [by exists Connecting|].
  destruct IH as (p & Hp & Hf).
  rewrite foldl_app. cbn [foldl].
  destruct (foldl _ start_state answers) as [st tr]. cbn [status_of trace] in *.
  subst st. unfold Mac.stream_screen_step. cbn [status_of trace].
  destruct (mac_step_follows ws_url fps p a) as (q & Hq & Hs).
  destruct (Mac.step ws_url fps p a) as [evs st']. cbn [fst snd] in *. subst st'.
  exists q. split; [done|]. cbn [trace]. by rewrite follow_all_app, Hf.
Qed.

(** A send on a closed websocket, or a second connection beside an open
    one, is out of place. *)
Example out_of_place :
  follow_all Ready [EvConnect url; EvPrint "Connection error: refused"; EvSend] = None ∧
  follow_all Ready
    [EvConnect url; EvPrint ("Connected to ingest: " +:+ url); EvConnect url] = None ∧
  follow_all Ready
    [EvConnect url; EvPrint ("Connected to ingest: " +:+ url); EvClose;
     EvConnect url] = None.
Proof. repeat split; vm_compute; reflexivity. Qed.

End Transport.
